(** * Staff lookup application: device-bound login, service window, bulk
    import, cache, statistics and CSV handling.

    A shallow embedding of the TypeScript sources (the service layer in
    [src/services/supabaseClient.ts], the main screen, the admin screen and
    the working-hours predicate) together with the properties that the
    specification states about them.

    Conventions of the embedding.
    - A JavaScript string is the list of its UTF-16 code units ([list N]).
    - A nullable column is an [option]; JavaScript truthiness of a nullable
      string is [truthy] (neither [null] nor the empty string).
    - The hosted datastore is passed explicitly: a table is the list of its
      rows, and every remote call takes the failure (if any) that the
      transport or the store answers with, so that both the success path
      and the error path of each function can be followed.
    - [throw new Error(..)] is a result [Throw e]; the messages of the
      source are the constructors of [AppError]. *)

From Stdlib Require Import ZArith NArith List Lia String Ascii DecimalString
  DecimalPos DecimalZ.
From stdpp Require Import base list gmap strings sorting.
From Equations Require Import Equations.

Open Scope Z_scope.

(** ** JavaScript strings *)

Module Js.

(** A string as the sequence of its code units. *)
Abbreviation jsstring := (list N).

(** A literal of the source, given by its ASCII characters. *)
Definition js (s : string) : jsstring := map N_of_ascii (list_ascii_of_string s).
Arguments js s%_string.

(** [!!s] is false exactly for [null], [undefined] and [''] . *)
Definition truthy (s : option jsstring) : bool :=
  match s with
  | Some (_ :: _) => true
  | _ => false
  end.

(** [s || ''] for a nullable string. *)
Definition or_empty (s : option jsstring) : jsstring :=
  match s with
  | Some t => t
  | None => []
  end.

(** [a === b] on strings. *)
Definition str_eqb (a b : jsstring) : bool := bool_decide (a = b).

(** [s.startsWith(p)], by code units. *)
Fixpoint starts_with (p s : jsstring) : bool :=
  match p, s with
  | [], _ => true
  | _ :: _, [] => false
  | a :: p', b :: s' => bool_decide (a = b) && starts_with p' s'
  end.

(** [s.includes(p)]. *)
Fixpoint includes (s p : jsstring) : bool :=
  starts_with p s ||
  match s with
  | [] => false
  | _ :: s' => includes s' p
  end.

(** [s.split(sep)] for a separator of one code unit. The result is never
    empty: [''.split(sep)] is [['']]. *)
Fixpoint split_char (sep : N) (s : jsstring) : list jsstring :=
  match s with
  | [] => [[]]
  | c :: s' =>
      if bool_decide (c = sep) then [] :: split_char sep s'
      else match split_char sep s' with
           | p :: ps => (c :: p) :: ps
           | [] => [[c]]
           end
  end.

(** [parts.join(sep)]. *)
Fixpoint join_with (sep : jsstring) (parts : list jsstring) : jsstring :=
  match parts with
  | [] => []
  | [p] => p
  | p :: ps => p ++ sep ++ join_with sep ps
  end.

(** White space and line terminators of ECMAScript, the code units that
    [trim] removes. *)
Definition is_ws (c : N) : bool :=
  bool_decide (c ∈ [9; 10; 11; 12; 13; 32; 160; 5760; 8232; 8233; 8239; 8287;
                    12288; 65279]%N)
  || ((8192 <=? c)%N && (c <=? 8202)%N).

(** [s.trimStart()]. *)
Fixpoint trim_start (s : jsstring) : jsstring :=
  match s with
  | [] => []
  | c :: s' => if is_ws c then trim_start s' else s
  end.

(** [s.trimEnd()]. *)
Definition trim_end (s : jsstring) : jsstring := reverse (trim_start (reverse s)).

(** [s.trim()]. *)
Definition trim (s : jsstring) : jsstring := trim_start (trim_end s).

(** *** Facts about these operations *)

Lemma str_eqb_true (a b : jsstring) : str_eqb a b = true ↔ a = b.
Proof. unfold str_eqb. apply bool_decide_eq_true. Qed.

Lemma str_eqb_false (a b : jsstring) : str_eqb a b = false ↔ a ≠ b.
Proof. unfold str_eqb. apply bool_decide_eq_false. Qed.

Lemma str_eqb_refl (a : jsstring) : str_eqb a a = true.
Proof. by apply str_eqb_true. Qed.

Lemma split_char_nonempty sep s : split_char sep s ≠ [].
Proof.
  destruct s as [|c s]; cbn [split_char]; [done|].
  case_bool_decide; [done|]. by destruct (split_char sep s).
Qed.

Lemma split_char_app sep (p rest : jsstring) :
  sep ∉ p →
  split_char sep (p ++ sep :: rest) = p :: split_char sep rest.
Proof.
  induction p as [|c p IH]; intros Hp; cbn [app split_char].
  - by rewrite bool_decide_eq_true_2.
  - rewrite bool_decide_eq_false_2 by (intros ->; apply Hp; left).
    rewrite IH; [done|]. intros Hin. apply Hp. by right.
Qed.

Lemma split_char_no_sep sep (p : jsstring) :
  sep ∉ p → split_char sep p = [p].
Proof.
  induction p as [|c p IH]; intros Hp; cbn [split_char]; [done|].
  rewrite bool_decide_eq_false_2 by (intros ->; apply Hp; left).
  rewrite IH; [done|]. intros Hin. apply Hp. by right.
Qed.

(** Splitting undoes joining, for parts free of the separator. *)
Lemma split_char_join sep (parts : list jsstring) :
  parts ≠ [] → Forall (λ p, sep ∉ p) parts →
  split_char sep (join_with [sep] parts) = parts.
Proof.
  induction parts as [|p [|q parts] IH]; intros Hne Hall; [done| |].
  - cbn [join_with]. apply split_char_no_sep. by inversion Hall.
  - change (join_with [sep] (p :: q :: parts))
      with (p ++ sep :: join_with [sep] (q :: parts)).
    inversion Hall as [|? ? Hp Hrest]; subst.
    rewrite split_char_app by done. f_equal. by apply IH.
Qed.

Lemma join_with_cons (sep p q : jsstring) (ps : list jsstring) :
  join_with sep (p :: q :: ps) = p ++ sep ++ join_with sep (q :: ps).
Proof. reflexivity. Qed.

(** Joining undoes splitting, for every string. *)
Lemma join_split_char sep (s : jsstring) :
  join_with [sep] (split_char sep s) = s.
Proof.
  induction s as [|c s IH]; [done|]. cbn [split_char].
  pose proof (split_char_nonempty sep s) as Hne.
  destruct (split_char sep s) as [|p ps]; [done|].
  case_bool_decide as Hc.
  - subst c. rewrite join_with_cons, IH. reflexivity.
  - destruct ps as [|q ps].
    + cbn [join_with] in *. by rewrite IH.
    + rewrite join_with_cons in *. cbn [app] in *. by rewrite IH.
Qed.

Lemma split_char_parts sep (s : jsstring) :
  Forall (λ p, sep ∉ p) (split_char sep s).
Proof.
  induction s as [|c s IH]; cbn [split_char].
  - constructor; [|constructor]. by inversion 1.
  - case_bool_decide as Hc.
    + constructor; [by inversion 1 | done].
    + destruct (split_char sep s) as [|p ps].
      * constructor; [|constructor]. intros Hin.
        apply list_elem_of_singleton in Hin. congruence.
      * inversion IH as [|? ? Hp Hps]; subst. constructor; [|done].
        intros Hin. inversion Hin; subst; [congruence|done].
Qed.

Lemma trim_start_keep (s : jsstring) :
  (∀ c, head s = Some c → is_ws c = false) → trim_start s = s.
Proof.
  destruct s as [|c s]; [done|]. intros Hc. cbn [trim_start].
  by rewrite (Hc c eq_refl).
Qed.

(** A string without white space at either end is left alone by [trim]. *)
Lemma trim_keep (s : jsstring) :
  (∀ c, head s = Some c → is_ws c = false) →
  (∀ c, last s = Some c → is_ws c = false) →
  trim s = s.
Proof.
  intros Hh Hl. unfold trim, trim_end.
  rewrite (trim_start_keep (reverse s)).
  - rewrite reverse_involutive. by apply trim_start_keep.
  - intros c. rewrite head_reverse. apply Hl.
Qed.

Lemma includes_elem (c : N) (s : jsstring) : c ∈ s → includes s [c] = true.
Proof.
  induction s as [|d s IH]; intros Hin; [by inversion Hin|].
  cbn [includes starts_with]. destruct (decide (c = d)) as [->|Hne].
  - by rewrite bool_decide_eq_true_2.
  - rewrite bool_decide_eq_false_2 by done. cbn [andb orb].
    apply IH. by inversion Hin; subst.
Qed.

End Js.
Import Js.

(** ** The remote store *)

Module Supabase.

(** The error object of a failed call ([error.code], [error.message]). *)
Record PostgrestError := { code : jsstring; message : jsstring }.

(** The [{ data, error }] pair a call resolves to. *)
Record Response (A : Type) := { data : option A; error : option PostgrestError }.
Arguments data {A} _.
Arguments error {A} _.

(** The code PostgREST answers when [.single()] did not find exactly one row. *)
Definition PGRST116 : jsstring := js "PGRST116".

Definition no_rows : PostgrestError :=
  {| code := PGRST116;
     message := js "JSON object requested, multiple (or no) rows returned" |}.

(** [.select('*').eq(column, value).single()] on a table: the single row that
    matches, or the [PGRST116] error; [fault] is a failure of the call itself,
    answered instead of the result. *)
Definition select_single {A} (matches : A → bool) (rows : list A)
    (fault : option PostgrestError) : Response A :=
  match fault with
  | Some e => {| data := None; error := Some e |}
  | None =>
      match List.filter matches rows with
      | [r] => {| data := Some r; error := None |}
      | _ => {| data := None; error := Some no_rows |}
      end
  end.

(** What the functions of the service layer throw. *)
Inductive AppError :=
| InvalidCredentials      (* "Kullanıcı adı veya şifre hatalı." *)
| DeviceNotAuthorized     (* "Bu hesaba giriş yapmaya yetkili cihaz bu değil. ..." *)
| NotFound                (* "Bu tesisat numarasına ait kayıt bulunamadı." / "Kayıt bulunamadı." *)
| Normalized (context : string) (e : PostgrestError).
                          (* the [Error] that [handleSupabaseError(e, context)] throws *)

(** The outcome of an [async] function: the value it resolves to or the error
    it rejects with. *)
Inductive Result (A : Type) :=
| Return (a : A)
| Throw (e : AppError).
Arguments Return {A} a.
Arguments Throw {A} e.

(** [handleSupabaseError] has type [never]: every path ends in a [throw]. *)
Definition handleSupabaseError {A} (e : PostgrestError) (context : string) : Result A :=
  Throw (Normalized context e).

End Supabase.
Import Supabase.

(** ** Device-bound authentication ([authenticateUser], [updateCredential])

    Source: [src/services/supabaseClient.ts], lines 189-236 and 475-487. *)

Module Auth.

(** A row of the [users] table. *)
Record SupabaseUser := {
  id : Z;
  username : jsstring;
  password : jsstring;
  allowed_device_id : option jsstring
}.

(** The application's view of a row ([types.ts]). *)
Record Credential := {
  cred_username : jsstring;
  cred_password : jsstring;
  allowedDeviceId : option jsstring
}.

Definition ANY_DEVICE : jsstring := js "ANY_DEVICE".

Definition has_username (u : jsstring) (r : SupabaseUser) : bool :=
  str_eqb (username r) u.

(** [.update({ allowed_device_id: deviceId }).eq('username', username)]. *)
Definition update_device (users : list SupabaseUser)
    (u deviceId : jsstring) : list SupabaseUser :=
  map (λ r, if has_username u r
            then {| id := id r; username := username r; password := password r;
                    allowed_device_id := Some deviceId |}
            else r) users.

(** [authenticateUser(username, password, deviceId)] run on its own against
    the table [users]: nothing else writes to the table between the select
    and the update of the call. [qfault] is the failure of the select and
    [ufault] the failure of the update, when there is one. The result is
    paired with the table the call leaves behind. *)
Definition authenticateUser (users : list SupabaseUser)
    (qfault ufault : option PostgrestError)
    (u p deviceId : jsstring) : Result bool * list SupabaseUser :=
  let r := select_single (has_username u) users qfault in
  match error r with
  | Some e =>
      if str_eqb (code e) PGRST116
      then (Throw InvalidCredentials, users)
      else (handleSupabaseError e "authenticateUser", users)
  | None =>
      match data r with
      | None => (Throw InvalidCredentials, users)
      | Some d =>
          if negb (str_eqb (password d) p)
          then (Throw InvalidCredentials, users)
          else if bool_decide (allowed_device_id d = Some ANY_DEVICE)
          then (Return true, users)
          else if truthy (allowed_device_id d)
                  && negb (bool_decide (allowed_device_id d = Some deviceId))
          then (Throw DeviceNotAuthorized, users)
          else if negb (truthy (allowed_device_id d)) && truthy (Some deviceId)
          then
            match ufault with
            | None => (Return false, update_device users u deviceId)
            | Some _ => (Return false, users)   (* console.warn only *)
            end
          else (Return false, users)
      end
  end.

(** The same call with its two remote calls apart. The select is awaited and
    answered from the table as it stands then, [users]; the update, when the
    call comes to it, is sent without a condition on what the row holds by
    then, and meets the table as other writers have left it in between,
    [later]. *)
Definition authenticateUser_between (users later : list SupabaseUser)
    (qfault ufault : option PostgrestError)
    (u p deviceId : jsstring) : Result bool * list SupabaseUser :=
  let r := select_single (has_username u) users qfault in
  match error r with
  | Some e =>
      if str_eqb (code e) PGRST116
      then (Throw InvalidCredentials, later)
      else (handleSupabaseError e "authenticateUser", later)
  | None =>
      match data r with
      | None => (Throw InvalidCredentials, later)
      | Some d =>
          if negb (str_eqb (password d) p)
          then (Throw InvalidCredentials, later)
          else if bool_decide (allowed_device_id d = Some ANY_DEVICE)
          then (Return true, later)
          else if truthy (allowed_device_id d)
                  && negb (bool_decide (allowed_device_id d = Some deviceId))
          then (Throw DeviceNotAuthorized, later)
          else if negb (truthy (allowed_device_id d)) && truthy (Some deviceId)
          then
            match ufault with
            | None => (Return false, update_device later u deviceId)
            | Some _ => (Return false, later)   (* console.warn only *)
            end
          else (Return false, later)
      end
  end.

(** [allowedDeviceId || null], as the admin operations store it. *)
Definition or_null (s : option jsstring) : option jsstring :=
  if truthy s then s else None.

(** [updateCredential(originalUsername, updatedCredential)]: the admin edit.
    The rows named [originalUsername] take the three fields of the form. *)
Definition updateCredential (users : list SupabaseUser)
    (fault : option PostgrestError)
    (originalUsername : jsstring) (c : Credential)
    : Result unit * list SupabaseUser :=
  match fault with
  | Some e => (handleSupabaseError e "updateCredential", users)
  | None =>
      (Return tt,
       map (λ r, if has_username originalUsername r
                 then {| id := id r; username := cred_username c;
                         password := cred_password c;
                         allowed_device_id := or_null (allowedDeviceId c) |}
                 else r) users)
  end.

(** A device value that locks the account: set, not empty, not the sentinel. *)
Definition concrete (a : option jsstring) : Prop :=
  ∃ v, a = Some v ∧ v ≠ [] ∧ v ≠ ANY_DEVICE.

(** The credential of [u] in the table: the one row carrying that username. *)
Definition credential_of (users : list SupabaseUser) (u : jsstring)
    (r : SupabaseUser) : Prop :=
  List.filter (has_username u) users = [r].

(** A small table used to run the definitions: an unrestricted account, an
    account locked to a device, and an account that was never used. *)
Definition staff : list SupabaseUser :=
  [ {| id := 1; username := js "1001"; password := js "pw1";
       allowed_device_id := Some ANY_DEVICE |};
    {| id := 2; username := js "1002"; password := js "pw2";
       allowed_device_id := Some (js "dev-A") |};
    {| id := 3; username := js "1003"; password := js "pw3";
       allowed_device_id := None |} ].

(** *** Helper facts *)

Lemma filter_no_match (users : list SupabaseUser) (u : jsstring) :
  (∀ r, r ∈ users → username r ≠ u) → List.filter (has_username u) users = [].
Proof.
  induction users as [|r users IH]; intros Hno; [done|].
  cbn [List.filter]. unfold has_username at 1.
  assert (Hr : str_eqb (username r) u = false).
  { apply str_eqb_false, Hno. left. }
  rewrite Hr. apply IH. intros r' Hin. apply Hno. by right.
Qed.

Lemma credential_of_username users u r :
  credential_of users u r → username r = u.
Proof.
  unfold credential_of. intros Hf.
  assert (Hin : In r (List.filter (has_username u) users)) by (rewrite Hf; by left).
  apply filter_In in Hin as [_ Hm]. by apply str_eqb_true in Hm.
Qed.

(** The update keeps every username, so it commutes with the selection. *)
Lemma filter_update_device users u v d :
  List.filter (has_username v) (update_device users u d)
  = update_device (List.filter (has_username v) users) u d.
Proof.
  induction users as [|r users IH]; [done|].
  cbn [update_device map List.filter]. fold (update_device users u d).
  assert (Hsame : has_username v
            (if has_username u r
             then {| id := id r; username := username r; password := password r;
                     allowed_device_id := Some d |}
             else r) = has_username v r).
  { destruct (has_username u r); reflexivity. }
  rewrite Hsame. destruct (has_username v r); cbn [update_device map]; by rewrite IH.
Qed.

(** What [authenticateUser] does once the select has answered with the
    credential [r]. *)
Lemma authenticateUser_found users ufault u p d r :
  credential_of users u r →
  authenticateUser users None ufault u p d =
    if negb (str_eqb (password r) p)
    then (Throw InvalidCredentials, users)
    else if bool_decide (allowed_device_id r = Some ANY_DEVICE)
    then (Return true, users)
    else if truthy (allowed_device_id r)
            && negb (bool_decide (allowed_device_id r = Some d))
    then (Throw DeviceNotAuthorized, users)
    else if negb (truthy (allowed_device_id r)) && truthy (Some d)
    then match ufault with
         | None => (Return false, update_device users u d)
         | Some _ => (Return false, users)
         end
    else (Return false, users).
Proof.
  unfold credential_of, authenticateUser, select_single. intros ->. reflexivity.
Qed.

Lemma concrete_truthy a : concrete a → truthy a = true.
Proof. intros (v & -> & Hne & _). by destruct v. Qed.

Lemma concrete_not_sentinel a : concrete a → a ≠ Some ANY_DEVICE.
Proof. intros (v & -> & _ & Hs) [=]. done. Qed.

(** *** The contract of [authenticateUser] *)

(** C1. Against every users table (the select being answered): no credential
    with the username, or a stored password different from the one given,
    gives InvalidCredentials; a credential carrying the sentinel ANY_DEVICE
    logs in unrestricted from every device; a credential locked to a concrete
    device rejects every other device with DeviceNotAuthorized and accepts
    its own device as a restricted login. *)
Theorem authenticate_contract (users : list SupabaseUser)
    (ufault : option PostgrestError) (u p d : jsstring) :
  let out := (authenticateUser users None ufault u p d).1 in
  ((∀ r, r ∈ users → username r ≠ u) → out = Throw InvalidCredentials) ∧
  (∀ r, credential_of users u r →
     (password r ≠ p → out = Throw InvalidCredentials) ∧
     (password r = p → allowed_device_id r = Some ANY_DEVICE →
        out = Return true) ∧
     (password r = p → concrete (allowed_device_id r) →
        allowed_device_id r ≠ Some d → out = Throw DeviceNotAuthorized) ∧
     (password r = p → allowed_device_id r = Some d → d ≠ ANY_DEVICE →
        out = Return false)).
Proof.
  cbv zeta. split.
  - intros Hno. unfold authenticateUser, select_single.
    by rewrite (filter_no_match _ _ Hno).
  - intros r Hr. rewrite (authenticateUser_found _ ufault _ p d _ Hr).
    repeat split.
    + intros Hp. apply str_eqb_false in Hp. by rewrite Hp.
    + intros Hp Ha. apply str_eqb_true in Hp. rewrite Hp. cbn [negb].
      by rewrite bool_decide_eq_true_2.
    + intros Hp Hc Hd. apply str_eqb_true in Hp. rewrite Hp. cbn [negb].
      rewrite bool_decide_eq_false_2 by by apply concrete_not_sentinel.
      rewrite (concrete_truthy _ Hc), bool_decide_eq_false_2 by done. done.
    + intros Hp Ha Hs. apply str_eqb_true in Hp. rewrite Hp. cbn [negb].
      rewrite bool_decide_eq_false_2 by (rewrite Ha; congruence).
      rewrite (bool_decide_eq_true_2 _ Ha). cbn [negb].
      rewrite andb_false_r. rewrite Ha. destruct d; reflexivity.
Qed.

(** The contract at work on [staff]: the account locked to dev-A refuses
    dev-B. *)
Lemma authenticate_contract_witness :
  (authenticateUser staff None None (js "1002") (js "pw2") (js "dev-B")).1
  = Throw DeviceNotAuthorized.
Proof.
  destruct (authenticate_contract staff None (js "1002") (js "pw2") (js "dev-B"))
    as [_ Hfound].
  destruct (Hfound {| id := 2; username := js "1002"; password := js "pw2";
                      allowed_device_id := Some (js "dev-A") |} eq_refl)
    as (_ & _ & Hlocked & _).
  apply Hlocked.
  - reflexivity.
  - exists (js "dev-A"). repeat split; discriminate.
  - discriminate.
Defined.

Example login_unknown_user :
  authenticateUser staff None None (js "9999") (js "pw") (js "dev-A")
  = (Throw InvalidCredentials, staff).
Proof. reflexivity. Qed.

Example login_wrong_password :
  authenticateUser staff None None (js "1002") (js "pw1") (js "dev-A")
  = (Throw InvalidCredentials, staff).
Proof. reflexivity. Qed.

Example login_any_device :
  authenticateUser staff None None (js "1001") (js "pw1") (js "whatever")
  = (Return true, staff).
Proof. reflexivity. Qed.

Example login_own_device :
  authenticateUser staff None None (js "1002") (js "pw2") (js "dev-A")
  = (Return false, staff).
Proof. reflexivity. Qed.

Example login_store_unreachable :
  authenticateUser staff (Some {| code := js ""; message := js "Failed to fetch" |})
    None (js "1002") (js "pw2") (js "dev-A")
  = (Throw (Normalized "authenticateUser"
              {| code := js ""; message := js "Failed to fetch" |}), staff).
Proof. reflexivity. Qed.

(** *** Device binding *)

(** The table a login leaves behind: untouched, or the first-use update, which
    happens only for a credential that has no device yet. *)
Lemma authenticateUser_table users qfault ufault u p d :
  (authenticateUser users qfault ufault u p d).2 = users ∨
  (∃ r, credential_of users u r ∧ truthy (allowed_device_id r) = false ∧
        (authenticateUser users qfault ufault u p d).2 = update_device users u d).
Proof.
  unfold authenticateUser, select_single.
  destruct qfault as [e|]; cbn [error data].
  { left. by destruct (str_eqb (code e) PGRST116). }
  destruct (List.filter (has_username u) users) as [|r [|r' rest]] eqn:Hf;
    cbn [error data]; try (left; reflexivity).
  destruct (negb (str_eqb (password r) p)); [by left|].
  destruct (bool_decide (allowed_device_id r = Some ANY_DEVICE)); [by left|].
  destruct (truthy (allowed_device_id r)) eqn:Ht; cbn [andb negb].
  - left. by destruct (negb (bool_decide (allowed_device_id r = Some d))).
  - destruct (truthy (Some d)); [|by left].
    destruct ufault; [by left|]. right. exists r. by rewrite Ht.
Qed.

Lemma update_device_lookup_other users u d i r :
  users !! i = Some r → has_username u r = false →
  update_device users u d !! i = Some r.
Proof.
  intros Hi Hu. unfold update_device. rewrite list_lookup_fmap, Hi. cbn.
  by rewrite Hu.
Qed.

(** A call on its own is the call between two equal tables. *)
Lemma authenticateUser_alone users qfault ufault u p d :
  authenticateUser users qfault ufault u p d
  = authenticateUser_between users users qfault ufault u p d.
Proof. reflexivity. Qed.

(** The table a login leaves behind when other writers come in between: as
    it met it, or with the first-use update, which is sent only when the
    select has read a credential with no device. *)
Lemma authenticateUser_between_table users later qfault ufault u p d :
  (authenticateUser_between users later qfault ufault u p d).2 = later ∨
  (∃ r, credential_of users u r ∧ truthy (allowed_device_id r) = false ∧
        (authenticateUser_between users later qfault ufault u p d).2
        = update_device later u d).
Proof.
  unfold authenticateUser_between, select_single.
  destruct qfault as [e|]; cbn [error data].
  { left. by destruct (str_eqb (code e) PGRST116). }
  destruct (List.filter (has_username u) users) as [|r [|r' rest]] eqn:Hf;
    cbn [error data]; try (left; reflexivity).
  destruct (negb (str_eqb (password r) p)); [by left|].
  destruct (bool_decide (allowed_device_id r = Some ANY_DEVICE)); [by left|].
  destruct (truthy (allowed_device_id r)) eqn:Ht; cbn [andb negb].
  - left. by destruct (negb (bool_decide (allowed_device_id r = Some d))).
  - destruct (truthy (Some d)); [|by left].
    destruct ufault; [by left|]. right. exists r. by rewrite Ht.
Qed.

Lemma update_device_lookup_same users u d i r :
  users !! i = Some r → username r = u →
  update_device users u d !! i
  = Some {| id := id r; username := username r; password := password r;
            allowed_device_id := Some d |}.
Proof.
  intros Hi Hu. unfold update_device. rewrite list_lookup_fmap, Hi. cbn.
  unfold has_username. by rewrite (proj2 (str_eqb_true _ _) Hu).
Qed.

(** A table with a single, never used account, and the table once a login
    from dev-A has bound the account. *)
Definition fresh_account : list SupabaseUser :=
  [ {| id := 3; username := js "1003"; password := js "pw3";
       allowed_device_id := None |} ].

Definition bound_to_A : list SupabaseUser :=
  (authenticateUser fresh_account None None (js "1003") (js "pw3") (js "dev-A")).2.

(** C5, as stated, fails. Two devices log in to a never used account at the
    same time: both selects read the credential without a device. The update
    of the login from dev-A arrives first and stores the concrete value
    dev-A. The update of the login from dev-B then arrives and replaces it by
    dev-B: a call of [authenticateUser] has changed a concrete device, and
    both logins have succeeded. *)
Lemma concrete_binding_kept_counterexample :
  bound_to_A !! 0%nat
    = Some {| id := 3; username := js "1003"; password := js "pw3";
              allowed_device_id := Some (js "dev-A") |} ∧
  concrete (Some (js "dev-A")) ∧
  authenticateUser_between fresh_account bound_to_A None None
    (js "1003") (js "pw3") (js "dev-B")
  = (Return false,
     [ {| id := 3; username := js "1003"; password := js "pw3";
          allowed_device_id := Some (js "dev-B") |} ]).
Proof.
  split; [reflexivity|]. split; [|reflexivity].
  exists (js "dev-A"). repeat split; discriminate.
Qed.

(** C5, amended. Take a credential whose allowed device is a concrete value
    (set, not empty, not ANY_DEVICE) when the update of a call of
    [authenticateUser] would arrive. The call leaves it exactly as it is,
    whatever the password, the device and the outcome of the remote calls,
    when it is made under another username, or when its select has not read
    the credential of that username without a device; so does, in
    particular, every call that runs on its own, with no other write between
    its select and its update. A call whose select has read the credential
    without a device, with the right password and a device id that is not
    empty, replaces the concrete value by its own device id (the last writer
    wins). The admin edit [updateCredential] rewrites it as well. *)
Theorem concrete_binding_kept (users later : list SupabaseUser)
    (i : nat) (r : SupabaseUser) :
  later !! i = Some r → concrete (allowed_device_id r) →
  (∀ qfault ufault u p d,
     username r ≠ u ∨
     (∀ r0, credential_of users u r0 → truthy (allowed_device_id r0) = true) →
     (authenticateUser_between users later qfault ufault u p d).2 !! i = Some r) ∧
  (∀ qfault ufault u p d,
     (authenticateUser later qfault ufault u p d).2 !! i = Some r) ∧
  (∀ r0 d,
     credential_of users (username r) r0 →
     truthy (allowed_device_id r0) = false → d ≠ [] →
     (authenticateUser_between users later None None (username r) (password r0) d).2 !! i
     = Some {| id := id r; username := username r; password := password r;
               allowed_device_id := Some d |}) ∧
  (∀ c, (updateCredential later None (username r) c).2 !! i
        = Some {| id := id r; username := cred_username c;
                  password := cred_password c;
                  allowed_device_id := or_null (allowedDeviceId c) |}).
Proof.
  intros Hi Hc. split; [|split; [|split]].
  - intros qfault ufault u p d Hsaw.
    destruct (authenticateUser_between_table users later qfault ufault u p d)
      as [-> | (r0 & Hr0 & Ht & ->)]; [done|].
    apply update_device_lookup_other; [done|].
    destruct Hsaw as [Hu|Hsaw].
    + by apply str_eqb_false.
    + rewrite (Hsaw r0 Hr0) in Ht. discriminate.
  - intros qfault ufault u p d.
    destruct (authenticateUser_table later qfault ufault u p d)
      as [-> | (r0 & Hr0 & Ht & ->)]; [done|].
    apply update_device_lookup_other; [done|].
    destruct (has_username u r) eqn:Hu; [|done].
    assert (Hin : In r (List.filter (has_username u) later)).
    { apply filter_In. split; [|done].
      apply list_elem_of_In, list_elem_of_lookup. eauto. }
    rewrite Hr0 in Hin. destruct Hin as [->|[]].
    rewrite (concrete_truthy _ Hc) in Ht. discriminate.
  - intros r0 d Hr0 Ht Hd.
    unfold authenticateUser_between, select_single. cbn [error data].
    unfold credential_of in Hr0. rewrite Hr0. cbn [error data].
    rewrite str_eqb_refl, Ht. cbn [negb andb].
    rewrite bool_decide_eq_false_2
      by (intros Ha; rewrite Ha in Ht; discriminate).
    assert (Htd : truthy (Some d) = true) by by destruct d.
    rewrite Htd. cbn [snd]. by apply update_device_lookup_same.
  - intros c. cbn [updateCredential snd]. rewrite list_lookup_fmap, Hi. cbn.
    unfold has_username. by rewrite str_eqb_refl.
Qed.

(** On [staff]: the account locked to dev-A keeps its device through every
    login that runs on its own, and an admin edit rebinds it. On the account
    bound to dev-A while a login from dev-B was under way, that login
    replaces dev-A by dev-B. *)
Lemma concrete_binding_kept_witness :
  ((∀ qfault ufault u p d,
      (authenticateUser staff qfault ufault u p d).2 !! 1%nat
      = Some {| id := 2; username := js "1002"; password := js "pw2";
                allowed_device_id := Some (js "dev-A") |}) ∧
   (∀ c, (updateCredential staff None (js "1002") c).2 !! 1%nat
         = Some {| id := 2; username := cred_username c;
                   password := cred_password c;
                   allowed_device_id := or_null (allowedDeviceId c) |})) ∧
  (authenticateUser_between fresh_account bound_to_A None None
     (js "1003") (js "pw3") (js "dev-B")).2 !! 0%nat
  = Some {| id := 3; username := js "1003"; password := js "pw3";
            allowed_device_id := Some (js "dev-B") |}.
Proof.
  split.
  - destruct (concrete_binding_kept staff staff 1
                {| id := 2; username := js "1002"; password := js "pw2";
                   allowed_device_id := Some (js "dev-A") |})
      as (_ & Hkept & _ & Hedit).
    + reflexivity.
    + exists (js "dev-A"). repeat split; discriminate.
    + split; [exact Hkept | exact Hedit].
  - destruct (concrete_binding_kept fresh_account bound_to_A 0
                {| id := 3; username := js "1003"; password := js "pw3";
                   allowed_device_id := Some (js "dev-A") |})
      as (_ & _ & Hrace & _).
    + reflexivity.
    + exists (js "dev-A"). repeat split; discriminate.
    + apply (Hrace {| id := 3; username := js "1003"; password := js "pw3";
                      allowed_device_id := None |} (js "dev-B"));
        [reflexivity | reflexivity | discriminate].
Defined.

(** C4, as stated, fails. A login with the empty device id succeeds and binds
    nothing (the guard [&& deviceId]), so that a login from another device
    succeeds afterwards; and a login whose device id is the text ANY_DEVICE
    binds the sentinel, after which every other device is let in,
    unrestricted. *)
Lemma first_use_binding_counterexample :
  authenticateUser fresh_account None None (js "1003") (js "pw3") []
    = (Return false, fresh_account) ∧
  (authenticateUser fresh_account None None (js "1003") (js "pw3") (js "dev-B")).1
    = Return false ∧
  (authenticateUser
     (authenticateUser fresh_account None None (js "1003") (js "pw3") ANY_DEVICE).2
     None None (js "1003") (js "pw3") (js "dev-B")).1
    = Return true.
Proof. repeat split. Qed.

Lemma credential_of_update_device users u d r :
  credential_of users u r →
  credential_of (update_device users u d) u
    {| id := id r; username := username r; password := password r;
       allowed_device_id := Some d |}.
Proof.
  unfold credential_of. intros Hr. rewrite filter_update_device, Hr.
  cbn [update_device map].
  assert (Hu : has_username u r = true).
  { unfold has_username. apply str_eqb_true. by apply credential_of_username in Hr. }
  by rewrite Hu.
Qed.

(** C4, amended. For a credential with no device yet (null or empty) and a
    device id that is neither empty nor the text ANY_DEVICE: a login with the
    right password succeeds as a restricted login and, the update being
    accepted by the store, leaves the credential bound to that device id;
    logging in again from the same device succeeds and leaves the table
    exactly as it is (no second write); a login from any other device is
    rejected with DeviceNotAuthorized. *)
Theorem first_use_binding (users : list SupabaseUser) (u p d : jsstring)
    (r : SupabaseUser) :
  credential_of users u r → password r = p →
  truthy (allowed_device_id r) = false →
  d ≠ [] → d ≠ ANY_DEVICE →
  let bound := update_device users u d in
  authenticateUser users None None u p d = (Return false, bound) ∧
  credential_of bound u
    {| id := id r; username := username r; password := password r;
       allowed_device_id := Some d |} ∧
  (∀ ufault, authenticateUser bound None ufault u p d = (Return false, bound)) ∧
  (∀ ufault d', d' ≠ d →
     authenticateUser bound None ufault u p d' = (Throw DeviceNotAuthorized, bound)).
Proof.
  intros Hr Hp Ht Hd Hs bound.
  pose proof (credential_of_update_device users u d r Hr) as Hb.
  fold bound in Hb.
  assert (Hpw : str_eqb (password r) p = true) by by apply str_eqb_true.
  assert (Hns : bool_decide (Some d = Some ANY_DEVICE) = false).
  { apply bool_decide_eq_false_2. congruence. }
  assert (Htd : truthy (Some d) = true) by by destruct d.
  repeat split.
  - rewrite (authenticateUser_found _ None _ p d _ Hr), Hpw, Ht. cbn [negb andb].
    rewrite Htd.
    rewrite bool_decide_eq_false_2; [done|].
    intros Ha. rewrite Ha in Ht. discriminate.
  - exact Hb.
  - intros ufault.
    rewrite (authenticateUser_found _ ufault _ p d _ Hb).
    cbn [password allowed_device_id]. rewrite Hpw, Hns, Htd. cbn [negb andb].
    by rewrite bool_decide_eq_true_2.
  - intros ufault d' Hd'.
    rewrite (authenticateUser_found _ ufault _ p d' _ Hb).
    cbn [password allowed_device_id]. rewrite Hpw, Hns, Htd. cbn [negb andb].
    rewrite bool_decide_eq_false_2 by congruence. done.
Qed.

(** The never used account of [fresh_account], first seen from dev-A. *)
Lemma first_use_binding_witness :
  let bound := update_device fresh_account (js "1003") (js "dev-A") in
  authenticateUser fresh_account None None (js "1003") (js "pw3") (js "dev-A")
    = (Return false, bound) ∧
  credential_of bound (js "1003")
    {| id := 3; username := js "1003"; password := js "pw3";
       allowed_device_id := Some (js "dev-A") |} ∧
  (∀ ufault, authenticateUser bound None ufault (js "1003") (js "pw3") (js "dev-A")
             = (Return false, bound)) ∧
  (∀ ufault d', d' ≠ js "dev-A" →
     authenticateUser bound None ufault (js "1003") (js "pw3") d'
     = (Throw DeviceNotAuthorized, bound)).
Proof.
  apply (first_use_binding fresh_account (js "1003") (js "pw3") (js "dev-A")
           {| id := 3; username := js "1003"; password := js "pw3";
              allowed_device_id := None |});
    first [reflexivity | discriminate].
Defined.

End Auth.

(** ** The service window ([isWithinWorkingHours])

    Source: [src/components/LoginScreen.tsx], lines 328-461 (the text of
    [utils/time.ts]). *)

Module Time.

(** *** The Date accessors of the runtime

    [now] is the local time value of [new Date()]: milliseconds since the
    epoch, shifted to the local zone. The accessors [getDate], [getDay],
    [getHours], ... are the functions of ECMAScript on that value. *)

Definition msPerDay : Z := 86400000.
Definition msPerHour : Z := 3600000.
Definition msPerMinute : Z := 60000.

Definition Day (t : Z) : Z := t / msPerDay.

(** [getDay()]: 0 is Sunday, 6 is Saturday; day 0 of the epoch was a Thursday. *)
Definition getDay (t : Z) : Z := (Day t + 4) mod 7.

Definition getHours (t : Z) : Z := (t / msPerHour) mod 24.

Definition getMinutes (t : Z) : Z := (t / msPerMinute) mod 60.

(** The civil date (year, month 1..12, day 1..31) of a day number, in the
    proleptic Gregorian calendar. *)
Definition civil_from_days (days : Z) : Z * Z * Z :=
  let z := days + 719468 in
  let era := z / 146097 in
  let doe := z - era * 146097 in
  let yoe := (doe - doe / 1460 + doe / 36524 - doe / 146096) / 365 in
  let doy := doe - (365 * yoe + yoe / 4 - yoe / 100) in
  let mp := (5 * doy + 2) / 153 in
  let d := doy - (153 * mp + 2) / 5 + 1 in
  let m := if mp <? 10 then mp + 3 else mp - 9 in
  let y := yoe + era * 400 + (if m <=? 2 then 1 else 0) in
  (y, m, d).

(** The day number of a civil date: the inverse, used to write down dates. *)
Definition days_from_civil (y m d : Z) : Z :=
  let y' := if m <=? 2 then y - 1 else y in
  let era := y' / 400 in
  let yoe := y' - era * 400 in
  let doy := (153 * (if m >? 2 then m - 3 else m + 9) + 2) / 5 + d - 1 in
  let doe := yoe * 365 + yoe / 4 - yoe / 100 + doy in
  era * 146097 + doe - 719468.

(** [new Date(y, m - 1, d, hh, mm)] as a local time value. *)
Definition local_time (y m d hh mm : Z) : Z :=
  days_from_civil y m d * msPerDay + hh * msPerHour + mm * msPerMinute.

Definition getFullYear (t : Z) : Z := (civil_from_days (Day t)).1.1.

(** [getMonth()] counts from 0. *)
Definition getMonth (t : Z) : Z := (civil_from_days (Day t)).1.2 - 1.

Definition getDate (t : Z) : Z := (civil_from_days (Day t)).2.

(** [String(n)] for an integer. *)
Definition Number_toString (n : Z) : jsstring :=
  js (DecimalString.NilZero.string_of_int (Z.to_int n)).

(** [s.padStart(n, c)] for a one-character filler. *)
Definition padStart (n : nat) (c : N) (s : jsstring) : jsstring :=
  replicate (n - length s) c ++ s.

Definition zero_digit : N := 48.
Definition hyphen : N := 45.

(** *** The calendar and the predicate *)

(** The dates of [publicHolidays]: the official holidays of 2024 to 2030, as
    YYYY-MM-DD. *)
Definition holiday_texts : list jsstring := [
    js "2024-01-01"; js "2024-04-09"; js "2024-04-10"; js "2024-04-11";
    js "2024-04-12"; js "2024-04-23"; js "2024-05-01"; js "2024-05-19";
    js "2024-06-15"; js "2024-06-16"; js "2024-06-17"; js "2024-06-18";
    js "2024-06-19"; js "2024-07-15"; js "2024-08-30"; js "2024-10-29";
    js "2025-01-01"; js "2025-03-29"; js "2025-03-30"; js "2025-03-31";
    js "2025-04-01"; js "2025-04-23"; js "2025-05-01"; js "2025-05-19";
    js "2025-06-05"; js "2025-06-06"; js "2025-06-07"; js "2025-06-08";
    js "2025-06-09"; js "2025-07-15"; js "2025-08-30"; js "2025-10-29";
    js "2026-01-01"; js "2026-03-19"; js "2026-03-20"; js "2026-03-21";
    js "2026-03-22"; js "2026-04-23"; js "2026-05-01"; js "2026-05-19";
    js "2026-05-26"; js "2026-05-27"; js "2026-05-28"; js "2026-05-29";
    js "2026-05-30"; js "2026-07-15"; js "2026-08-30"; js "2026-10-29";
    js "2027-01-01"; js "2027-03-08"; js "2027-03-09"; js "2027-03-10";
    js "2027-03-11"; js "2027-04-23"; js "2027-05-01"; js "2027-05-15";
    js "2027-05-16"; js "2027-05-17"; js "2027-05-18"; js "2027-05-19";
    js "2027-07-15"; js "2027-08-30"; js "2027-10-29"; js "2028-01-01";
    js "2028-02-26"; js "2028-02-27"; js "2028-02-28"; js "2028-04-23";
    js "2028-05-01"; js "2028-05-05"; js "2028-05-06"; js "2028-05-07";
    js "2028-05-08"; js "2028-05-09"; js "2028-05-19"; js "2028-07-15";
    js "2028-08-30"; js "2028-10-29"; js "2029-01-01"; js "2029-02-14";
    js "2029-02-15"; js "2029-02-16"; js "2029-02-17"; js "2029-04-23";
    js "2029-04-24"; js "2029-04-25"; js "2029-04-26"; js "2029-04-27";
    js "2029-04-28"; js "2029-05-01"; js "2029-05-19"; js "2029-07-15";
    js "2029-08-30"; js "2029-10-29"; js "2030-01-01"; js "2030-02-03";
    js "2030-02-04"; js "2030-02-05"; js "2030-02-06"; js "2030-04-13";
    js "2030-04-14"; js "2030-04-15"; js "2030-04-16"; js "2030-04-17";
    js "2030-04-23"; js "2030-05-01"; js "2030-05-19"; js "2030-07-15";
    js "2030-08-30"; js "2030-10-29" ].

(** [publicHolidays = new Set([...])]. *)
Definition publicHolidays : gset jsstring := list_to_set holiday_texts.

(** The date of [now] in the format of the calendar. *)
Definition formattedDate (now : Z) : jsstring :=
  let year := getFullYear now in
  let month := padStart 2 zero_digit (Number_toString (getMonth now + 1)) in
  let day := padStart 2 zero_digit (Number_toString (getDate now)) in
  Number_toString year ++ [hyphen] ++ month ++ [hyphen] ++ day.

(** [isWithinWorkingHours()], with the clock reading [now] as its argument. *)
Definition isWithinWorkingHours (now : Z) : bool :=
  if getDate now >? 20 then false
  else
    let dayOfWeek := getDay now in
    if (dayOfWeek =? 0) || (dayOfWeek =? 6) then false
    else
      let hour := getHours now in
      if (hour <? 8) || (hour >=? 18) then false
      else if bool_decide (formattedDate now ∈ publicHolidays) then false
      else true.

(** *** The calendar in the words of the specification

    The holidays as dates: year, month (1 to 12) and day of the month. *)
Definition holiday_dates : list (Z * Z * Z) := [
    (2024, 1, 1); (2024, 4, 9); (2024, 4, 10); (2024, 4, 11); (2024, 4, 12);
    (2024, 4, 23); (2024, 5, 1); (2024, 5, 19); (2024, 6, 15); (2024, 6, 16);
    (2024, 6, 17); (2024, 6, 18); (2024, 6, 19); (2024, 7, 15); (2024, 8, 30);
    (2024, 10, 29); (2025, 1, 1); (2025, 3, 29); (2025, 3, 30); (2025, 3, 31);
    (2025, 4, 1); (2025, 4, 23); (2025, 5, 1); (2025, 5, 19); (2025, 6, 5);
    (2025, 6, 6); (2025, 6, 7); (2025, 6, 8); (2025, 6, 9); (2025, 7, 15);
    (2025, 8, 30); (2025, 10, 29); (2026, 1, 1); (2026, 3, 19); (2026, 3, 20);
    (2026, 3, 21); (2026, 3, 22); (2026, 4, 23); (2026, 5, 1); (2026, 5, 19);
    (2026, 5, 26); (2026, 5, 27); (2026, 5, 28); (2026, 5, 29); (2026, 5, 30);
    (2026, 7, 15); (2026, 8, 30); (2026, 10, 29); (2027, 1, 1); (2027, 3, 8);
    (2027, 3, 9); (2027, 3, 10); (2027, 3, 11); (2027, 4, 23); (2027, 5, 1);
    (2027, 5, 15); (2027, 5, 16); (2027, 5, 17); (2027, 5, 18); (2027, 5, 19);
    (2027, 7, 15); (2027, 8, 30); (2027, 10, 29); (2028, 1, 1); (2028, 2, 26);
    (2028, 2, 27); (2028, 2, 28); (2028, 4, 23); (2028, 5, 1); (2028, 5, 5);
    (2028, 5, 6); (2028, 5, 7); (2028, 5, 8); (2028, 5, 9); (2028, 5, 19);
    (2028, 7, 15); (2028, 8, 30); (2028, 10, 29); (2029, 1, 1); (2029, 2, 14);
    (2029, 2, 15); (2029, 2, 16); (2029, 2, 17); (2029, 4, 23); (2029, 4, 24);
    (2029, 4, 25); (2029, 4, 26); (2029, 4, 27); (2029, 4, 28); (2029, 5, 1);
    (2029, 5, 19); (2029, 7, 15); (2029, 8, 30); (2029, 10, 29); (2030, 1, 1);
    (2030, 2, 3); (2030, 2, 4); (2030, 2, 5); (2030, 2, 6); (2030, 4, 13);
    (2030, 4, 14); (2030, 4, 15); (2030, 4, 16); (2030, 4, 17); (2030, 4, 23);
    (2030, 5, 1); (2030, 5, 19); (2030, 7, 15); (2030, 8, 30); (2030, 10, 29) ].

(** The date (year, month, day) is a public holiday. *)
Definition holiday (y m d : Z) : Prop := (y, m, d) ∈ holiday_dates.

(** A date written as YYYY-MM-DD. *)
Definition iso_date (t : Z * Z * Z) : jsstring :=
  Number_toString t.1.1 ++ [hyphen]
  ++ padStart 2 zero_digit (Number_toString t.1.2) ++ [hyphen]
  ++ padStart 2 zero_digit (Number_toString t.2).

(** A month and a day of the month. *)
Definition month_and_day (t : Z * Z * Z) : Prop :=
  1 ≤ t.1.2 ≤ 12 ∧ 1 ≤ t.2 ≤ 31.

(** *** Properties *)

Lemma getDay_range now : 0 ≤ getDay now ≤ 6.
Proof. unfold getDay. pose proof (Z.mod_pos_bound (Day now + 4) 7). lia. Qed.

Lemma getHours_range now : 0 ≤ getHours now ≤ 23.
Proof. unfold getHours. pose proof (Z.mod_pos_bound (now / msPerHour) 24). lia. Qed.

(** The predicate as the conjunction of its four rules. *)
Lemma isWithinWorkingHours_rules now :
  isWithinWorkingHours now = true ↔
    getDate now ≤ 20 ∧
    1 ≤ getDay now ≤ 5 ∧
    8 ≤ getHours now < 18 ∧
    formattedDate now ∉ publicHolidays.
Proof.
  unfold isWithinWorkingHours. pose proof (getDay_range now) as Hd.
  destruct (Z.gtb_spec (getDate now) 20);
    [split; [discriminate | lia] |].
  destruct (Z.eqb_spec (getDay now) 0); cbn [orb];
    [split; [discriminate | lia] |].
  destruct (Z.eqb_spec (getDay now) 6); cbn [orb];
    [split; [discriminate | lia] |].
  destruct (Z.ltb_spec (getHours now) 8); cbn [orb];
    [split; [discriminate | lia] |].
  destruct (Z.geb_spec (getHours now) 18); cbn [orb];
    [split; [discriminate | lia] |].
  case_bool_decide as Hh.
  - split; [discriminate | tauto].
  - split; [intros _ | done]. repeat split; try lia; done.
Qed.

(** *** The date of the calendar

    [formattedDate] writes the year, the month and the day of the month of
    [now], and a date is written as one text only: the text is in the
    calendar exactly when the date is a holiday. *)

Lemma civil_from_days_range (days : Z) :
  month_and_day (civil_from_days days).
Proof.
  unfold month_and_day, civil_from_days. cbv zeta. cbn [fst snd].
  set (doe := days + 719468 - (days + 719468) / 146097 * 146097).
  assert (Hdoe : 0 ≤ doe < 146097) by (unfold doe; Z.div_mod_to_equations; lia).
  clearbody doe.
  set (yoe := (doe - doe / 1460 + doe / 36524 - doe / 146096) / 365).
  set (doy := doe - (365 * yoe + yoe / 4 - yoe / 100)).
  assert (Hdoy : 0 ≤ doy ≤ 365) by (unfold doy, yoe; Z.div_mod_to_equations; lia).
  clearbody doy. clear Hdoe.
  set (mp := (5 * doy + 2) / 153).
  assert (Hmp : 0 ≤ mp ≤ 11) by (unfold mp; Z.div_mod_to_equations; lia).
  split.
  - destruct (Z.ltb_spec mp 10); lia.
  - unfold mp. Z.div_mod_to_equations. lia.
Qed.

Lemma date_of_now_range (now : Z) :
  month_and_day (getFullYear now, getMonth now + 1, getDate now).
Proof.
  pose proof (civil_from_days_range (Day now)) as H.
  unfold month_and_day, getMonth, getDate in *. cbn [fst snd] in *. lia.
Qed.

Lemma js_inj (a b : string) : js a = js b → a = b.
Proof.
  unfold js. intros H.
  rewrite <- (string_of_list_ascii_of_string a), <- (string_of_list_ascii_of_string b).
  f_equal. revert H.
  generalize (list_ascii_of_string a) (list_ascii_of_string b).
  induction l as [|x l IH]; intros [|y l'] H; cbn [map] in H; try discriminate; [done|].
  injection H as Hx Hl. f_equal; [|by apply IH].
  by rewrite <- (ascii_N_embedding x), <- (ascii_N_embedding y), Hx.
Qed.

Lemma to_int_normal (n : Z) :
  Z.to_int n ≠ Decimal.Pos Decimal.Nil ∧ Z.to_int n ≠ Decimal.Neg Decimal.Nil.
Proof.
  destruct n as [|p|p]; cbn; split; try discriminate;
    intros [= Hp]; by apply (DecimalPos.Unsigned.to_uint_nonnil p).
Qed.

Lemma Number_toString_inj (a b : Z) :
  Number_toString a = Number_toString b → a = b.
Proof.
  unfold Number_toString. intros H. apply js_inj in H.
  apply DecimalZ.to_int_inj.
  destruct (to_int_normal a) as [Ha Ha'], (to_int_normal b) as [Hb Hb'].
  pose proof (DecimalString.NilZero.isi (Z.to_int a) Ha Ha') as Hia.
  pose proof (DecimalString.NilZero.isi (Z.to_int b) Hb Hb') as Hib.
  rewrite H in Hia. congruence.
Qed.

(** The two code units of a number from 1 to 31, written on two places. *)
Definition two_places (n : Z) : jsstring :=
  [Z.to_N (48 + n / 10); Z.to_N (48 + n mod 10)].

Lemma padStart_two_places (n : Z) :
  1 ≤ n ≤ 31 → padStart 2 zero_digit (Number_toString n) = two_places n.
Proof.
  intros Hn.
  assert (Hall : Forall (λ k, padStart 2 zero_digit (Number_toString (Z.of_nat k))
                              = two_places (Z.of_nat k)) (seq 1 31)).
  { apply (bool_decide_unpack _). vm_compute. exact I. }
  replace n with (Z.of_nat (Z.to_nat n)) by lia.
  apply (proj1 (Forall_forall _ _) Hall). apply list_elem_of_In, in_seq. lia.
Qed.

Lemma two_places_inj (a b : Z) :
  1 ≤ a ≤ 31 → 1 ≤ b ≤ 31 → two_places a = two_places b → a = b.
Proof.
  intros Ha Hb [= Hq Hr].
  apply Z2N.inj in Hq; [|Z.div_mod_to_equations; lia|Z.div_mod_to_equations; lia].
  apply Z2N.inj in Hr; [|Z.div_mod_to_equations; lia|Z.div_mod_to_equations; lia].
  Z.div_mod_to_equations. lia.
Qed.

Lemma iso_date_inj (t t' : Z * Z * Z) :
  month_and_day t → month_and_day t' → iso_date t = iso_date t' → t = t'.
Proof.
  destruct t as [[y m] d], t' as [[y' m'] d'].
  unfold month_and_day, iso_date. cbn [fst snd]. intros [Hm Hd] [Hm' Hd'].
  rewrite !padStart_two_places by lia. intros H.
  apply app_inj_2 in H as [Hy H]; [|reflexivity].
  apply Number_toString_inj in Hy.
  unfold two_places in H. cbn [app] in H. injection H as Hm1 Hm2 Hd1 Hd2.
  assert (Hmonth : two_places m = two_places m') by (unfold two_places; congruence).
  assert (Hday : two_places d = two_places d') by (unfold two_places; congruence).
  apply two_places_inj in Hmonth; [|lia|lia].
  apply two_places_inj in Hday; [|lia|lia].
  congruence.
Qed.

Lemma formattedDate_iso (now : Z) :
  formattedDate now = iso_date (getFullYear now, getMonth now + 1, getDate now).
Proof. reflexivity. Qed.

Lemma holiday_texts_dates : holiday_texts = map iso_date holiday_dates.
Proof. vm_compute. reflexivity. Qed.

Lemma holiday_dates_range : Forall month_and_day holiday_dates.
Proof.
  assert (Hall : Forall (λ t, bool_decide (1 ≤ t.1.2 ≤ 12 ∧ 1 ≤ t.2 ≤ 31) = true)
                   holiday_dates).
  { apply (bool_decide_unpack _). vm_compute. exact I. }
  eapply Forall_impl; [exact Hall|]. intros t Ht. by apply bool_decide_eq_true in Ht.
Qed.

(** The holiday rule of the code is the one of the specification. *)
Lemma holiday_rule (now : Z) :
  formattedDate now ∈ publicHolidays
  ↔ holiday (getFullYear now) (getMonth now + 1) (getDate now).
Proof.
  unfold publicHolidays, holiday. rewrite elem_of_list_to_set, holiday_texts_dates.
  rewrite formattedDate_iso. split.
  - intros Hin. apply list_elem_of_In, in_map_iff in Hin as (t & Ht & Hin).
    apply list_elem_of_In in Hin.
    apply iso_date_inj in Ht.
    + by rewrite <- Ht.
    + by apply (proj1 (Forall_forall _ _) holiday_dates_range).
    + apply date_of_now_range.
  - intros Hin. apply list_elem_of_In, in_map, list_elem_of_In, Hin.
Qed.

(** C2. The service is open exactly when the day of the month is at most 20,
    the day of the week is Monday to Friday, the local hour is in [8, 18) and
    the date, as year, month and day of the month, is not one of the public
    holidays. In particular it is closed on every 21st at any hour, on
    Saturdays and Sundays, at 07:59 and at 18:00, and it is open at 08:00 of a
    working day up to the 20th that is not a holiday. *)
Theorem isWithinWorkingHours_spec (now : Z) :
  (isWithinWorkingHours now = true ↔
     getDate now ≤ 20 ∧ 1 ≤ getDay now ≤ 5 ∧ 8 ≤ getHours now < 18 ∧
     ¬ holiday (getFullYear now) (getMonth now + 1) (getDate now)) ∧
  (getDate now = 21 → isWithinWorkingHours now = false) ∧
  (getDay now = 6 ∨ getDay now = 0 → isWithinWorkingHours now = false) ∧
  (getHours now = 7 ∧ getMinutes now = 59 → isWithinWorkingHours now = false) ∧
  (getHours now = 18 ∧ getMinutes now = 0 → isWithinWorkingHours now = false) ∧
  (getHours now = 8 ∧ getMinutes now = 0 →
   1 ≤ getDay now ≤ 5 → getDate now ≤ 20 →
   ¬ holiday (getFullYear now) (getMonth now + 1) (getDate now) →
   isWithinWorkingHours now = true) ∧
  (holiday (getFullYear now) (getMonth now + 1) (getDate now) →
   isWithinWorkingHours now = false).
Proof.
  pose proof (isWithinWorkingHours_rules now) as Hiff.
  rewrite (holiday_rule now) in Hiff.
  split; [exact Hiff|].
  repeat split.
  - intros H. apply not_true_is_false. rewrite Hiff. lia.
  - intros H. apply not_true_is_false. rewrite Hiff. lia.
  - intros [H _]. apply not_true_is_false. rewrite Hiff. lia.
  - intros [H _]. apply not_true_is_false. rewrite Hiff. lia.
  - intros [H _] Hd Hm Hh. apply Hiff. repeat split; try lia. done.
  - intros H. apply not_true_is_false. rewrite Hiff. tauto.
Qed.

(** Tuesday 10 June 2025, 08:00: open. Monday 19 May 2025, 10:00, a public
    holiday: closed. *)
Lemma isWithinWorkingHours_spec_witness :
  isWithinWorkingHours (local_time 2025 6 10 8 0) = true ∧
  isWithinWorkingHours (local_time 2025 5 19 10 0) = false.
Proof.
  split.
  - destruct (isWithinWorkingHours_spec (local_time 2025 6 10 8 0))
      as (_ & _ & _ & _ & _ & Hopen & _).
    apply Hopen.
    + split; reflexivity.
    + split; discriminate.
    + vm_compute. discriminate.
    + unfold holiday.
      apply (bool_decide_eq_false_1
               ((getFullYear (local_time 2025 6 10 8 0),
                 getMonth (local_time 2025 6 10 8 0) + 1,
                 getDate (local_time 2025 6 10 8 0)) ∈ holiday_dates)).
      vm_compute. reflexivity.
  - destruct (isWithinWorkingHours_spec (local_time 2025 5 19 10 0))
      as (_ & _ & _ & _ & _ & _ & Hclosed).
    apply Hclosed. unfold holiday. apply (bool_decide_unpack _). vm_compute. exact I.
Defined.

Example date_of_local_time :
  (getFullYear (local_time 2025 6 10 8 0), getMonth (local_time 2025 6 10 8 0),
   getDate (local_time 2025 6 10 8 0), getDay (local_time 2025 6 10 8 0),
   getHours (local_time 2025 6 10 8 0), getMinutes (local_time 2025 6 10 8 0))
  = (2025, 5, 10, 2, 8, 0).
Proof. reflexivity. Qed.

Example formattedDate_pads :
  formattedDate (local_time 2026 1 1 12 0) = js "2026-01-01".
Proof. reflexivity. Qed.

Example closed_on_the_21st :
  isWithinWorkingHours (local_time 2025 1 21 10 0) = false.
Proof. reflexivity. Qed.

Example closed_on_saturday :
  isWithinWorkingHours (local_time 2025 6 14 10 0) = false.
Proof. reflexivity. Qed.

Example closed_on_sunday :
  isWithinWorkingHours (local_time 2025 6 15 10 0) = false.
Proof. reflexivity. Qed.

Example closed_at_0759 :
  isWithinWorkingHours (local_time 2025 6 10 7 59) = false.
Proof. reflexivity. Qed.

Example open_at_1759 :
  isWithinWorkingHours (local_time 2025 6 10 17 59) = true.
Proof. vm_compute. reflexivity. Qed.

Example closed_at_1800 :
  isWithinWorkingHours (local_time 2025 6 10 18 0) = false.
Proof. reflexivity. Qed.

(** Monday 19 May 2025, 10:00, a public holiday. *)
Example closed_on_holiday :
  isWithinWorkingHours (local_time 2025 5 19 10 0) = false.
Proof. vm_compute. reflexivity. Qed.

End Time.

(** ** Masking of customer names ([maskName])

    Source: [src/components/MainScreen.tsx], lines 126-136. *)

Module Mask.

Definition space : N := 32.

(** The body of the [map] callback: a part of at most two code units is kept,
    a longer one becomes its first two code units and three stars. *)
Definition mask_part (part : jsstring) : jsstring :=
  if (length part <=? 2)%nat then part else take 2 part ++ js "***".

(** [maskName(fullName)]; [isUnrestricted] is the prop of the screen. *)
Definition maskName (isUnrestricted : bool) (fullName : jsstring) : jsstring :=
  if isUnrestricted then fullName
  else join_with [space] (map mask_part (split_char space fullName)).

(** The parts of a name in the words of the specification ("every
    whitespace-separated part"), not of the source: the maximal runs of code
    units that are not white space. *)
Fixpoint whitespace_parts_go (cur : jsstring) (s : jsstring) : list jsstring :=
  match s with
  | [] => match cur with [] => [] | _ => [rev cur] end
  | c :: s' =>
      if is_ws c
      then match cur with
           | [] => whitespace_parts_go [] s'
           | _ => rev cur :: whitespace_parts_go [] s'
           end
      else whitespace_parts_go (c :: cur) s'
  end.

Definition whitespace_parts (s : jsstring) : list jsstring :=
  whitespace_parts_go [] s.

(** The masking rule read over the white-space separated parts: the parts of
    the output are the masked parts of the name. *)
Definition masks_whitespace_parts (name out : jsstring) : Prop :=
  whitespace_parts out = map mask_part (whitespace_parts name).

(** *** The masking rule *)

Lemma mask_part_short part : (length part ≤ 2)%nat → mask_part part = part.
Proof. intros H. unfold mask_part. by rewrite (proj2 (Nat.leb_le _ _) H). Qed.

Lemma mask_part_long part :
  (2 < length part)%nat → mask_part part = take 2 part ++ js "***".
Proof.
  intros H. unfold mask_part.
  destruct (Nat.leb_spec (length part) 2); [lia | done].
Qed.

(** C10, as stated, fails on a name whose parts are separated by white space
    other than the space character. In "Ab<TAB>Cdefg" the white-space
    separated parts are "Ab" and "Cdefg"; the output is "Ab***": the part
    "Cdefg" is not shown as "Cd***". *)
Lemma maskName_counterexample :
  whitespace_parts (js "Ab" ++ [9%N] ++ js "Cdefg") = [js "Ab"; js "Cdefg"] ∧
  maskName false (js "Ab" ++ [9%N] ++ js "Cdefg") = js "Ab***" ∧
  ¬ masks_whitespace_parts (js "Ab" ++ [9%N] ++ js "Cdefg")
      (maskName false (js "Ab" ++ [9%N] ++ js "Cdefg")).
Proof. repeat split. intros H. vm_compute in H. discriminate. Qed.

(** C10, amended. For a restricted user the name is cut at every space
    character (U+0020 only); each part longer than two code units is replaced
    by its first two code units followed by "***", each part of length two or
    less (the empty parts between adjacent spaces included) is kept, and the
    parts are put back with single spaces. For an unrestricted user the name
    is returned as it is. Every name is such a sequence of space-free parts
    joined by spaces. *)
Theorem maskName_spec (parts : list jsstring) :
  parts ≠ [] → Forall (λ p, space ∉ p) parts →
  maskName false (join_with [space] parts)
    = join_with [space] (map mask_part parts) ∧
  Forall2 (λ part shown,
             ((length part ≤ 2)%nat → shown = part) ∧
             ((2 < length part)%nat → shown = take 2 part ++ js "***"))
          parts (map mask_part parts) ∧
  (∀ fullName, maskName true fullName = fullName) ∧
  (∀ fullName, ∃ pieces,
     pieces ≠ [] ∧ Forall (λ p, space ∉ p) pieces ∧
     fullName = join_with [space] pieces).
Proof.
  intros Hne Hall. split; [|split; [|split]].
  - unfold maskName. by rewrite split_char_join.
  - apply Forall2_fmap_r, Forall_Forall2_diag, Forall_forall.
    intros part _. split; [apply mask_part_short | apply mask_part_long].
  - reflexivity.
  - intros fullName. exists (split_char space fullName).
    split; [apply split_char_nonempty|]. split; [apply split_char_parts|].
    symmetry. apply join_split_char.
Qed.

Lemma maskName_spec_witness :
  maskName false (join_with [space] [js "Ahmet"; js "Su"; js ""; js "Yilmaz"])
    = join_with [space] (map mask_part [js "Ahmet"; js "Su"; js ""; js "Yilmaz"]) ∧
  Forall2 (λ part shown,
             ((length part ≤ 2)%nat → shown = part) ∧
             ((2 < length part)%nat → shown = take 2 part ++ js "***"))
          [js "Ahmet"; js "Su"; js ""; js "Yilmaz"]
          (map mask_part [js "Ahmet"; js "Su"; js ""; js "Yilmaz"]) ∧
  (∀ fullName, maskName true fullName = fullName) ∧
  (∀ fullName, ∃ pieces,
     pieces ≠ [] ∧ Forall (λ p, space ∉ p) pieces ∧
     fullName = join_with [space] pieces).
Proof.
  apply (maskName_spec [js "Ahmet"; js "Su"; js ""; js "Yilmaz"]).
  - discriminate.
  - apply (bool_decide_unpack _). vm_compute. exact I.
Defined.

Example maskName_restricted :
  maskName false (js "Ahmet Su  Yilmaz") = js "Ah*** Su  Yi***".
Proof. reflexivity. Qed.

Example maskName_unrestricted :
  maskName true (js "Ahmet Su  Yilmaz") = js "Ahmet Su  Yilmaz".
Proof. reflexivity. Qed.

End Mask.

(** ** The customer records ([Customer], [SupabaseCustomer])

    Source: [src/services/supabaseClient.ts], lines 19-27, and the uses of
    [Customer] there. *)

Module Types.

(** The numbers of JavaScript are IEEE doubles. The program only parses them
    from text, prints them and tests them for truthiness; these three
    operations are the interface the embedding is written against. *)
Class JsNumber (number : Type) := {
  parseFloat : jsstring → number;
  num_toString : number → jsstring;
  (** false for [0], [-0] and [NaN] *)
  num_truthy : number → bool
}.

(** [Customer]: the record of the application. *)
Record Customer := {
  installationNumber : jsstring;
  name : jsstring;
  phone : jsstring;
  address : jsstring;
  latitude : option jsstring;
  longitude : option jsstring
}.

(** [SupabaseCustomer]: a row of the [customers] table. *)
Record SupabaseCustomer (number : Type) := {
  id : option Z;
  installation_number : jsstring;
  row_name : jsstring;
  row_phone : jsstring;
  row_address : jsstring;
  row_latitude : option number;
  row_longitude : option number
}.
Arguments id {number} _.
Arguments installation_number {number} _.
Arguments row_name {number} _.
Arguments row_phone {number} _.
Arguments row_address {number} _.
Arguments row_latitude {number} _.
Arguments row_longitude {number} _.

(** Numbers carried as their printed text: an instance to run the
    definitions on. *)
Definition text_number : JsNumber jsstring :=
  {| parseFloat := λ s, s;
     num_toString := λ s, s;
     num_truthy := λ s, negb (bool_decide (s = js "0")) |}.

End Types.
Import Types.

(** ** Bulk import ([bulkUpsertCustomers])

    Source: [src/services/supabaseClient.ts], lines 337-402. *)

Module Bulk.

Section WithNumbers.

Context {number : Type} `{JsNumber number}.

Definition comma : N := 44.
Definition dot : N := 46.

(** [s.replace(a, b)] for one-character strings: the first occurrence only. *)
Fixpoint replace_first (a b : N) (s : jsstring) : jsstring :=
  match s with
  | [] => []
  | c :: s' => if bool_decide (c = a) then b :: s' else c :: replace_first a b s'
  end.

(** [c.latitude ? parseFloat(c.latitude.replace(',', '.')) : null]. *)
Definition coordinate (s : option jsstring) : option number :=
  if truthy s then Some (parseFloat (replace_first comma dot (or_empty s)))
  else None.

(** The callback of [customers.map]: a customer in the format of the table. *)
Definition to_db_row (c : Customer) : SupabaseCustomer number :=
  {| id := None;
     installation_number := installationNumber c;
     row_name := name c;
     row_phone := phone c;
     row_address := address c;
     row_latitude := coordinate (latitude c);
     row_longitude := coordinate (longitude c) |}.

(** What one [upsert] call comes back with. *)
Inductive UpsertOutcome :=
| Upserted                                (* [{ error: null }] *)
| UpsertError (e : PostgrestError)        (* [{ error }] *)
| UpsertThrows (message : jsstring).      (* the call rejects with [e] *)

(** The test of the source for a permission failure. *)
Definition is_permission (e : PostgrestError) : bool :=
  str_eqb (code e) (js "42501") || includes (message e) (js "row-level security").

(** The [error] field of the result. *)
Inductive BulkError :=
| NoError                          (* [null] *)
| LastMessage (m : jsstring)       (* the message of the last failure *)
| WritePermission.                 (* "YETKİ HATASI: Supabase'de yazma izni yok. ..." *)

Record BulkResult := {
  success : Z;
  errorCount : Z;
  error : BulkError
}.

(** The variables of the loop, with what the loop did to the outside: the
    chunks handed to [upsert] and the calls of [onProgress], oldest first. *)
Record LoopState := {
  totalSuccess : Z;
  totalErrors : Z;
  lastError : BulkError;
  sent : list (list (SupabaseCustomer number));
  progress : list (Z * Z * Z)
}.

Definition CHUNK_SIZE : nat := 200.

(** [rows.slice(i, j)] for [i <= j]. *)
Definition slice {A} (i j : nat) (rows : list A) : list A :=
  take (j - i) (drop i rows).

(** The chunk is counted as an error. *)
Definition chunk_failed (chunk : list (SupabaseCustomer number)) (m : jsstring)
    (st : LoopState) : LoopState :=
  {| totalSuccess := totalSuccess st;
     totalErrors := totalErrors st + Z.of_nat (length chunk);
     lastError := LastMessage m;
     sent := sent st ++ [chunk];
     progress := progress st |}.

(** The chunk is counted as a success. *)
Definition chunk_succeeded (chunk : list (SupabaseCustomer number))
    (st : LoopState) : LoopState :=
  {| totalSuccess := totalSuccess st + Z.of_nat (length chunk);
     totalErrors := totalErrors st;
     lastError := lastError st;
     sent := sent st ++ [chunk];
     progress := progress st |}.

(** The call of [onProgress] that ends an iteration. *)
Definition report (dbRows : list (SupabaseCustomer number)) (i : nat)
    (chunk : list (SupabaseCustomer number)) (st : LoopState) : LoopState :=
  let processed :=
    if (length dbRows <? i + length chunk)%nat
    then Z.of_nat (length dbRows) else Z.of_nat (i + length chunk) in
  {| totalSuccess := totalSuccess st;
     totalErrors := totalErrors st;
     lastError := lastError st;
     sent := sent st;
     progress := progress st ++ [(processed, Z.of_nat (length dbRows), totalErrors st)] |}.

(** The early [return] on a permission failure. *)
Definition aborted (dbRows : list (SupabaseCustomer number))
    (st : LoopState) : BulkResult * LoopState :=
  ({| success := totalSuccess st;
      errorCount := Z.of_nat (length dbRows) - totalSuccess st;
      error := WritePermission |}, st).

(** The [return] after the loop. *)
Definition finished (st : LoopState) : BulkResult * LoopState :=
  ({| success := totalSuccess st; errorCount := totalErrors st;
      error := lastError st |}, st).

(** [for (let i = 0; i < dbRows.length; i += CHUNK_SIZE) { ... }], entered at
    [i]. [respond k] is what the store answers to the upsert of chunk [k]. The
    state returned next to the result is the state the loop ended in. *)
Equations? chunk_loop (dbRows : list (SupabaseCustomer number))
    (respond : nat → UpsertOutcome) (i : nat) (st : LoopState)
    : BulkResult * LoopState by wf (length dbRows - i)%nat lt :=
chunk_loop dbRows respond i st with decide (i < length dbRows)%nat := {
  | right _ => finished st
  | left _ with respond (i / CHUNK_SIZE)%nat := {
      | Upserted =>
          chunk_loop dbRows respond (i + CHUNK_SIZE)%nat
            (report dbRows i (slice i (i + CHUNK_SIZE) dbRows)
               (chunk_succeeded (slice i (i + CHUNK_SIZE) dbRows) st))
      | UpsertError e with is_permission e := {
          | true =>
              aborted dbRows
                (chunk_failed (slice i (i + CHUNK_SIZE) dbRows) (message e) st)
          | false =>
              chunk_loop dbRows respond (i + CHUNK_SIZE)%nat
                (report dbRows i (slice i (i + CHUNK_SIZE) dbRows)
                   (chunk_failed (slice i (i + CHUNK_SIZE) dbRows) (message e) st)) }
      | UpsertThrows m =>
          chunk_loop dbRows respond (i + CHUNK_SIZE)%nat
            (report dbRows i (slice i (i + CHUNK_SIZE) dbRows)
               (chunk_failed (slice i (i + CHUNK_SIZE) dbRows) m st)) } }.
Proof. all: unfold CHUNK_SIZE; lia. Qed.

(** The state before the first iteration. *)
Definition initial : LoopState :=
  {| totalSuccess := 0; totalErrors := 0; lastError := NoError;
     sent := []; progress := [] |}.

(** [bulkUpsertCustomers(customers, onProgress)]. *)
Definition bulkUpsertCustomers (customers : list Customer)
    (respond : nat → UpsertOutcome) : BulkResult * LoopState :=
  if (length customers =? 0)%nat
  then ({| success := 0; errorCount := 0; error := NoError |}, initial)
  else chunk_loop (map to_db_row customers) respond 0 initial.

(** *** The vocabulary of the specification *)

(** Chunk [k] of the input, and the partition of the input into chunks. *)
Definition chunk_at (rows : list (SupabaseCustomer number)) (k : nat)
    : list (SupabaseCustomer number) :=
  slice (k * CHUNK_SIZE) (k * CHUNK_SIZE + CHUNK_SIZE) rows.

Definition n_chunks (n : nat) : nat := (n + (CHUNK_SIZE - 1)) / CHUNK_SIZE.

Definition chunks (rows : list (SupabaseCustomer number))
    : list (list (SupabaseCustomer number)) :=
  map (chunk_at rows) (seq 0 (n_chunks (length rows))).

Definition accepted (o : UpsertOutcome) : bool :=
  match o with Upserted => true | _ => false end.

Definition failed (o : UpsertOutcome) : bool := negb (accepted o).

Definition permission_failure (o : UpsertOutcome) : bool :=
  match o with UpsertError e => is_permission e | _ => false end.

(** The number of records in the chunks [k], ..., [k + m - 1] whose upsert
    ended as [P] says. *)
Fixpoint tally (P : UpsertOutcome → bool) (rows : list (SupabaseCustomer number))
    (respond : nat → UpsertOutcome) (k m : nat) : Z :=
  match m with
  | O => 0
  | S m' =>
      (if P (respond k) then Z.of_nat (length (chunk_at rows k)) else 0)
      + tally P rows respond (S k) m'
  end.

(** *** One iteration *)

Lemma chunk_loop_done dbRows respond i st :
  (length dbRows ≤ i)%nat → chunk_loop dbRows respond i st = finished st.
Proof.
  intros Hi. simp chunk_loop. destruct (decide (i < length dbRows)%nat); [lia|].
  reflexivity.
Qed.

Lemma chunk_loop_step dbRows respond i st :
  (i < length dbRows)%nat →
  chunk_loop dbRows respond i st =
    let chunk := slice i (i + CHUNK_SIZE) dbRows in
    match respond (i / CHUNK_SIZE)%nat with
    | Upserted =>
        chunk_loop dbRows respond (i + CHUNK_SIZE)
          (report dbRows i chunk (chunk_succeeded chunk st))
    | UpsertError e =>
        if is_permission e
        then aborted dbRows (chunk_failed chunk (message e) st)
        else chunk_loop dbRows respond (i + CHUNK_SIZE)
               (report dbRows i chunk (chunk_failed chunk (message e) st))
    | UpsertThrows m =>
        chunk_loop dbRows respond (i + CHUNK_SIZE)
          (report dbRows i chunk (chunk_failed chunk m st))
    end.
Proof.
  intros Hi. rewrite chunk_loop_equation_1.
  destruct (decide (i < length dbRows)%nat) as [Hlt|]; [|lia].
  cbn zeta. cbn [chunk_loop_unfold_clause_1].
  destruct (respond (i / CHUNK_SIZE)%nat) as [|e|m];
    cbn [chunk_loop_unfold_clause_1_clause_2]; [reflexivity| |reflexivity].
  destruct (is_permission e); reflexivity.
Qed.

(** *** Arithmetic of the partition *)

Implicit Types (dbRows : list (SupabaseCustomer number)) (st : LoopState).
Implicit Types (respond : nat → UpsertOutcome).

Lemma slice_length dbRows i :
  length (slice i (i + CHUNK_SIZE) dbRows)
  = Nat.min CHUNK_SIZE (length dbRows - i).
Proof. unfold slice. rewrite length_take, length_drop. lia. Qed.

Lemma n_chunks_covers n : (n ≤ n_chunks n * CHUNK_SIZE)%nat.
Proof.
  unfold n_chunks, CHUNK_SIZE.
  pose proof (Nat.div_mod_eq (n + (200 - 1)) 200).
  pose proof (Nat.mod_upper_bound (n + (200 - 1)) 200). lia.
Qed.

Lemma before_n_chunks n k : (k < n_chunks n)%nat → (k * CHUNK_SIZE < n)%nat.
Proof.
  unfold n_chunks, CHUNK_SIZE. intros Hk.
  pose proof (Nat.div_mod_eq (n + (200 - 1)) 200).
  pose proof (Nat.mod_upper_bound (n + (200 - 1)) 200). lia.
Qed.

Lemma chunk_index k : (k * CHUNK_SIZE / CHUNK_SIZE = k)%nat.
Proof. apply Nat.div_mul. unfold CHUNK_SIZE. lia. Qed.

(** A chunk that is followed by another one is full. *)
Lemma chunk_at_full dbRows k :
  (S k < n_chunks (length dbRows))%nat →
  length (chunk_at dbRows k) = CHUNK_SIZE.
Proof.
  intros Hk. apply before_n_chunks in Hk. unfold chunk_at.
  rewrite slice_length. unfold CHUNK_SIZE in *. lia.
Qed.

Lemma tally_split P dbRows respond k m :
  tally P dbRows respond k m + tally (λ o, negb (P o)) dbRows respond k m
  = tally (λ _, true) dbRows respond k m.
Proof.
  revert k. induction m as [|m IH]; intros k; cbn [tally]; [done|].
  specialize (IH (S k)). destruct (P (respond k)); cbn [negb]; lia.
Qed.

Lemma tally_full dbRows respond k m :
  (k + m < n_chunks (length dbRows))%nat →
  tally (λ _, true) dbRows respond k m = Z.of_nat (m * CHUNK_SIZE).
Proof.
  revert k. induction m as [|m IH]; intros k Hk; cbn [tally]; [done|].
  rewrite IH by lia. rewrite chunk_at_full by lia. lia.
Qed.

(** *** The loop from chunk [k] onwards *)

Ltac loop_state :=
  cbn [report chunk_succeeded chunk_failed aborted finished
       totalSuccess totalErrors lastError sent progress
       success errorCount error fst snd].

(** The counts always add up to the size of the input. *)
Lemma chunk_loop_total dbRows respond m : ∀ k st,
  (k + m = n_chunks (length dbRows))%nat →
  totalSuccess st + totalErrors st
    = Z.of_nat (Nat.min (k * CHUNK_SIZE) (length dbRows)) →
  let out := chunk_loop dbRows respond (k * CHUNK_SIZE) st in
  success out.1 + errorCount out.1 = Z.of_nat (length dbRows).
Proof.
  induction m as [|m IH]; intros k st Hk Hst; cbv zeta.
  - rewrite chunk_loop_done.
    + loop_state. pose proof (n_chunks_covers (length dbRows)). rewrite Hst.
      replace k with (n_chunks (length dbRows)) by lia. lia.
    + pose proof (n_chunks_covers (length dbRows)).
      replace k with (n_chunks (length dbRows)) by lia. lia.
  - assert (Hlt : (k * CHUNK_SIZE < length dbRows)%nat)
      by (apply before_n_chunks; lia).
    rewrite chunk_loop_step by done. cbv zeta. rewrite chunk_index.
    assert (Hnext : (k * CHUNK_SIZE + CHUNK_SIZE = S k * CHUNK_SIZE)%nat) by lia.
    fold (chunk_at dbRows k).
    assert (Hlen : length (chunk_at dbRows k)
                   = Nat.min CHUNK_SIZE (length dbRows - k * CHUNK_SIZE))
      by apply slice_length.
    destruct (respond k) as [|e|msg].
    + rewrite Hnext. apply IH; [lia|]. loop_state. rewrite Hlen. lia.
    + destruct (is_permission e).
      * loop_state. lia.
      * rewrite Hnext. apply IH; [lia|]. loop_state. rewrite Hlen. lia.
    + rewrite Hnext. apply IH; [lia|]. loop_state. rewrite Hlen. lia.
Qed.

(** Without a permission failure every remaining chunk is sent, in order, and
    counted on the side its upsert ended on. *)
Lemma chunk_loop_runs dbRows respond m : ∀ k st,
  (k + m = n_chunks (length dbRows))%nat →
  (∀ j, (k ≤ j < k + m)%nat → permission_failure (respond j) = false) →
  let out := chunk_loop dbRows respond (k * CHUNK_SIZE) st in
  sent out.2 = sent st ++ map (chunk_at dbRows) (seq k m) ∧
  success out.1 = totalSuccess st + tally accepted dbRows respond k m ∧
  errorCount out.1 = totalErrors st + tally failed dbRows respond k m.
Proof.
  induction m as [|m IH]; intros k st Hk Hperm; cbv zeta.
  - rewrite chunk_loop_done.
    + loop_state. cbn [tally seq map]. rewrite app_nil_r. repeat split; lia.
    + pose proof (n_chunks_covers (length dbRows)).
      replace k with (n_chunks (length dbRows)) by lia. lia.
  - assert (Hlt : (k * CHUNK_SIZE < length dbRows)%nat)
      by (apply before_n_chunks; lia).
    rewrite chunk_loop_step by done. cbv zeta. rewrite chunk_index.
    assert (Hnext : (k * CHUNK_SIZE + CHUNK_SIZE = S k * CHUNK_SIZE)%nat) by lia.
    pose proof (Hperm k ltac:(lia)) as Hk0.
    assert (Hrest : ∀ j, (S k ≤ j < S k + m)%nat →
                         permission_failure (respond j) = false)
      by (intros j Hj; apply Hperm; lia).
    cbn [tally seq map]. unfold failed at 1.
    fold (chunk_at dbRows k).
    destruct (respond k) as [|e|msg]; cbn [accepted negb].
    + rewrite Hnext.
      destruct (IH (S k) (report dbRows (k * CHUNK_SIZE) (chunk_at dbRows k)
                            (chunk_succeeded (chunk_at dbRows k) st))
                  ltac:(lia) Hrest) as (Hs & Hok & Herr).
      rewrite Hs, Hok, Herr. loop_state. rewrite <- app_assoc. repeat split; lia.
    + cbn [permission_failure] in Hk0. rewrite Hk0. rewrite Hnext.
      destruct (IH (S k) (report dbRows (k * CHUNK_SIZE) (chunk_at dbRows k)
                            (chunk_failed (chunk_at dbRows k) (message e) st))
                  ltac:(lia) Hrest) as (Hs & Hok & Herr).
      rewrite Hs, Hok, Herr. loop_state. rewrite <- app_assoc. repeat split; lia.
    + rewrite Hnext.
      destruct (IH (S k) (report dbRows (k * CHUNK_SIZE) (chunk_at dbRows k)
                            (chunk_failed (chunk_at dbRows k) msg st))
                  ltac:(lia) Hrest) as (Hs & Hok & Herr).
      rewrite Hs, Hok, Herr. loop_state. rewrite <- app_assoc. repeat split; lia.
Qed.

(** With the first permission failure at chunk [k + m], the chunks [k] to
    [k + m] are sent and nothing after them; the successes are those of the
    chunks before it and everything else is an error. *)
Lemma chunk_loop_aborts dbRows respond m : ∀ k st,
  (k + m < n_chunks (length dbRows))%nat →
  (∀ j, (k ≤ j < k + m)%nat → permission_failure (respond j) = false) →
  permission_failure (respond (k + m)%nat) = true →
  let out := chunk_loop dbRows respond (k * CHUNK_SIZE) st in
  sent out.2 = sent st ++ map (chunk_at dbRows) (seq k (S m)) ∧
  success out.1 = totalSuccess st + tally accepted dbRows respond k m ∧
  errorCount out.1 = Z.of_nat (length dbRows) - success out.1 ∧
  error out.1 = WritePermission.
Proof.
  induction m as [|m IH]; intros k st Hk Hperm Hab; cbv zeta.
  - assert (Hlt : (k * CHUNK_SIZE < length dbRows)%nat)
      by (apply before_n_chunks; lia).
    rewrite chunk_loop_step by done. cbv zeta. rewrite chunk_index.
    fold (chunk_at dbRows k).
    replace (k + 0)%nat with k in Hab by lia.
    destruct (respond k) as [|e|msg]; try discriminate.
    cbn [permission_failure] in Hab. rewrite Hab. loop_state.
    cbn [tally seq map]. repeat split; lia.
  - assert (Hlt : (k * CHUNK_SIZE < length dbRows)%nat)
      by (apply before_n_chunks; lia).
    rewrite chunk_loop_step by done. cbv zeta. rewrite chunk_index.
    assert (Hnext : (k * CHUNK_SIZE + CHUNK_SIZE = S k * CHUNK_SIZE)%nat) by lia.
    pose proof (Hperm k ltac:(lia)) as Hk0.
    assert (Hrest : ∀ j, (S k ≤ j < S k + m)%nat →
                         permission_failure (respond j) = false)
      by (intros j Hj; apply Hperm; lia).
    replace (k + S m)%nat with (S k + m)%nat in Hab by lia.
    cbn [tally].
    change (seq k (S (S m))) with (k :: seq (S k) (S m)). cbn [map].
    fold (chunk_at dbRows k).
    destruct (respond k) as [|e|msg]; cbn [accepted].
    + rewrite Hnext.
      destruct (IH (S k) (report dbRows (k * CHUNK_SIZE) (chunk_at dbRows k)
                            (chunk_succeeded (chunk_at dbRows k) st))
                  ltac:(lia) Hrest Hab) as (Hs & Hok & Herr & He).
      rewrite Hs, Herr, Hok, He. loop_state. rewrite <- app_assoc. repeat split; lia.
    + cbn [permission_failure] in Hk0. rewrite Hk0. rewrite Hnext.
      destruct (IH (S k) (report dbRows (k * CHUNK_SIZE) (chunk_at dbRows k)
                            (chunk_failed (chunk_at dbRows k) (message e) st))
                  ltac:(lia) Hrest Hab) as (Hs & Hok & Herr & He).
      rewrite Hs, Herr, Hok, He. loop_state. rewrite <- app_assoc. repeat split; lia.
    + rewrite Hnext.
      destruct (IH (S k) (report dbRows (k * CHUNK_SIZE) (chunk_at dbRows k)
                            (chunk_failed (chunk_at dbRows k) msg st))
                  ltac:(lia) Hrest Hab) as (Hs & Hok & Herr & He).
      rewrite Hs, Herr, Hok, He. loop_state. rewrite <- app_assoc. repeat split; lia.
Qed.

(** The chunks are the input cut in order: put end to end they give it back. *)
Lemma chunks_upto dbRows m :
  concat (map (chunk_at dbRows) (seq 0 m)) = take (m * CHUNK_SIZE) dbRows.
Proof.
  induction m as [|m IH]; [done|].
  rewrite seq_S, map_app, concat_app, IH. cbn [map concat Nat.add].
  rewrite app_nil_r. unfold chunk_at, slice.
  replace (m * CHUNK_SIZE + CHUNK_SIZE - m * CHUNK_SIZE)%nat with CHUNK_SIZE by lia.
  replace (S m * CHUNK_SIZE)%nat with (m * CHUNK_SIZE + CHUNK_SIZE)%nat by lia.
  apply take_take_drop.
Qed.

Lemma chunks_partition dbRows : concat (chunks dbRows) = dbRows.
Proof.
  unfold chunks. rewrite chunks_upto. apply take_ge, n_chunks_covers.
Qed.

(** *** The accounting of the import *)

(** C3. The import of N customers always returns a result, whose success and
    error counts add up to N. When no chunk meets a permission failure, every
    chunk of 200 is submitted, in order, and each chunk is counted in full on
    the side its upsert ended on, so a failing chunk adds exactly its records
    to the error count and the next chunk is still processed. When chunk k is
    the first to meet a permission failure, the chunks up to k are the only
    ones submitted, the successes are those counted before chunk k, and the
    error count is N minus these successes: the failed chunks before k and
    every record from chunk k onwards. *)
Theorem bulkUpsert_accounting (customers : list Customer)
    (respond : nat → UpsertOutcome) :
  let dbRows := map to_db_row customers in
  let N := Z.of_nat (length customers) in
  let n := n_chunks (length customers) in
  let out := bulkUpsertCustomers customers respond in
  success out.1 + errorCount out.1 = N ∧
  concat (chunks dbRows) = dbRows ∧
  ((∀ j, (j < n)%nat → permission_failure (respond j) = false) →
     sent out.2 = chunks dbRows ∧
     success out.1 = tally accepted dbRows respond 0 n ∧
     errorCount out.1 = tally failed dbRows respond 0 n) ∧
  (∀ k, (k < n)%nat → permission_failure (respond k) = true →
     (∀ j, (j < k)%nat → permission_failure (respond j) = false) →
     sent out.2 = take (S k) (chunks dbRows) ∧
     success out.1 = tally accepted dbRows respond 0 k ∧
     errorCount out.1 = N - tally accepted dbRows respond 0 k ∧
     errorCount out.1
       = tally failed dbRows respond 0 k + (N - Z.of_nat (k * CHUNK_SIZE)) ∧
     error out.1 = WritePermission).
Proof.
  cbv zeta.
  assert (Hlen : length (map to_db_row customers) = length customers)
    by apply length_map.
  assert (Hrun : bulkUpsertCustomers customers respond
                 = chunk_loop (map to_db_row customers) respond (0 * CHUNK_SIZE) initial).
  { unfold bulkUpsertCustomers. destruct customers as [|c customers]; [|done].
    cbn [length Nat.eqb map]. by rewrite chunk_loop_done. }
  rewrite Hrun. split; [|split; [apply chunks_partition|split]].
  - rewrite <- Hlen.
    apply (chunk_loop_total _ respond (n_chunks (length (map to_db_row customers)))).
    + lia.
    + cbn. lia.
  - intros Hperm.
    destruct (chunk_loop_runs (map to_db_row customers) respond
                (n_chunks (length customers)) 0 initial) as (Hs & Hok & Herr).
    + by rewrite Hlen.
    + intros j Hj. apply Hperm. lia.
    + rewrite Hs, Hok, Herr. unfold chunks. rewrite Hlen. cbn [initial sent totalSuccess totalErrors app].
      repeat split; lia.
  - intros k Hk Hab Hperm.
    destruct (chunk_loop_aborts (map to_db_row customers) respond k 0 initial)
      as (Hs & Hok & Herr & He).
    + rewrite Hlen. lia.
    + intros j Hj. apply Hperm. lia.
    + exact Hab.
    + rewrite Hs, Herr, Hok, He. cbn [initial sent totalSuccess totalErrors app].
      rewrite Hlen.
      pose proof (tally_split accepted (map to_db_row customers) respond 0 k) as Hsplit.
      rewrite (tally_full (map to_db_row customers) respond 0 k) in Hsplit
        by (rewrite Hlen; lia).
      fold failed in Hsplit.
      change (tally (λ o, negb (accepted o))) with (tally failed) in Hsplit.
      repeat split; try lia.
      unfold chunks. rewrite firstn_map, Hlen.
      f_equal. rewrite take_seq. f_equal. lia.
Qed.

End WithNumbers.

(** *** A run *)

(** 450 customers, hence the chunks 0, 1 and 2 of 200, 200 and 50 records. *)
Definition sample_customer : Customer :=
  {| installationNumber := js "40001"; name := js "Ayse Kaya";
     phone := js "0555"; address := js "Izmir";
     latitude := Some (js "38,42"); longitude := Some (js "27,14") |}.

Definition sample_customers : list Customer := replicate 450 sample_customer.

Definition rls_error : PostgrestError :=
  {| code := js "42501";
     message := js "new row violates row-level security policy" |}.

Definition timeout_error : PostgrestError :=
  {| code := js "57014"; message := js "canceling statement due to statement timeout" |}.

(** The store refuses chunk 1 for lack of permission. *)
Definition refuses_second (k : nat) : UpsertOutcome :=
  match k with 1%nat => UpsertError rls_error | _ => Upserted end.

(** The store times out on chunk 1 only. *)
Definition stumbles_on_second (k : nat) : UpsertOutcome :=
  match k with 1%nat => UpsertError timeout_error | _ => Upserted end.

Lemma bulkUpsert_accounting_witness :
  let out := bulkUpsertCustomers (H := text_number) sample_customers refuses_second in
  success out.1 = 200 ∧ errorCount out.1 = 250 ∧ length (sent out.2) = 2%nat.
Proof.
  destruct (bulkUpsert_accounting (H := text_number) sample_customers refuses_second)
    as (_ & _ & _ & Habort).
  destruct (Habort 1%nat) as (Hs & Hok & Herr & _ & _).
  - vm_compute. lia.
  - reflexivity.
  - intros j Hj. assert (j = 0%nat) as -> by lia. reflexivity.
  - cbv zeta. rewrite Hs, Hok, Herr. vm_compute. done.
Defined.

Example bulk_continues_after_timeout :
  let out := bulkUpsertCustomers (H := text_number) sample_customers stumbles_on_second in
  out.1 = {| success := 250; errorCount := 200;
             error := LastMessage (message timeout_error) |} ∧
  map length (sent out.2) = [200; 200; 50]%nat ∧
  progress out.2 = [(200, 450, 0); (400, 450, 200); (450, 450, 200)].
Proof. vm_compute. done. Qed.

Example bulk_nothing_to_do :
  (bulkUpsertCustomers (H := text_number) [] refuses_second).1
  = {| success := 0; errorCount := 0; error := NoError |}.
Proof. reflexivity. Qed.

End Bulk.

(** ** Customer lookup with a local cache
    ([getFromCache], [saveToCache], [findCustomerByInstallationNumber])

    Source: [src/services/supabaseClient.ts], lines 36-75 and 157-186. *)

Module Lookup.

(** What [localStorage] holds under a key. The cache writes
    [JSON.stringify({ data, timestamp })] and reads it back with [JSON.parse];
    the two are taken as a faithful round trip, so an entry of the cache is
    kept as the record itself. Any other text under the key is [Foreign] or
    [Unreadable]. [Foreign] is text that parses to a value with no customer
    under [data] (the read of [record.data] gives a value that counts as
    false); [timestamp] is the number under [timestamp] when there is one, and
    without one [Date.now() - record.timestamp] is not a number and no
    comparison with it holds. [Unreadable] is text on which the read throws
    ([JSON.parse] fails, or yields [null]), and the empty text. Text that
    holds under [data] a value that counts as true and is not written by
    [saveToCache] is not covered. *)
Inductive Stored :=
| CacheRecord (data : Customer) (timestamp : Z)
| Foreign (timestamp : option Z)
| Unreadable (text : jsstring).

Definition CACHE_PREFIX : jsstring := js "qs_cache_v1_".

Definition CACHE_DURATION_MS : Z := 1000 * 60 * 60 * 24.

(** [getFromCache(key)] at the clock reading [now]; the storage is returned
    next to the result, since an expired entry is removed. *)
Definition getFromCache (now : Z) (localStorage : gmap jsstring Stored)
    (key : jsstring) : option Customer * gmap jsstring Stored :=
  match localStorage !! (CACHE_PREFIX ++ key) with
  | None => (None, localStorage)
  | Some (Unreadable _) => (None, localStorage)
  | Some (Foreign None) => (None, localStorage)
  | Some (Foreign (Some timestamp)) =>
      if now - timestamp >? CACHE_DURATION_MS
      then (None, delete (CACHE_PREFIX ++ key) localStorage)
      else (None, localStorage)
  | Some (CacheRecord data timestamp) =>
      if now - timestamp >? CACHE_DURATION_MS
      then (None, delete (CACHE_PREFIX ++ key) localStorage)
      else (Some data, localStorage)
  end.

(** [saveToCache(key, data)] at the clock reading [now]. [full] says that
    [setItem] throws (the quota is used up); the error is only logged. *)
Definition saveToCache (now : Z) (full : bool)
    (localStorage : gmap jsstring Stored) (key : jsstring) (data : Customer)
    : gmap jsstring Stored :=
  if full then localStorage
  else <[CACHE_PREFIX ++ key := CacheRecord data now]> localStorage.

(** What the device holds and has done: the storage and the installation
    numbers asked of the remote store, oldest first. *)
Record Device := {
  localStorage : gmap jsstring Stored;
  queries : list jsstring
}.

(** The circumstances of one call: the clock when the cache is read and when
    it is written, the failure of the remote call if it fails, and whether the
    storage refuses the write. *)
Record Circumstances := {
  read_at : Z;
  saved_at : Z;
  fault : option PostgrestError;
  storage_full : bool
}.

Section WithNumbers.

Context {number : Type} `{JsNumber number}.

(** [mapSupabaseCustomerToApp]. *)
Definition mapSupabaseCustomerToApp (data : SupabaseCustomer number) : Customer :=
  {| installationNumber := installation_number data;
     name := row_name data;
     phone := row_phone data;
     address := row_address data;
     latitude := option_map num_toString (row_latitude data);
     longitude := option_map num_toString (row_longitude data) |}.

Definition has_installation_number (n : jsstring) (r : SupabaseCustomer number)
    : bool :=
  str_eqb (installation_number r) n.

(** [findCustomerByInstallationNumber(installationNumber)] against the table
    [customers]. *)
Definition findCustomerByInstallationNumber (c : Circumstances)
    (customers : list (SupabaseCustomer number)) (dev : Device)
    (installationNumber : jsstring) : Result Customer * Device :=
  let '(cachedData, storage) :=
    getFromCache (read_at c) (localStorage dev) installationNumber in
  match cachedData with
  | Some cached => (Return cached, {| localStorage := storage; queries := queries dev |})
  | None =>
      let r := select_single (has_installation_number installationNumber)
                 customers (fault c) in
      let asked := {| localStorage := storage;
                      queries := queries dev ++ [installationNumber] |} in
      match error r with
      | Some e =>
          if str_eqb (code e) PGRST116 then (Throw NotFound, asked)
          else (handleSupabaseError e "findCustomer", asked)
      | None =>
          match data r with
          | None => (Throw NotFound, asked)
          | Some row =>
              let customer := mapSupabaseCustomerToApp row in
              (Return customer,
               {| localStorage :=
                    saveToCache (saved_at c) (storage_full c) storage
                      installationNumber customer;
                  queries := queries asked |})
          end
      end
  end.

(** The cache holds a usable entry for the key at the time [now]. *)
Definition fresh_entry (now : Z) (storage : gmap jsstring Stored)
    (key : jsstring) (cached : Customer) : Prop :=
  ∃ timestamp, storage !! (CACHE_PREFIX ++ key) = Some (CacheRecord cached timestamp)
               ∧ now - timestamp ≤ CACHE_DURATION_MS.

(** The cache holds nothing usable for the key at the time [now]: no entry,
    text that is not an entry, or an entry older than the time to live. *)
Definition no_fresh_entry (now : Z) (storage : gmap jsstring Stored)
    (key : jsstring) : Prop :=
  match storage !! (CACHE_PREFIX ++ key) with
  | Some (CacheRecord _ timestamp) => CACHE_DURATION_MS < now - timestamp
  | _ => True
  end.

(** What is under a key is stale at the time [now]: it carries a time stamp
    that is older than the time to live. *)
Definition stale (now : Z) (entry : Stored) : Prop :=
  match entry with
  | CacheRecord _ timestamp | Foreign (Some timestamp) =>
      CACHE_DURATION_MS < now - timestamp
  | Foreign None | Unreadable _ => False
  end.

(** What a miss at the time [now] leaves in the storage before the remote
    call: what is stale is gone, anything else is as it was. *)
Definition after_miss (now : Z) (storage : gmap jsstring Stored) (key : jsstring)
    : gmap jsstring Stored :=
  match storage !! (CACHE_PREFIX ++ key) with
  | Some (CacheRecord _ _) => delete (CACHE_PREFIX ++ key) storage
  | Some (Foreign (Some timestamp)) =>
      if now - timestamp >? CACHE_DURATION_MS
      then delete (CACHE_PREFIX ++ key) storage else storage
  | _ => storage
  end.

(** *** The cache alone *)

Lemma getFromCache_hit now storage key cached :
  fresh_entry now storage key cached →
  getFromCache now storage key = (Some cached, storage).
Proof.
  intros (ts & Hl & Hts). unfold getFromCache. rewrite Hl.
  destruct (Z.gtb_spec (now - ts) CACHE_DURATION_MS); [lia | done].
Qed.

Lemma getFromCache_miss now storage key :
  no_fresh_entry now storage key →
  getFromCache now storage key = (None, after_miss now storage key).
Proof.
  unfold no_fresh_entry, getFromCache, after_miss.
  destruct (storage !! (CACHE_PREFIX ++ key)) as [[d ts|[ts|]|t]|]; try done.
  - intros Hts. destruct (Z.gtb_spec (now - ts) CACHE_DURATION_MS); [done | lia].
  - intros _. by destruct (now - ts >? CACHE_DURATION_MS).
Qed.

Lemma after_miss_stale now storage key entry :
  storage !! (CACHE_PREFIX ++ key) = Some entry →
  no_fresh_entry now storage key →
  (stale now entry → after_miss now storage key = delete (CACHE_PREFIX ++ key) storage) ∧
  (¬ stale now entry → after_miss now storage key = storage).
Proof.
  unfold no_fresh_entry, after_miss. intros ->.
  destruct entry as [d ts|[ts|]|t]; cbn [stale]; intros Hm; try done.
  destruct (Z.gtb_spec (now - ts) CACHE_DURATION_MS); split; (done || lia).
Qed.

Lemma after_miss_absent now storage key :
  storage !! (CACHE_PREFIX ++ key) = None → after_miss now storage key = storage.
Proof. unfold after_miss. by intros ->. Qed.

Lemma saved_entry_is_fresh now now' storage key customer :
  now' - now ≤ CACHE_DURATION_MS →
  fresh_entry now' (saveToCache now false storage key customer) key customer.
Proof.
  intros Hts. exists now. split; [|done].
  unfold saveToCache. apply lookup_insert_eq.
Qed.

Lemma saved_entry_expires now now' storage key customer :
  CACHE_DURATION_MS < now' - now →
  no_fresh_entry now' (saveToCache now false storage key customer) key.
Proof.
  intros Hts. unfold no_fresh_entry, saveToCache. by rewrite lookup_insert_eq.
Qed.

(** *** The lookup *)

Implicit Types (customers : list (SupabaseCustomer number)) (dev : Device).

Lemma find_hit c customers dev key cached :
  fresh_entry (read_at c) (localStorage dev) key cached →
  findCustomerByInstallationNumber c customers dev key = (Return cached, dev).
Proof.
  intros Hf. unfold findCustomerByInstallationNumber.
  rewrite (getFromCache_hit _ _ _ _ Hf). by destruct dev.
Qed.

Lemma filter_none {A} (f : A → bool) (l : list A) :
  (∀ x, x ∈ l → f x = false) → List.filter f l = [].
Proof.
  induction l as [|x l IH]; intros Hall; [done|]. cbn [List.filter].
  rewrite (Hall x) by left. apply IH. intros y Hy. apply Hall. by right.
Qed.

(** A table in which one row, and no other, has the number asked for. *)
Lemma exact_match customers key l1 row l2 :
  customers = l1 ++ row :: l2 →
  installation_number row = key →
  (∀ r, r ∈ l1 ++ l2 → installation_number r ≠ key) →
  List.filter (has_installation_number key) customers = [row].
Proof.
  intros -> Hrow Hothers. rewrite List.filter_app. cbn [List.filter].
  unfold has_installation_number at 2.
  rewrite (proj2 (str_eqb_true _ _) Hrow).
  rewrite !filter_none; [done | |];
    intros r Hr; apply str_eqb_false, Hothers, elem_of_app; auto.
Qed.

Lemma no_match customers key :
  (∀ r, r ∈ customers → installation_number r ≠ key) →
  List.filter (has_installation_number key) customers = [].
Proof.
  intros Hothers. apply filter_none. intros r Hr. by apply str_eqb_false, Hothers.
Qed.

Lemma find_miss_found c customers dev key row :
  no_fresh_entry (read_at c) (localStorage dev) key →
  fault c = None →
  List.filter (has_installation_number key) customers = [row] →
  findCustomerByInstallationNumber c customers dev key
  = (Return (mapSupabaseCustomerToApp row),
     {| localStorage :=
          saveToCache (saved_at c) (storage_full c)
            (after_miss (read_at c) (localStorage dev) key) key
            (mapSupabaseCustomerToApp row);
        queries := queries dev ++ [key] |}).
Proof.
  intros Hm Hfault Hrow. unfold findCustomerByInstallationNumber.
  rewrite (getFromCache_miss _ _ _ Hm). unfold select_single.
  by rewrite Hfault, Hrow.
Qed.

Lemma find_miss_not_found c customers dev key :
  no_fresh_entry (read_at c) (localStorage dev) key →
  fault c = None →
  List.filter (has_installation_number key) customers = [] →
  findCustomerByInstallationNumber c customers dev key
  = (Throw NotFound,
     {| localStorage := after_miss (read_at c) (localStorage dev) key;
        queries := queries dev ++ [key] |}).
Proof.
  intros Hm Hfault Hrow. unfold findCustomerByInstallationNumber.
  rewrite (getFromCache_miss _ _ _ Hm). unfold select_single.
  by rewrite Hfault, Hrow.
Qed.

Lemma find_miss_asks c customers dev key :
  no_fresh_entry (read_at c) (localStorage dev) key →
  queries (findCustomerByInstallationNumber c customers dev key).2
  = queries dev ++ [key].
Proof.
  intros Hm. unfold findCustomerByInstallationNumber.
  rewrite (getFromCache_miss _ _ _ Hm).
  destruct (select_single _ customers (fault c)) as [[row|] [e|]];
    cbn [error data]; try reflexivity;
    destruct (str_eqb (code e) PGRST116); reflexivity.
Qed.

Lemma save_after_miss now now' storage key customer :
  saveToCache now' false (after_miss now storage key) key customer
  = <[CACHE_PREFIX ++ key := CacheRecord customer now']> storage.
Proof.
  unfold saveToCache, after_miss.
  destruct (storage !! (CACHE_PREFIX ++ key)) as [[d ts|[ts|]|t]|]; try done.
  - apply insert_delete_eq.
  - destruct (now - ts >? CACHE_DURATION_MS); [apply insert_delete_eq | done].
Qed.

(** C6. The lookup first consults the cache. A fresh entry (not older than
    24 hours) is returned as it is, with no remote query and no change of the
    storage. Otherwise the read gives nothing, and what is under the key is
    removed at this read when it is stale (it carries a time stamp older than
    24 hours) and left as it is when it is not; nothing else in the storage
    is touched by the read. The remote store is then asked for the
    installation number, once. When one row of the table, and no other, has
    exactly that number, the customer returned has the number asked for and
    the name, phone and address of that row, and its coordinates printed as
    text when they are there; it is stored under the key with the time of the
    write. When no row has that number the lookup fails with "not found". A
    lookup repeated within 24 hours of the write returns the identical
    customer with no further remote query, whatever the remote store holds by
    then; after 24 hours the remote store is asked again. *)
Theorem findCustomer_cache (c : Circumstances)
    (customers : list (SupabaseCustomer number)) (dev : Device) (key : jsstring) :
  (∀ cached, fresh_entry (read_at c) (localStorage dev) key cached →
     findCustomerByInstallationNumber c customers dev key = (Return cached, dev)) ∧
  (no_fresh_entry (read_at c) (localStorage dev) key →
     let read := getFromCache (read_at c) (localStorage dev) key in
     read.1 = None ∧
     (∀ entry, localStorage dev !! (CACHE_PREFIX ++ key) = Some entry →
        (stale (read_at c) entry → read.2 = delete (CACHE_PREFIX ++ key) (localStorage dev)) ∧
        (¬ stale (read_at c) entry → read.2 = localStorage dev)) ∧
     (localStorage dev !! (CACHE_PREFIX ++ key) = None → read.2 = localStorage dev) ∧
     (fault c = None →
      (∀ r, r ∈ customers → installation_number r ≠ key) →
      let out := findCustomerByInstallationNumber c customers dev key in
      out.1 = Throw NotFound ∧ queries out.2 = queries dev ++ [key] ∧
      localStorage out.2 = read.2) ∧
     ∀ l1 row l2, fault c = None →
       customers = l1 ++ row :: l2 →
       installation_number row = key →
       (∀ r, r ∈ l1 ++ l2 → installation_number r ≠ key) →
       let customer :=
         {| installationNumber := key;
            name := row_name row;
            phone := row_phone row;
            address := row_address row;
            latitude := match row_latitude row with
                        | Some x => Some (num_toString x)
                        | None => None
                        end;
            longitude := match row_longitude row with
                         | Some x => Some (num_toString x)
                         | None => None
                         end |} in
       let out := findCustomerByInstallationNumber c customers dev key in
       out.1 = Return customer ∧
       queries out.2 = queries dev ++ [key] ∧
       (storage_full c = true → localStorage out.2 = read.2) ∧
       (storage_full c = false →
          localStorage out.2
            = <[CACHE_PREFIX ++ key := CacheRecord customer (saved_at c)]>
                (localStorage dev) ∧
          (∀ c' customers', read_at c' - saved_at c ≤ CACHE_DURATION_MS →
             findCustomerByInstallationNumber c' customers' out.2 key
             = (Return customer, out.2)) ∧
          (∀ c' customers', CACHE_DURATION_MS < read_at c' - saved_at c →
             queries (findCustomerByInstallationNumber c' customers' out.2 key).2
             = queries out.2 ++ [key]))).
Proof.
  split; [intros cached; apply find_hit|].
  intros Hm. cbv zeta. rewrite (getFromCache_miss _ _ _ Hm). cbn [fst snd].
  split; [done|]. split.
  { intros entry Hl. by apply after_miss_stale. }
  split; [apply after_miss_absent|]. split.
  { intros Hfault Hnone.
    by rewrite (find_miss_not_found c customers dev key Hm Hfault
                  (no_match customers key Hnone)). }
  intros l1 row l2 Hfault Hcustomers Hkey Hothers.
  rewrite (find_miss_found c customers dev key row Hm Hfault
             (exact_match customers key l1 row l2 Hcustomers Hkey Hothers)).
  cbn [fst snd queries localStorage].
  unfold mapSupabaseCustomerToApp. rewrite Hkey.
  change (option_map num_toString (row_latitude row))
    with (match row_latitude row with Some x => Some (num_toString x) | None => None end).
  change (option_map num_toString (row_longitude row))
    with (match row_longitude row with Some x => Some (num_toString x) | None => None end).
  split; [done|]. split; [done|]. split; [by intros ->|].
  intros Hfull. rewrite Hfull.
  rewrite save_after_miss. split; [done|]. split.
  - intros c' customers' Hts. apply find_hit. cbn [localStorage].
    rewrite <- (save_after_miss (read_at c) _ (localStorage dev)).
    by apply saved_entry_is_fresh.
  - intros c' customers' Hts. rewrite find_miss_asks; [done|]. cbn [localStorage].
    rewrite <- (save_after_miss (read_at c) _ (localStorage dev)).
    by apply saved_entry_expires.
Qed.

End WithNumbers.

(** *** A run *)

Definition registry : list (SupabaseCustomer jsstring) :=
  [ {| id := Some 1; installation_number := js "40001"; row_name := js "Ayse Kaya";
       row_phone := js "0555"; row_address := js "Izmir";
       row_latitude := Some (js "38.42"); row_longitude := None |};
    {| id := Some 2; installation_number := js "40002"; row_name := js "Ali Can";
       row_phone := js "0532"; row_address := js "Manisa";
       row_latitude := None; row_longitude := None |} ].

Definition new_device : Device := {| localStorage := ∅; queries := [] |}.

Definition at_time (t : Z) : Circumstances :=
  {| read_at := t; saved_at := t + 40; fault := None; storage_full := false |}.

Definition offline_at (t : Z) : Circumstances :=
  {| read_at := t; saved_at := t + 40;
     fault := Some {| code := js ""; message := js "Failed to fetch" |};
     storage_full := false |}.

(** A first lookup fills the cache; within a day the answer is the same even
    though the store cannot be reached and holds nothing any more. *)
Lemma findCustomer_cache_witness :
  let first :=
    findCustomerByInstallationNumber (H := text_number) (at_time 1000) registry
      new_device (js "40001") in
  first.1 = Return {| installationNumber := js "40001"; name := js "Ayse Kaya";
                      phone := js "0555"; address := js "Izmir";
                      latitude := Some (js "38.42"); longitude := None |} ∧
  queries first.2 = [js "40001"] ∧
  findCustomerByInstallationNumber (H := text_number) (offline_at 86401040) []
    first.2 (js "40001") = (first.1, first.2).
Proof.
  cbv zeta.
  destruct (findCustomer_cache (H := text_number) (at_time 1000) registry
              new_device (js "40001")) as [_ Hmiss].
  destruct Hmiss as (_ & _ & _ & _ & Hfound); [exact I|].
  destruct (Hfound []
              {| id := Some 1; installation_number := js "40001";
                 row_name := js "Ayse Kaya"; row_phone := js "0555";
                 row_address := js "Izmir";
                 row_latitude := Some (js "38.42"); row_longitude := None |}
              [ {| id := Some 2; installation_number := js "40002";
                   row_name := js "Ali Can"; row_phone := js "0532";
                   row_address := js "Manisa";
                   row_latitude := None; row_longitude := None |} ]
              eq_refl eq_refl eq_refl) as (Hres & Hq & _ & Hcache).
  { intros r Hr. apply list_elem_of_singleton in Hr as ->. discriminate. }
  destruct (Hcache eq_refl) as (_ & Hagain & _).
  split; [exact Hres|]. split; [exact Hq|].
  rewrite Hres. apply Hagain. vm_compute. discriminate.
Defined.

(** What is under the key and is not an entry of the cache: with a time
    stamp that is older than a day it is removed by the read, without one it
    stays; in both cases the store is asked. *)
Example foreign_text_under_the_key :
  let slot := CACHE_PREFIX ++ js "40001" in
  let old := {| localStorage := {[ slot := Foreign (Some 0) ]}; queries := [] |} in
  let bare := {| localStorage := {[ slot := Foreign None ]}; queries := [] |} in
  let c := offline_at 86400001 in
  localStorage (findCustomerByInstallationNumber (H := text_number) c registry old
                  (js "40001")).2 !! slot = None ∧
  localStorage (findCustomerByInstallationNumber (H := text_number) c registry bare
                  (js "40001")).2 !! slot = Some (Foreign None) ∧
  queries (findCustomerByInstallationNumber (H := text_number) c registry bare
             (js "40001")).2 = [js "40001"].
Proof. vm_compute. done. Qed.

Example lookup_after_expiry_asks_again :
  let first :=
    findCustomerByInstallationNumber (H := text_number) (at_time 1000) registry
      new_device (js "40001") in
  let later :=
    findCustomerByInstallationNumber (H := text_number) (at_time 86401041) registry
      first.2 (js "40001") in
  queries later.2 = [js "40001"; js "40001"] ∧ later.1 = first.1.
Proof. vm_compute. done. Qed.

Example lookup_unknown_number :
  (findCustomerByInstallationNumber (H := text_number) (at_time 1000) registry
     new_device (js "49999")).1 = Throw NotFound.
Proof. reflexivity. Qed.

Example expired_entry_is_removed_even_when_offline :
  let first :=
    findCustomerByInstallationNumber (H := text_number) (at_time 1000) registry
      new_device (js "40001") in
  let later :=
    findCustomerByInstallationNumber (H := text_number) (offline_at 86401041) registry
      first.2 (js "40001") in
  localStorage later.2 !! (CACHE_PREFIX ++ js "40001") = None.
Proof. vm_compute. done. Qed.

End Lookup.

(** ** The search log ([logSearchQuery]) and the search of the main screen
    ([performSearch])

    Source: [src/services/supabaseClient.ts], lines 238-248, and
    [src/components/MainScreen.tsx], lines 39-114. *)

Module Search.

(** A row of the [search_logs] table. [created_at] is set by the store. *)
Record SearchLog := {
  log_username : option jsstring;
  log_installation_number : jsstring;
  created_at : Z
}.

(** What the [insert] call comes back with. *)
Inductive InsertOutcome :=
| Inserted (now : Z)                 (* the row is appended, stamped [now] *)
| InsertError (e : PostgrestError)   (* [{ error }], which the caller does not read *)
| InsertThrows (message : jsstring). (* the call rejects *)

(** [logSearchQuery(username, installationNumber)]: the [try] around the
    insert has a [catch] that only warns. *)
Definition logSearchQuery (outcome : InsertOutcome) (search_logs : list SearchLog)
    (u installationNumber : jsstring) : Result unit * list SearchLog :=
  match outcome with
  | Inserted now =>
      (Return tt,
       search_logs ++ [ {| log_username := Some u;
                           log_installation_number := installationNumber;
                           created_at := now |} ])
  | InsertError _ => (Return tt, search_logs)
  | InsertThrows _ => (Return tt, search_logs)
  end.

(** What the [catch] of [performSearch] catches: the error of the lookup,
    or an exception of a statement that follows a lookup that succeeded.
    [localStorage.setItem] in [saveToRecents] throws when the storage refuses
    the write, and [encodeURIComponent] throws on an address that is not
    well-formed UTF-16. *)
Inductive Caught :=
| LookupError (e : AppError)
| StorageError (message : jsstring)
| UriError (message : jsstring).

(** The state of the main screen. [error] is the error shown, [None] for the
    empty message; for an exception caught it is [err.message], or the text
    'Bir hata oluştu.' when that is empty. [recentSearches] is an array, as
    its type [string[]] says and as the screen writes it to the storage. *)
Record Screen := {
  searchPerformed : bool;
  error : option Caught;
  loading : bool;
  foundCustomer : option Customer;
  mapEmbedUrl : option jsstring;
  externalMapUrl : option jsstring;
  showRecents : bool;
  recentSearches : list jsstring
}.

Definition MAX_RECENT_SEARCHES : nat := 5.

(** [saveToRecents(term)]: most recent first, no duplicate, at most five. *)
Definition saveToRecents (recent : list jsstring) (term : jsstring) : list jsstring :=
  let updated := term :: List.filter (λ s, negb (str_eqb s term)) recent in
  if (MAX_RECENT_SEARCHES <? length updated)%nat
  then take MAX_RECENT_SEARCHES updated else updated.

(** The two map addresses that [performSearch] derives from the coordinates
    or, failing them, from the address of the customer ([None] for the one
    that is not set), or the exception of [encodeURIComponent]. *)
Inductive MapUrls :=
| Urls (embed external : option jsstring)
| UriThrows (message : jsstring).

Section WithNumbers.

Context {number : Type} `{JsNumber number}.

(** The map addresses are computed with floating-point parsing and URI
    encoding, and are kept abstract. *)
Variable map_urls : Customer → MapUrls.

(** The screen when the [catch] has run: the error is shown, and no map
    address has been set. *)
Definition caught (e : Caught) (customer : option Customer)
    (recent : list jsstring) : Screen :=
  {| searchPerformed := true; error := Some e; loading := false;
     foundCustomer := customer; mapEmbedUrl := None; externalMapUrl := None;
     showRecents := false; recentSearches := recent |}.

(** [performSearch(term)] for the user [u]: the screen, the device and the
    log table after the search has settled. [recents_refused] is the message
    of the exception of [localStorage.setItem] in [saveToRecents] when the
    storage refuses that write; the list on the screen has been set by then.
    The log call is made once, at the end of the [try] or in the [catch]; it
    is not awaited, and its [.catch] handler only warns. *)
Definition performSearch (c : Lookup.Circumstances)
    (recents_refused : option jsstring) (log : InsertOutcome)
    (customers : list (SupabaseCustomer number)) (u : jsstring)
    (screen : Screen) (dev : Lookup.Device) (search_logs : list SearchLog)
    (term : jsstring) : Screen * Lookup.Device * list SearchLog :=
  match trim term with
  | [] => (screen, dev, search_logs)
  | _ :: _ =>
      let '(found, dev') :=
        Lookup.findCustomerByInstallationNumber c customers dev (trim term) in
      let logged := (logSearchQuery log search_logs u (trim term)).2 in
      match found with
      | Return customer =>
          let updated := saveToRecents (recentSearches screen) (trim term) in
          match recents_refused with
          | Some message =>
              (caught (StorageError message) (Some customer) updated, dev', logged)
          | None =>
              match map_urls customer with
              | UriThrows message =>
                  (caught (UriError message) (Some customer) updated, dev', logged)
              | Urls embed external =>
                  ({| searchPerformed := true; error := None; loading := false;
                      foundCustomer := Some customer;
                      mapEmbedUrl := embed;
                      externalMapUrl := external;
                      showRecents := false;
                      recentSearches := updated |},
                   dev', logged)
              end
          end
      | Throw err =>
          (caught (LookupError err) None (recentSearches screen), dev', logged)
      end
  end.

(** C9. [logSearchQuery] returns normally whatever the insert does. A search
    whose lookup succeeds sets the customer found and, the insert going
    through, appends to the log one entry with the acting username and the
    (trimmed) installation number that was asked; when the insert does not go
    through the log is as it was. This is so on every path through the
    search: when the search runs to its end, no error is shown and the map
    addresses are set; when the storage refuses the list of recent searches,
    or the address cannot be encoded, that exception is shown as the error
    and no map address is set, and the log call is made all the same. The
    screen and the cache after a search are the same whatever happened to the
    log call. *)
Theorem logging_never_propagates (c : Lookup.Circumstances)
    (recents_refused : option jsstring)
    (customers : list (SupabaseCustomer number)) (u : jsstring)
    (screen : Screen) (dev : Lookup.Device) (search_logs : list SearchLog)
    (term : jsstring) :
  (∀ log installationNumber,
     (logSearchQuery log search_logs u installationNumber).1 = Return tt) ∧
  (∀ log customer,
     trim term ≠ [] →
     (Lookup.findCustomerByInstallationNumber c customers dev (trim term)).1
       = Return customer →
     let after :=
       performSearch c recents_refused log customers u screen dev search_logs term in
     foundCustomer after.1.1 = Some customer ∧
     (∀ now, log = Inserted now →
        after.2 = search_logs ++ [ {| log_username := Some u;
                                      log_installation_number := trim term;
                                      created_at := now |} ]) ∧
     ((∀ now, log ≠ Inserted now) → after.2 = search_logs) ∧
     (∀ embed external,
        recents_refused = None → map_urls customer = Urls embed external →
        error after.1.1 = None ∧
        mapEmbedUrl after.1.1 = embed ∧ externalMapUrl after.1.1 = external) ∧
     (∀ message, recents_refused = Some message →
        error after.1.1 = Some (StorageError message) ∧
        mapEmbedUrl after.1.1 = None ∧ externalMapUrl after.1.1 = None) ∧
     (∀ message, recents_refused = None → map_urls customer = UriThrows message →
        error after.1.1 = Some (UriError message) ∧
        mapEmbedUrl after.1.1 = None ∧ externalMapUrl after.1.1 = None)) ∧
  (∀ log log',
     (performSearch c recents_refused log customers u screen dev search_logs term).1
     = (performSearch c recents_refused log' customers u screen dev search_logs term).1).
Proof.
  split; [|split].
  - intros log n. by destruct log.
  - intros log customer Hterm Hfound. cbv zeta. unfold performSearch.
    destruct (trim term) as [|ch rest] eqn:Ht; [done|].
    destruct (Lookup.findCustomerByInstallationNumber c customers dev (ch :: rest))
      as [found dev']. cbn [fst] in Hfound. subst found.
    assert (Hlog : (∀ now, log = Inserted now →
                      (logSearchQuery log search_logs u (ch :: rest)).2
                      = search_logs ++ [ {| log_username := Some u;
                                            log_installation_number := ch :: rest;
                                            created_at := now |} ]) ∧
                   ((∀ now, log ≠ Inserted now) →
                      (logSearchQuery log search_logs u (ch :: rest)).2 = search_logs)).
    { split.
      - by intros now ->.
      - intros Hno. destruct log as [now| |]; [by destruct (Hno now)|done|done]. }
    destruct Hlog as [Hin Hout].
    destruct recents_refused as [message|];
      [|destruct (map_urls customer) as [embed external|message]];
      cbn [fst snd caught foundCustomer error mapEmbedUrl externalMapUrl];
      (split; [done|]); (split; [exact Hin|]); (split; [exact Hout|]);
      (split; [intros ? ? Hr Hm; (discriminate || (injection Hm as <- <-; done))|]);
      (split; [intros ? Hr; (discriminate || (injection Hr as <-; done))|]);
      intros ? Hr Hm; (discriminate || (injection Hm as <-; done)).
  - intros log log'. unfold performSearch.
    destruct (trim term) as [|ch rest]; [done|].
    destruct (Lookup.findCustomerByInstallationNumber c customers dev (ch :: rest))
      as [[customer|err] dev']; [|reflexivity].
    destruct recents_refused; [reflexivity|].
    by destruct (map_urls customer).
Qed.

End WithNumbers.

(** *** A run *)

Definition blank_screen : Screen :=
  {| searchPerformed := false; error := None; loading := false;
     foundCustomer := None; mapEmbedUrl := None; externalMapUrl := None;
     showRecents := true; recentSearches := [js "40002"; js "40001"] |}.

Definition no_map (c : Customer) : MapUrls := Urls None None.

(** The user 1002 looks up " 40001 "; the log insert goes through. *)
Lemma logging_never_propagates_witness :
  let after :=
    performSearch (H := text_number) no_map (Lookup.at_time 1000) None (Inserted 1100)
      Lookup.registry (js "1002") blank_screen Lookup.new_device []
      (js " 40001 ") in
  after.2 = [ {| log_username := Some (js "1002"); log_installation_number := js "40001";
                 created_at := 1100 |} ] ∧
  error after.1.1 = None ∧
  ∀ log',
    after.1 = (performSearch (H := text_number) no_map (Lookup.at_time 1000) None log'
                 Lookup.registry (js "1002") blank_screen Lookup.new_device []
                 (js " 40001 ")).1.
Proof.
  cbv zeta.
  destruct (logging_never_propagates (H := text_number) no_map (Lookup.at_time 1000)
              None Lookup.registry (js "1002") blank_screen Lookup.new_device []
              (js " 40001 ")) as (_ & Hlogged & Hsame).
  destruct (Hlogged (Inserted 1100)
              (Lookup.mapSupabaseCustomerToApp (H := text_number)
                 {| id := Some 1; installation_number := js "40001";
                    row_name := js "Ayse Kaya"; row_phone := js "0555";
                    row_address := js "Izmir";
                    row_latitude := Some (js "38.42"); row_longitude := None |}))
    as (_ & Hentry & _ & Hshown & _).
  - discriminate.
  - reflexivity.
  - split; [exact (Hentry 1100 eq_refl)|].
    split; [exact (proj1 (Hshown None None eq_refl eq_refl))|].
    intros log'; apply Hsame.
Defined.

Example search_with_failing_log :
  let after :=
    performSearch (H := text_number) no_map (Lookup.at_time 1000) None
      (InsertThrows (js "Failed to fetch"))
      Lookup.registry (js "1002") blank_screen Lookup.new_device []
      (js " 40001 ") in
  foundCustomer after.1.1
    = Some {| installationNumber := js "40001"; name := js "Ayse Kaya";
              phone := js "0555"; address := js "Izmir";
              latitude := Some (js "38.42"); longitude := None |} ∧
  error after.1.1 = None ∧
  recentSearches after.1.1 = [js "40001"; js "40002"] ∧
  after.2 = [].
Proof. vm_compute. done. Qed.

(** The storage refuses the list of recent searches: the customer is found,
    an error is shown all the same, and the search is in the log. *)
Example search_with_storage_refusing :
  let after :=
    performSearch (H := text_number) no_map (Lookup.at_time 1000)
      (Some (js "The quota has been exceeded.")) (Inserted 1100)
      Lookup.registry (js "1002") blank_screen Lookup.new_device []
      (js " 40001 ") in
  foundCustomer after.1.1
    = Some {| installationNumber := js "40001"; name := js "Ayse Kaya";
              phone := js "0555"; address := js "Izmir";
              latitude := Some (js "38.42"); longitude := None |} ∧
  error after.1.1 = Some (StorageError (js "The quota has been exceeded.")) ∧
  recentSearches after.1.1 = [js "40001"; js "40002"] ∧
  after.2 = [ {| log_username := Some (js "1002"); log_installation_number := js "40001";
                 created_at := 1100 |} ].
Proof. vm_compute. done. Qed.

Example blank_term_does_nothing :
  performSearch (H := text_number) no_map (Lookup.at_time 1000) None (Inserted 1100)
    Lookup.registry (js "1002") blank_screen Lookup.new_device [] (js "   ")
  = (blank_screen, Lookup.new_device, []).
Proof. reflexivity. Qed.

End Search.

(** ** Usage statistics ([getUserActivityStats])

    Source: [src/services/supabaseClient.ts], lines 250-333. *)

Module Stats.

Import Search.

(** A row of [user_stats_view]. *)
Record ViewRow := {
  view_username : jsstring;
  query_count : option Z;
  last_login : option Z
}.

(** [UserActivityStat]: an entry of the result. *)
Record UserActivityStat := {
  stat_username : jsstring;
  queryCount : Z;
  lastLogin : jsstring
}.

(** The value kept per user while the logs are grouped;
    [lastLoginDate] is [null] or a date, as a time value. *)
Record Item := {
  count : Z;
  lastLoginDate : option Z
}.

(** "Giriş Yapmadı", shown for a user without a date. *)
Definition never_logged_in : jsstring :=
  js "Giri" ++ [351%N] ++ js " Yapmad" ++ [305%N].

(** *** The object [stats]

    [stats] is an ordinary object used as a dictionary. Its own properties
    are kept in the order of their creation. A read [stats[k]] that finds no
    own property goes on to [Object.prototype]; [inherited] lists the names
    under which that read finds a truthy value. *)
Record StatsObject := {
  own : list (jsstring * Item);
  inherited : list jsstring
}.

(** The properties of [Object.prototype]. *)
Definition ObjectPrototype_keys : list jsstring :=
  [ js "constructor"; js "__defineGetter__"; js "__defineSetter__";
    js "hasOwnProperty"; js "__lookupGetter__"; js "__lookupSetter__";
    js "isPrototypeOf"; js "propertyIsEnumerable"; js "toString";
    js "valueOf"; js "__proto__"; js "toLocaleString" ].

(** [{}]. *)
Definition empty_object : StatsObject :=
  {| own := []; inherited := ObjectPrototype_keys |}.

Fixpoint get_own (k : jsstring) (props : list (jsstring * Item)) : option Item :=
  match props with
  | [] => None
  | (k', v) :: rest => if str_eqb k' k then Some v else get_own k rest
  end.

(** Writing an own property: in place when it exists, at the end otherwise. *)
Fixpoint set_own (k : jsstring) (v : Item) (props : list (jsstring * Item))
    : list (jsstring * Item) :=
  match props with
  | [] => [(k, v)]
  | (k', v') :: rest =>
      if str_eqb k' k then (k', v) :: rest else (k', v') :: set_own k v rest
  end.

(** [item.count++] and the update of [item.lastLoginDate] with [logDate]. *)
Definition touch (logDate : Z) (item : Item) : Item :=
  {| count := count item + 1;
     lastLoginDate :=
       match lastLoginDate item with
       | None => Some logDate
       | Some d => if logDate >? d then Some logDate else Some d
       end |}.

(** The callback of [logs.forEach]. When [stats[username]] is found on the
    prototype chain, it is that object which is counted on and [stats]
    gets no property; for [__proto__] that object is [Object.prototype]
    itself, which from then on hands a [lastLoginDate] to every object. *)
Definition record_log (stats : StatsObject) (log : SearchLog) : StatsObject :=
  match log_username log with
  | None => stats
  | Some [] => stats
  | Some u =>
      match get_own u (own stats) with
      | Some item =>
          {| own := set_own u (touch (created_at log) item) (own stats);
             inherited := inherited stats |}
      | None =>
          if bool_decide (u ∈ inherited stats)
          then {| own := own stats;
                  inherited :=
                    if str_eqb u (js "__proto__")
                    then js "lastLoginDate" :: inherited stats
                    else inherited stats |}
          else {| own := set_own u (touch (created_at log)
                                      {| count := 0; lastLoginDate := None |})
                           (own stats);
                  inherited := inherited stats |}
      end
  end.

(** *** [Object.keys]: integer keys in ascending order, then the others in
    the order of their creation *)

Definition is_digit (c : N) : bool := (48 <=? c)%N && (c <=? 57)%N.

Fixpoint digits_value (acc : N) (s : jsstring) : N :=
  match s with
  | [] => acc
  | c :: s' => digits_value (acc * 10 + (c - 48)) s'
  end.

(** The array index a key stands for: a decimal numeral without a leading
    zero, below 2^32 - 1. *)
Definition array_index (k : jsstring) : option N :=
  match k with
  | [] => None
  | c :: rest =>
      if forallb is_digit k && (negb (bool_decide (c = 48%N)) || bool_decide (rest = []))
      then if (digits_value 0 k <? 4294967295)%N then Some (digits_value 0 k) else None
      else None
  end.

Definition is_array_index (k : jsstring) : Prop := is_Some (array_index k).

Definition index_le (k1 k2 : jsstring) : Prop :=
  (default 0 (array_index k1) ≤ default 0 (array_index k2))%N.

#[export] Instance is_array_index_dec k : Decision (is_array_index k).
Proof. unfold is_array_index. apply _. Defined.

#[export] Instance index_le_dec k1 k2 : Decision (index_le k1 k2).
Proof. unfold index_le. apply _. Defined.

Definition Object_keys (props : list (jsstring * Item)) : list jsstring :=
  merge_sort index_le (filter is_array_index (map fst props))
  ++ filter (λ k, ¬ is_array_index k) (map fst props).

Section WithLocale.

(** [date.toLocaleDateString('tr-TR')] and
    [date.toLocaleTimeString('tr-TR', { hour: '2-digit', minute: '2-digit' })]
    of the runtime. *)
Variables toLocaleDateString toLocaleTimeString : Z → jsstring.

Definition format (date : Z) : jsstring :=
  toLocaleDateString date ++ [32%N] ++ toLocaleTimeString date.

(** The callback of [data.map] on the rows of the view. *)
Definition view_stat (stat : ViewRow) : UserActivityStat :=
  {| stat_username := view_username stat;
     queryCount := default 0 (query_count stat);
     lastLogin := match last_login stat with
                  | Some d => format d
                  | None => never_logged_in
                  end |}.

(** The callback of [Object.keys(stats).map]. *)
Definition item_stat (stats : StatsObject) (u : jsstring) : UserActivityStat :=
  let item := default {| count := 0; lastLoginDate := None |} (get_own u (own stats)) in
  {| stat_username := u;
     queryCount := count item;
     lastLogin := match lastLoginDate item with
                  | Some d => format d
                  | None => never_logged_in
                  end |}.

(** The manual computation over the rows of [search_logs]. *)
Definition fallback (logs : list SearchLog) : list UserActivityStat :=
  let stats := fold_left record_log logs empty_object in
  map (item_stat stats) (Object_keys (own stats)).

(** [getUserActivityStats()], given the answers of the two selects. *)
Definition getUserActivityStats (view : Response (list ViewRow))
    (logs : Response (list SearchLog)) : list UserActivityStat :=
  match Supabase.error view, data view with
  | None, Some rows => map view_stat rows
  | _, _ =>
      match Supabase.error logs with
      | Some _ => []
      | None =>
          match data logs with
          | None => []
          | Some rows => fallback rows
          end
      end
  end.

(** *** The vocabulary of the specification *)

(** The log entries of a user. *)
Definition entries (u : jsstring) (logs : list SearchLog) : list SearchLog :=
  List.filter (λ log, bool_decide (log_username log = Some u)) logs.

(** [t] is the greatest of the time values [ts]. *)
Definition latest (ts : list Z) (t : Z) : Prop :=
  t ∈ ts ∧ ∀ t', t' ∈ ts → t' ≤ t.

(** No username of the logs names a property of [Object.prototype]. *)
Definition plain_usernames (logs : list SearchLog) : Prop :=
  ∀ log u, log ∈ logs → log_username log = Some u → u ∉ ObjectPrototype_keys.

(** *** Own properties *)

Lemma get_own_None k props : get_own k props = None ↔ k ∉ map fst props.
Proof.
  induction props as [|[k' v] props IH]; cbn [get_own map fst].
  - split; [intros _ Hin; inversion Hin | done].
  - destruct (str_eqb k' k) eqn:Hk.
    + apply str_eqb_true in Hk as ->. split; [done|]. intros Hn. exfalso. apply Hn. left.
    + apply str_eqb_false in Hk. rewrite IH. split.
      * intros Hn Hin. inversion Hin; subst; [done|]. by apply Hn.
      * intros Hn Hin. apply Hn. by right.
Qed.

Lemma get_own_set_own k v props : get_own k (set_own k v props) = Some v.
Proof.
  induction props as [|[k' v'] props IH]; cbn [set_own get_own].
  - by rewrite str_eqb_refl.
  - destruct (str_eqb k' k) eqn:Hk; cbn [get_own]; by rewrite Hk.
Qed.

Lemma get_own_set_own_ne k k' v props :
  k ≠ k' → get_own k' (set_own k v props) = get_own k' props.
Proof.
  intros Hne. induction props as [|[k0 v0] props IH]; cbn [set_own get_own].
  - by rewrite (proj2 (str_eqb_false k k') Hne).
  - destruct (str_eqb k0 k) eqn:Hk; cbn [get_own]; [|by rewrite IH].
    apply str_eqb_true in Hk as ->. by rewrite (proj2 (str_eqb_false k k') Hne).
Qed.

Lemma keys_set_own_old k v props item :
  get_own k props = Some item → map fst (set_own k v props) = map fst props.
Proof.
  induction props as [|[k0 v0] props IH]; cbn [set_own get_own map fst]; [done|].
  destruct (str_eqb k0 k); [done|]. intros Hg. cbn [map fst]. by rewrite IH.
Qed.

Lemma keys_set_own_new k v props :
  get_own k props = None → map fst (set_own k v props) = map fst props ++ [k].
Proof.
  induction props as [|[k0 v0] props IH]; cbn [set_own get_own map fst]; [done|].
  destruct (str_eqb k0 k); [done|]. intros Hg. cbn [map fst app]. by rewrite IH.
Qed.

(** *** The grouping *)

Lemma entries_snoc u logs log :
  entries u (logs ++ [log])
  = entries u logs ++ (if bool_decide (log_username log = Some u) then [log] else []).
Proof. unfold entries. rewrite List.filter_app. reflexivity. Qed.

Lemma latest_first t : latest [t] t.
Proof.
  split; [left|]. intros t' Hin. apply list_elem_of_singleton in Hin. lia.
Qed.

Lemma latest_snoc ts t t' :
  latest ts t → latest (ts ++ [t']) (if t' >? t then t' else t).
Proof.
  intros [Hin Hmax]. destruct (Z.gtb_spec t' t); split.
  - apply elem_of_app. right. left.
  - intros x Hx. apply elem_of_app in Hx as [Hx|Hx].
    + specialize (Hmax x Hx). lia.
    + apply list_elem_of_singleton in Hx. lia.
  - apply elem_of_app. by left.
  - intros x Hx. apply elem_of_app in Hx as [Hx|Hx].
    + by apply Hmax.
    + apply list_elem_of_singleton in Hx. lia.
Qed.

(** What [stats] holds once the rows [logs] have been visited. *)
Definition grouped (logs : list SearchLog) (stats : StatsObject) : Prop :=
  inherited stats = ObjectPrototype_keys ∧
  NoDup (map fst (own stats)) ∧
  (∀ u, get_own u (own stats) = None ↔ u = [] ∨ entries u logs = []) ∧
  (∀ u item, get_own u (own stats) = Some item →
     count item = Z.of_nat (length (entries u logs)) ∧
     ∃ t, lastLoginDate item = Some t ∧ latest (map created_at (entries u logs)) t).

Lemma grouped_empty : grouped [] empty_object.
Proof.
  repeat split; try done.
  - constructor.
  - intros _. by right.
Qed.

Lemma entries_other u logs log :
  log_username log ≠ Some u → entries u (logs ++ [log]) = entries u logs.
Proof.
  intros Hne. rewrite entries_snoc, bool_decide_eq_false_2 by done.
  apply app_nil_r.
Qed.

Lemma entries_same u logs log :
  log_username log = Some u → entries u (logs ++ [log]) = entries u logs ++ [log].
Proof. intros He. by rewrite entries_snoc, bool_decide_eq_true_2. Qed.

(** Rows without a username leave the grouping as it is. *)
Lemma grouped_skip logs stats log :
  grouped logs stats →
  (log_username log = None ∨ log_username log = Some []) →
  grouped (logs ++ [log]) stats.
Proof.
  intros (Hi & Hnd & Hnone & Hsome) Hskip. repeat split; try done.
  - intros Hg. apply Hnone in Hg as [->|He]; [by left|].
    destruct (decide (u = [])) as [->|Hu]; [by left|]. right.
    rewrite entries_other; [done|]. destruct Hskip as [Hs|Hs]; rewrite Hs; congruence.
  - intros [->|He]; [apply Hnone; by left|].
    apply Hnone. destruct (decide (u = [])) as [->|Hu]; [by left|]. right.
    rewrite entries_other in He; [done|].
    destruct Hskip as [Hs|Hs]; rewrite Hs; congruence.
  - assert (Hu : u ≠ []).
    { intros ->. assert (get_own [] (own stats) = None) as Hn by (apply Hnone; by left).
      congruence. }
    rewrite entries_other; [by apply Hsome|].
    destruct Hskip as [Hs|Hs]; rewrite Hs; congruence.
  - assert (Hu : u ≠ []).
    { intros ->. assert (get_own [] (own stats) = None) as Hn by (apply Hnone; by left).
      congruence. }
    rewrite entries_other; [by apply Hsome|].
    destruct Hskip as [Hs|Hs]; rewrite Hs; congruence.
Qed.

(** A row with a username that is not found on the prototype chain is
    counted on the own property of that name. *)
Lemma grouped_count logs stats log u :
  grouped logs stats →
  log_username log = Some u → u ≠ [] → u ∉ ObjectPrototype_keys →
  grouped (logs ++ [log]) (record_log stats log).
Proof.
  intros (Hi & Hnd & Hnone & Hsome) Hu Hne Hplain.
  assert (Hrec : record_log stats log
                 = {| own := set_own u (touch (created_at log)
                                          (default {| count := 0; lastLoginDate := None |}
                                             (get_own u (own stats))))
                               (own stats);
                      inherited := inherited stats |}).
  { unfold record_log. rewrite Hu. destruct u as [|ch u']; [done|].
    destruct (get_own (ch :: u') (own stats)) as [item|]; [done|].
    rewrite Hi, bool_decide_eq_false_2 by done. done. }
  rewrite Hrec. clear Hrec. split; [done|]. cbn [own].
  split; [|split].
  - destruct (get_own u (own stats)) as [item|] eqn:Hg.
    + by rewrite (keys_set_own_old _ _ _ _ Hg).
    + rewrite (keys_set_own_new _ _ _ Hg). apply NoDup_app. repeat split.
      * done.
      * intros x Hx Hx'. apply list_elem_of_singleton in Hx' as ->.
        by apply get_own_None in Hg.
      * apply NoDup_singleton.
  - intros v. destruct (decide (u = v)) as [<-|Hv].
    + rewrite get_own_set_own. split; [done|]. intros [->|He]; [done|].
      rewrite (entries_same _ _ _ Hu) in He. by destruct (entries u logs).
    + rewrite get_own_set_own_ne by done. rewrite Hnone.
      rewrite entries_other; [done|]. rewrite Hu. congruence.
  - intros v item. destruct (decide (u = v)) as [<-|Hv].
    + rewrite get_own_set_own. intros [= <-].
      rewrite (entries_same _ _ _ Hu), length_app, map_app. cbn [length map].
      destruct (get_own u (own stats)) as [old|] eqn:Hg;
        cbn [default from_option Datatypes.id touch count lastLoginDate].
      * destruct (Hsome u old Hg) as (Hc & t & Ht & Hlatest).
        rewrite Hc, Ht. split; [lia|].
        exists (if created_at log >? t then created_at log else t).
        split; [by destruct (created_at log >? t)|]. by apply latest_snoc.
      * apply Hnone in Hg as [->|He]; [done|]. rewrite He. cbn [length map app].
        split; [done|]. exists (created_at log). split; [done|]. apply latest_first.
    + rewrite get_own_set_own_ne by done.
      rewrite entries_other; [apply Hsome|]. rewrite Hu. congruence.
Qed.

Lemma plain_usernames_snoc logs log :
  plain_usernames (logs ++ [log]) →
  plain_usernames logs ∧
  (∀ u, log_username log = Some u → u ∉ ObjectPrototype_keys).
Proof.
  intros Hp. split.
  - intros l u Hin. apply Hp, elem_of_app. by left.
  - intros u. apply Hp, elem_of_app. right. left.
Qed.

Lemma grouped_fold logs : ∀ seen stats,
  grouped seen stats → plain_usernames logs →
  grouped (seen ++ logs) (fold_left record_log logs stats).
Proof.
  induction logs as [|log logs IH]; intros seen stats Hg Hp.
  - by rewrite app_nil_r.
  - cbn [fold_left]. replace (seen ++ log :: logs) with ((seen ++ [log]) ++ logs)
      by (by rewrite <- app_assoc).
    assert (Hp' : plain_usernames logs).
    { intros l u Hin. apply Hp. by right. }
    apply IH; [|done].
    destruct (log_username log) as [[|ch u]|] eqn:Hu.
    + assert (record_log stats log = stats) as -> by (unfold record_log; by rewrite Hu).
      apply grouped_skip; [done|by right].
    + apply (grouped_count _ _ _ (ch :: u)); [done|done|done|].
      apply (Hp log); [left|done].
    + assert (record_log stats log = stats) as -> by (unfold record_log; by rewrite Hu).
      apply grouped_skip; [done|by left].
Qed.

(** [Object.keys] lists every own key once. *)
Lemma Object_keys_Permutation props : Object_keys props ≡ₚ map fst props.
Proof.
  unfold Object_keys. rewrite merge_sort_Permutation.
  apply filter_app_complement.
Qed.


(** *** The fallback is exact *)

Lemma stat_usernames stats (ks : list jsstring) :
  map stat_username (map (item_stat stats) ks) = ks.
Proof. induction ks as [|k ks IH]; cbn [map]; [done|]. by rewrite IH. Qed.


End WithLocale.

(** *** A run *)

Definition two_digits (n : Z) : jsstring :=
  Time.padStart 2 Time.zero_digit (Time.Number_toString n).

(** The texts of the tr-TR locale, "DD.MM.YYYY" and "HH:mm", for a date
    given as a local time value. *)
Definition tr_date (t : Z) : jsstring :=
  two_digits (Time.getDate t) ++ js "." ++ two_digits (Time.getMonth t + 1)
  ++ js "." ++ Time.Number_toString (Time.getFullYear t).

Definition tr_time (t : Z) : jsstring :=
  two_digits (Time.getHours t) ++ js ":" ++ two_digits (Time.getMinutes t).

Definition searched (u : option jsstring) (t : Z) : SearchLog :=
  {| log_username := u; log_installation_number := js "40001"; created_at := t |}.

Definition sample_logs : list SearchLog :=
  [ searched (Some (js "1002")) (Time.local_time 2025 6 10 9 15);
    searched (Some (js "1001")) (Time.local_time 2025 6 10 9 30);
    searched None (Time.local_time 2025 6 10 9 31);
    searched (Some (js "1002")) (Time.local_time 2025 6 11 16 5);
    searched (Some (js "1002")) (Time.local_time 2025 6 9 8 0) ].


Lemma sample_logs_plain : plain_usernames sample_logs.
Proof.
  intros log u Hin Hu. unfold sample_logs in Hin.
  repeat (apply elem_of_cons in Hin as [->|Hin];
          [cbn in Hu; try discriminate; injection Hu as <-;
           apply (bool_decide_unpack _); vm_compute; exact I|]).
  inversion Hin.
Qed.


Example fallback_on_sample_logs :
  fallback tr_date tr_time sample_logs
  = [ {| stat_username := js "1001"; queryCount := 1;
         lastLogin := js "10.06.2025 09:30" |};
      {| stat_username := js "1002"; queryCount := 3;
         lastLogin := js "11.06.2025 16:05" |} ].
Proof. vm_compute. reflexivity. Qed.

(** A user named after a property of [Object.prototype] is counted on that
    property and does not reach the result. *)
Example fallback_loses_prototype_names :
  fallback tr_date tr_time
    [ searched (Some (js "constructor")) 1000; searched (Some (js "1001")) 2000 ]
  = [ {| stat_username := js "1001"; queryCount := 1;
         lastLogin := tr_date 2000 ++ js " " ++ tr_time 2000 |} ].
Proof. vm_compute. reflexivity. Qed.

Example view_is_preferred :
  getUserActivityStats tr_date tr_time
    {| data := Some [ {| view_username := js "1001"; query_count := None;
                         last_login := None |} ];
       Supabase.error := None |}
    {| data := Some sample_logs; Supabase.error := None |}
  = [ {| stat_username := js "1001"; queryCount := 0; lastLogin := never_logged_in |} ].
Proof. reflexivity. Qed.

End Stats.

(** ** CSV export and import ([exportCustomersAsCSV], [processCSV])

    Source: [src/services/supabaseClient.ts], lines 404-431, and
    [src/unnamed/part_001] (the admin screen), lines 276-303. *)

Module Csv.

Definition LF : N := 10.
Definition CR : N := 13.
Definition quote : N := 34.
Definition comma : N := 44.
Definition semicolon : N := 59.

(** [s.split(/\r?\n/)]: a line ends at a line feed, which takes a carriage
    return just before it along. *)
Fixpoint split_lines (s : jsstring) : list jsstring :=
  match s with
  | [] => [[]]
  | c :: rest =>
      if bool_decide (c = LF) then [] :: split_lines rest
      else
        match rest with
        | c' :: rest' =>
            if bool_decide (c = CR) && bool_decide (c' = LF)
            then [] :: split_lines rest'
            else match split_lines rest with
                 | l :: ls => (c :: l) :: ls
                 | [] => [[c]]
                 end
        | [] => [[c]]
        end
  end.

(** [s.replace(/^"|"$/g, '')]: a double quote at the very start and a double
    quote at the very end are removed. *)
Definition strip_leading (s : jsstring) : jsstring :=
  match s with
  | c :: s' => if bool_decide (c = quote) then s' else s
  | [] => []
  end.

Definition strip_quotes (s : jsstring) : jsstring :=
  reverse (strip_leading (reverse (strip_leading s))).

(** The lower case of an ASCII code unit. *)
Definition ascii_lower (c : N) : N :=
  if (65 <=? c)%N && (c <=? 90)%N then (c + 32)%N else c.

Definition is_ascii (c : N) : Prop := (c < 128)%N.

(** The first line of an export. *)
Definition header_line : jsstring :=
  js "Tesisat No; Ad Soyad; Telefon; Adres; Enlem; Boylam".

(** The number of rows the export asks for: [.limit(50000)]. *)
Definition EXPORT_LIMIT : nat := 50 * 1000.

Section WithRuntime.

Context {number : Type} `{JsNumber number}.

(** [String.prototype.toLowerCase] of the runtime. *)
Variable toLowerCase : jsstring → jsstring.

(** *** Export *)

(** [row.latitude || ''] as [join] prints it. *)
Definition coordinate_text (x : option number) : jsstring :=
  match x with
  | Some n => if num_truthy n then num_toString n else []
  | None => []
  end.

(** [s || ''] for a string. *)
Definition or_blank (s : jsstring) : jsstring :=
  match s with
  | [] => []
  | _ :: _ => s
  end.

(** The array [line] of one row, joined with semicolons. *)
Definition export_line (row : SupabaseCustomer number) : jsstring :=
  join_with [semicolon]
    [ installation_number row;
      [quote] ++ or_blank (row_name row) ++ [quote];
      or_blank (row_phone row);
      [quote] ++ or_blank (row_address row) ++ [quote];
      coordinate_text (row_latitude row);
      coordinate_text (row_longitude row) ].

(** The text built from the rows the select returned. *)
Definition csv_of (rows : list (SupabaseCustomer number)) : jsstring :=
  fold_left (λ csvContent row, csvContent ++ export_line row ++ [LF]) rows
    (header_line ++ [LF]).



(** *** Import *)

(** The body of the loop of [processCSV] for one line: the customer it
    pushes, or nothing where it [continue]s. *)
Definition parse_line (l : jsstring) : option Customer :=
  let line := trim l in
  match line with
  | [] => None
  | _ :: _ =>
      let separator := if includes line [semicolon] then semicolon else comma in
      let cols := map (λ c, strip_quotes (trim c)) (split_char separator line) in
      if (length cols <? 2)%nat then None
      else Some {| installationNumber := nth 0 cols [];
                   name := or_blank (nth 1 cols []);
                   phone := or_blank (nth 2 cols []);
                   address := or_blank (nth 3 cols []);
                   latitude := Some (or_blank (nth 4 cols []));
                   longitude := Some (or_blank (nth 5 cols [])) |}
  end.

(** The array [customers] that [processCSV] builds from the text of the
    file, before it hands it to [bulkUpsertCustomers]. *)
Definition parsed_customers (csvText : jsstring) : list Customer :=
  let lines := split_lines csvText in
  let first := toLowerCase (hd [] lines) in
  let startIndex :=
    if includes first (js "tesisat") || includes first (js "installation")
    then 1%nat else 0%nat in
  omap parse_line (drop startIndex lines).

End WithRuntime.

(** [toLowerCase] on ASCII text. *)
Definition lower_ascii (s : jsstring) : jsstring := map ascii_lower s.

(** *** Lines, quotes and columns *)

Section Roundtrip.

Context {number : Type} `{JsNumber number}.

Variable toLowerCase : jsstring → jsstring.

Lemma or_blank_id (s : jsstring) : or_blank s = s.
Proof. by destruct s. Qed.

Lemma strip_leading_keep (s : jsstring) :
  head s ≠ Some quote → strip_leading s = s.
Proof.
  destruct s as [|c s]; [done|]. cbn [head strip_leading]. intros Hc.
  rewrite bool_decide_eq_false_2; [done|]. congruence.
Qed.

Lemma strip_quotes_keep (s : jsstring) :
  head s ≠ Some quote → last s ≠ Some quote → strip_quotes s = s.
Proof.
  intros Hh Hl. unfold strip_quotes. rewrite (strip_leading_keep s Hh).
  rewrite strip_leading_keep; [apply reverse_involutive|].
  by rewrite head_reverse.
Qed.

Lemma strip_quotes_quoted (s : jsstring) :
  strip_quotes ([quote] ++ s ++ [quote]) = s.
Proof.
  unfold strip_quotes. cbn [app strip_leading].
  rewrite bool_decide_eq_true_2 by done.
  rewrite reverse_snoc. cbn [strip_leading].
  rewrite bool_decide_eq_true_2 by done. apply reverse_involutive.
Qed.

(** A line without a line feed, not ending in a carriage return, followed by
    a line feed, is the first line of the text and the rest is split on its
    own. *)
Lemma split_lines_line (line rest : jsstring) :
  LF ∉ line → last line ≠ Some CR →
  split_lines (line ++ LF :: rest) = line :: split_lines rest.
Proof.
  induction line as [|c line IH]; intros Hlf Hcr.
  - cbn [app split_lines]. by rewrite bool_decide_eq_true_2.
  - assert (Hc : c ≠ LF) by (intros ->; apply Hlf; left).
    assert (Hline : LF ∉ line) by (intros Hin; apply Hlf; by right).
    cbn [app split_lines]. rewrite bool_decide_eq_false_2 by done.
    destruct line as [|c' line'].
    + cbn [app]. assert (c ≠ CR) by (intros ->; by apply Hcr).
      rewrite (bool_decide_eq_false_2 (c = CR)) by done. cbn [andb].
      cbn [split_lines]. by rewrite bool_decide_eq_true_2.
    + cbn [app]. assert (Hc' : c' ≠ LF) by (intros ->; apply Hline; left).
      rewrite (bool_decide_eq_false_2 (c' = LF)) by done. rewrite andb_false_r.
      change (c' :: line' ++ LF :: rest) with ((c' :: line') ++ LF :: rest).
      rewrite IH; [done|done|]. by rewrite last_cons_cons in Hcr.
Qed.

Lemma split_lines_lines (lines : list jsstring) :
  Forall (λ l, (LF ∉ l) ∧ (last l ≠ Some CR)) lines →
  split_lines (concat (map (λ line, line ++ [LF]) lines)) = lines ++ [[]].
Proof.
  induction lines as [|line lines IH]; intros Hall; [done|].
  inversion Hall as [|? ? [Hlf Hcr] Hrest]; subst.
  cbn [map concat]. rewrite <- app_assoc. cbn [app].
  rewrite split_lines_line by done. by rewrite IH.
Qed.

Lemma csv_of_lines (rows : list (SupabaseCustomer number)) :
  csv_of rows
  = header_line ++ LF :: concat (map (λ line, line ++ [LF]) (map export_line rows)).
Proof.
  unfold csv_of.
  assert (Hgen : ∀ acc,
            fold_left (λ csvContent row, csvContent ++ export_line row ++ [LF]) rows acc
            = acc ++ concat (map (λ line, line ++ [LF]) (map export_line rows))).
  { induction rows as [|row rows IH]; intros acc; cbn [fold_left map concat].
    - by rewrite app_nil_r.
    - rewrite IH. by rewrite <- !app_assoc. }
  rewrite Hgen. by rewrite <- app_assoc.
Qed.

(** *** What an exported line parses to *)

(** The code units a printed number is made of: digits, sign, point,
    exponent mark, and the letters of [Infinity] and [NaN]. *)
Definition number_chars : jsstring := js "0123456789.-+eInfityNa".

(** A field that cannot break its line or its column. *)
Definition clean (s : jsstring) : Prop := (semicolon ∉ s) ∧ (LF ∉ s).

(** A field without white space or a double quote at either end. *)
Definition bare (s : jsstring) : Prop :=
  ∀ c, head s = Some c ∨ last s = Some c → is_ws c = false ∧ c ≠ quote.

(** A row whose round trip is exact: no field holds a semicolon or a line
    feed, and the two fields written without quotes (installation number and
    phone) are bare. *)
Definition exportable (row : SupabaseCustomer number) : Prop :=
  clean (installation_number row) ∧ bare (installation_number row) ∧
  clean (row_name row) ∧
  clean (row_phone row) ∧ bare (row_phone row) ∧
  clean (row_address row).

(** The customer an exported row is read back as. *)
Definition customer_of (row : SupabaseCustomer number) : Customer :=
  {| installationNumber := installation_number row;
     name := row_name row;
     phone := row_phone row;
     address := row_address row;
     latitude := Some (coordinate_text (row_latitude row));
     longitude := Some (coordinate_text (row_longitude row)) |}.

Hypothesis toLowerCase_ascii :
  ∀ s, Forall is_ascii s → toLowerCase s = lower_ascii s.

Hypothesis printed_numbers :
  ∀ n : number, Forall (λ c, c ∈ number_chars) (num_toString n).

Lemma number_char_plain (c : N) :
  c ∈ number_chars →
  is_ws c = false ∧ c ≠ quote ∧ c ≠ semicolon ∧ c ≠ LF ∧ c ≠ CR.
Proof.
  assert (Hall : Forall (λ c, is_ws c = false ∧ c ≠ quote ∧ c ≠ semicolon
                              ∧ c ≠ LF ∧ c ≠ CR) number_chars).
  { apply (bool_decide_unpack _). vm_compute. exact I. }
  intros Hin. by apply (proj1 (Forall_forall _ _) Hall).
Qed.

Lemma coordinate_text_chars (x : option number) (c : N) :
  c ∈ coordinate_text x → c ∈ number_chars.
Proof.
  destruct x as [n|]; cbn [coordinate_text]; [|by inversion 1].
  destruct (num_truthy n); [|by inversion 1].
  apply (proj1 (Forall_forall _ _) (printed_numbers n)).
Qed.

Lemma coordinate_text_plain (x : option number) :
  clean (coordinate_text x) ∧ bare (coordinate_text x).
Proof.
  assert (Hplain : ∀ c, c ∈ coordinate_text x →
            is_ws c = false ∧ c ≠ quote ∧ c ≠ semicolon ∧ c ≠ LF ∧ c ≠ CR)
    by (intros c Hc; apply number_char_plain; by apply (coordinate_text_chars x)).
  split; [split|].
  - intros Hin. by destruct (Hplain _ Hin) as (_ & _ & Hs & _).
  - intros Hin. by destruct (Hplain _ Hin) as (_ & _ & _ & Hs & _).
  - intros c [Hc|Hc].
    + apply head_Some_elem_of in Hc. by destruct (Hplain _ Hc) as (? & ? & _).
    + apply last_Some_elem_of in Hc. by destruct (Hplain _ Hc) as (? & ? & _).
Qed.

Lemma last_after_separator (a b : jsstring) (c : N) :
  last (a ++ [semicolon] ++ b) = Some c → c = semicolon ∨ last b = Some c.
Proof.
  rewrite last_app. cbn [app]. rewrite last_cons.
  destruct (last b) as [y|]; intros [= <-]; [by right | by left].
Qed.

Lemma trim_bare (s : jsstring) : bare s → strip_quotes (trim s) = s.
Proof.
  intros Hb. rewrite trim_keep.
  - apply strip_quotes_keep; intros Hq; [destruct (Hb quote (or_introl Hq)) | destruct (Hb quote (or_intror Hq))]; done.
  - intros c Hc. by destruct (Hb c (or_introl Hc)).
  - intros c Hc. by destruct (Hb c (or_intror Hc)).
Qed.

Lemma trim_quoted (s : jsstring) :
  strip_quotes (trim ([quote] ++ or_blank s ++ [quote])) = s.
Proof.
  rewrite or_blank_id, trim_keep.
  - apply strip_quotes_quoted.
  - cbn [app head]. by intros c [= <-].
  - rewrite (assoc_L (++)), last_snoc. by intros c [= <-].
Qed.

Lemma parse_line_unfold (l : jsstring) :
  trim l ≠ [] →
  parse_line l =
    let line := trim l in
    let separator := if includes line [semicolon] then semicolon else comma in
    let cols := map (λ c, strip_quotes (trim c)) (split_char separator line) in
    if (length cols <? 2)%nat then None
    else Some {| installationNumber := nth 0 cols [];
                 name := or_blank (nth 1 cols []);
                 phone := or_blank (nth 2 cols []);
                 address := or_blank (nth 3 cols []);
                 latitude := Some (or_blank (nth 4 cols []));
                 longitude := Some (or_blank (nth 5 cols [])) |}.
Proof. unfold parse_line. by destruct (trim l). Qed.

(** The end of an exported line is a semicolon or the end of a number. *)
Lemma export_line_last (row : SupabaseCustomer number) (c : N) :
  last (export_line row) = Some c → is_ws c = false ∧ c ≠ CR.
Proof.
  unfold export_line. cbn [join_with]. intros Hl.
  do 5 (apply last_after_separator in Hl as [->|Hl]; [by vm_compute|]).
  apply last_Some_elem_of, coordinate_text_chars, number_char_plain in Hl.
  by destruct Hl as (? & _ & _ & _ & ?).
Qed.

Lemma export_line_head (row : SupabaseCustomer number) (c : N) :
  bare (installation_number row) →
  head (export_line row) = Some c → is_ws c = false.
Proof.
  intros Hb. unfold export_line. cbn [join_with]. rewrite head_app.
  destruct (head (installation_number row)) as [y|] eqn:Hy.
  - intros [= <-]. by destruct (Hb y (or_introl Hy)).
  - cbn [app head]. by intros [= <-].
Qed.

Lemma export_line_no_LF (row : SupabaseCustomer number) :
  exportable row → LF ∉ export_line row.
Proof.
  intros (Hi & _ & Hn & Hp & _ & Ha).
  destruct (coordinate_text_plain (row_latitude row)) as [Hlat _].
  destruct (coordinate_text_plain (row_longitude row)) as [Hlon _].
  unfold export_line, clean in *. cbn [join_with]. rewrite !or_blank_id.
  rewrite !elem_of_app, !elem_of_cons, !elem_of_nil.
  assert (LF ≠ semicolon) by done. assert (LF ≠ quote) by done. tauto.
Qed.

Lemma export_line_columns (row : SupabaseCustomer number) :
  exportable row →
  Forall (λ p, semicolon ∉ p)
    [ installation_number row;
      [quote] ++ or_blank (row_name row) ++ [quote];
      or_blank (row_phone row);
      [quote] ++ or_blank (row_address row) ++ [quote];
      coordinate_text (row_latitude row);
      coordinate_text (row_longitude row) ].
Proof.
  intros (Hi & _ & Hn & Hp & _ & Ha).
  destruct (coordinate_text_plain (row_latitude row)) as [Hlat _].
  destruct (coordinate_text_plain (row_longitude row)) as [Hlon _].
  unfold clean in *. rewrite !or_blank_id.
  assert (semicolon ≠ quote) by done.
  repeat constructor; rewrite ?elem_of_app, ?elem_of_cons, ?elem_of_nil;
    tauto.
Qed.

(** An exported line is read back as the row it came from. *)
Lemma parse_export_line (row : SupabaseCustomer number) :
  exportable row → parse_line (export_line row) = Some (customer_of row).
Proof.
  intros Hrow.
  assert (Htrim : trim (export_line row) = export_line row).
  { apply trim_keep.
    - intros c. apply export_line_head. by destruct Hrow as (_ & Hb & _).
    - intros c Hc. by destruct (export_line_last row c Hc). }
  assert (Hsemi : semicolon ∈ export_line row).
  { unfold export_line. cbn [join_with]. rewrite elem_of_app. right. left. }
  rewrite parse_line_unfold; [|rewrite Htrim; intros He; rewrite He in Hsemi; inversion Hsemi].
  cbv zeta. rewrite Htrim, (includes_elem _ _ Hsemi).
  unfold export_line at 1 2 3 4 5 6 7.
  rewrite split_char_join; [|done|by apply export_line_columns].
  destruct Hrow as (_ & Hib & _ & _ & Hpb & _).
  destruct (coordinate_text_plain (row_latitude row)) as [_ Hlat].
  destruct (coordinate_text_plain (row_longitude row)) as [_ Hlon].
  cbn [map]. rewrite !trim_quoted, (trim_bare _ Hib), (trim_bare _ Hlat),
    (trim_bare _ Hlon), or_blank_id, (trim_bare _ Hpb).
  cbn [length Nat.ltb Nat.leb nth]. by rewrite !or_blank_id.
Qed.

Lemma parse_export_lines (rows : list (SupabaseCustomer number)) :
  Forall exportable rows →
  omap parse_line (map export_line rows) = map customer_of rows.
Proof.
  induction rows as [|row rows IH]; intros Hall; [done|].
  inversion Hall as [|? ? Hrow Hrest]; subst. cbn [map omap list_omap].
  rewrite (parse_export_line row Hrow). cbn. f_equal. by apply IH.
Qed.

(** Reading back the text of an export. *)
Lemma parsed_csv_of (rows : list (SupabaseCustomer number)) :
  Forall exportable rows →
  parsed_customers toLowerCase (csv_of rows) = map customer_of rows.
Proof.
  intros Hall. unfold parsed_customers. rewrite csv_of_lines.
  rewrite split_lines_line; [| by apply (bool_decide_unpack _) | by vm_compute].
  rewrite split_lines_lines.
  - cbn [hd]. rewrite toLowerCase_ascii.
    + assert (Hh : includes (lower_ascii header_line) (js "tesisat") = true)
        by (vm_compute; reflexivity).
      rewrite Hh. cbn [orb skipn]. rewrite drop_0, omap_app, parse_export_lines by done.
      cbn. apply app_nil_r.
    + apply (bool_decide_unpack _). vm_compute. exact I.
  - apply Forall_forall. intros l Hl.
    apply list_elem_of_In, in_map_iff in Hl as (row & <- & Hrow).
    apply list_elem_of_In in Hrow.
    pose proof (proj1 (Forall_forall _ _) Hall row Hrow) as Hexp.
    split; [by apply export_line_no_LF|].
    intros Hc. by destruct (export_line_last row CR Hc).
Qed.


End Roundtrip.

(** *** A run *)

(** A few numbers with their printed forms, to run the export on. *)
Inductive coordinate := zero | lat_izmir | lon_izmir.

Definition coordinates : JsNumber coordinate :=
  {| parseFloat := λ s, if str_eqb s (js "38.42") then lat_izmir
                        else if str_eqb s (js "27.14") then lon_izmir else zero;
     num_toString := λ n, match n with
                          | zero => js "0"
                          | lat_izmir => js "38.42"
                          | lon_izmir => js "27.14"
                          end;
     num_truthy := λ n, match n with zero => false | _ => true end |}.

Lemma coordinates_printed (n : coordinate) :
  Forall (λ c, c ∈ number_chars) (num_toString (JsNumber := coordinates) n).
Proof. destruct n; apply (bool_decide_unpack _); vm_compute; exact I. Qed.

(** A name with a comma and spaces at both ends, an address with a double
    quote inside, a latitude of zero. *)
Definition sample_table : list (SupabaseCustomer coordinate) :=
  [ {| id := Some 1; installation_number := js "40001";
       row_name := js " Kaya, Ayse "; row_phone := js "0555 111";
       row_address := js "Izmir " ++ [quote] ++ js "Merkez";
       row_latitude := Some lat_izmir; row_longitude := Some lon_izmir |};
    {| id := Some 2; installation_number := js "40002";
       row_name := js "Ali Can"; row_phone := js "";
       row_address := js ""; row_latitude := Some zero; row_longitude := None |} ].

Ltac field_is_bare :=
  let c := fresh "c" in let Hc := fresh "Hc" in
  intros c [Hc|Hc]; vm_compute in Hc; try discriminate;
  injection Hc as <-; (split; [reflexivity | discriminate]).

Ltac field_is_clean :=
  split; apply (bool_decide_unpack _); vm_compute; exact I.

Ltac row_is_exportable :=
  refine (conj _ (conj _ (conj _ (conj _ (conj _ _)))));
  first [field_is_bare | field_is_clean].

Lemma sample_table_exportable : Forall exportable (take EXPORT_LIMIT sample_table).
Proof.
  rewrite take_ge by (cbn [length sample_table]; unfold EXPORT_LIMIT; lia).
  unfold sample_table. repeat (constructor; [row_is_exportable|]). constructor.
Qed.




Example export_of_sample_table :
  csv_of (H := coordinates) sample_table
  = js "Tesisat No; Ad Soyad; Telefon; Adres; Enlem; Boylam" ++ [LF]
    ++ js "40001;" ++ [quote] ++ js " Kaya, Ayse " ++ [quote] ++ js ";0555 111;"
    ++ [quote] ++ js "Izmir " ++ [quote] ++ js "Merkez" ++ [quote]
    ++ js ";38.42;27.14" ++ [LF]
    ++ js "40002;" ++ [quote] ++ js "Ali Can" ++ [quote] ++ js ";;"
    ++ [quote] ++ [quote] ++ js ";;" ++ [LF].
Proof. vm_compute. reflexivity. Qed.

(** A file without a header, separated by commas, with a blank line and
    Windows line ends. *)
Example import_with_commas :
  parsed_customers lower_ascii
    (js "40001, Ayse Kaya ,0555" ++ [CR; LF] ++ [CR; LF] ++ js "40002,Ali Can")
  = [ {| installationNumber := js "40001"; name := js "Ayse Kaya";
         phone := js "0555"; address := js "";
         latitude := Some (js ""); longitude := Some (js "") |};
      {| installationNumber := js "40002"; name := js "Ali Can";
         phone := js ""; address := js "";
         latitude := Some (js ""); longitude := Some (js "") |} ].
Proof. vm_compute. reflexivity. Qed.

End Csv.

(** * Further properties of the code

    The sections below follow the remaining functions of the same files and
    the way they work together with the ones above. *)

(** ** The list of recent searches ([saveToRecents])

    Source: [src/components/MainScreen.tsx], lines 13-46. *)

Module Recents.

Import Search.

Lemma kept_recent (recent : list jsstring) (term s : jsstring) :
  s ∈ List.filter (λ s, negb (str_eqb s term)) recent ↔ s ∈ recent ∧ s ≠ term.
Proof.
  rewrite !list_elem_of_In, filter_In, negb_true_iff, str_eqb_false. tauto.
Qed.

(** X1. Saving a term puts it first, keeps it once, keeps at most five terms, adds
    nothing else, keeps a list without repetition free of repetition, and,
    below the cap, forgets nothing. *)
Theorem saveToRecents_bounded (recent : list jsstring) (term : jsstring) :
  let updated := saveToRecents recent term in
  head updated = Some term ∧
  (term ∉ tail updated) ∧
  (length updated ≤ MAX_RECENT_SEARCHES)%nat ∧
  (∀ s, s ∈ updated → s = term ∨ s ∈ recent) ∧
  (NoDup recent → NoDup updated) ∧
  ((length recent < MAX_RECENT_SEARCHES)%nat →
     ∀ s, s ∈ recent → s ∈ updated).
Proof.
  cbv zeta. unfold saveToRecents, MAX_RECENT_SEARCHES.
  set (others := List.filter (λ s, negb (str_eqb s term)) recent).
  assert (Hothers : term ∉ others).
  { intros Hin. apply kept_recent in Hin as [_ Hne]. done. }
  assert (Hlen : (length others ≤ length recent)%nat) by apply filter_length_le.
  assert (Hkeep : NoDup recent → NoDup others).
  { intros Hnd. by apply NoDup_ListNoDup, List.NoDup_filter, NoDup_ListNoDup. }
  destruct (Nat.ltb_spec 5 (length (term :: others))) as [Hlong|Hshort].
  - change (take 5 (term :: others)) with (term :: take 4 others).
    cbn [head tail]. repeat split.
    + intros Hin. apply Hothers. by apply (subseteq_take 4 others).
    + cbn [length]. rewrite length_take. lia.
    + intros s Hin. apply elem_of_cons in Hin as [->|Hin]; [by left|].
      right. apply (subseteq_take 4 others), kept_recent in Hin. tauto.
    + intros Hnd. apply NoDup_cons. split.
      * intros Hin. apply Hothers. by apply (subseteq_take 4 others).
      * apply (sublist_NoDup (take 4 others) others); [|apply sublist_take].
        by apply Hkeep.
    + cbn [length] in Hlong. lia.
  - cbn [head tail]. repeat split; try done.
    + intros s Hin. apply elem_of_cons in Hin as [->|Hin]; [by left|].
      right. apply kept_recent in Hin. tauto.
    + intros Hnd. apply NoDup_cons. split; [done|]. by apply Hkeep.
    + intros _ s Hin. destruct (decide (s = term)) as [->|Hne]; [left|].
      right. by apply kept_recent.
Qed.

Example recents_are_capped :
  saveToRecents [js "5"; js "4"; js "3"; js "2"; js "1"] (js "3")
  = [js "3"; js "5"; js "4"; js "2"; js "1"] ∧
  saveToRecents [js "5"; js "4"; js "3"; js "2"; js "1"] (js "6")
  = [js "6"; js "5"; js "4"; js "3"; js "2"].
Proof. split; reflexivity. Qed.

End Recents.

(** ** Management of the accounts
    ([getCredentials], [addCredential], [deleteCredential], and the forms of
    the admin screen)

    Source: [src/services/supabaseClient.ts], lines 143-155 and 444-487;
    [src/unnamed/part_001] (the admin screen), lines 146-257. *)

Module Accounts.

Import Auth.

(** What the admin operations throw. *)
Inductive AdminError :=
| AlreadyRegistered                                  (* "Bu sicil numarası zaten kayıtlı." *)
| ServiceError (context : string) (e : PostgrestError).
                                                     (* thrown by [handleSupabaseError] *)

Inductive Outcome (A : Type) :=
| Done (a : A)
| Failed (e : AdminError).
Arguments Done {A} a.
Arguments Failed {A} e.

(** The callback of [data.map] in [getCredentials]. *)
Definition to_credential (u : SupabaseUser) : Credential :=
  {| cred_username := username u;
     cred_password := password u;
     allowedDeviceId := allowed_device_id u |}.

(** [getCredentials()]. *)
Definition getCredentials (users : list SupabaseUser)
    (fault : option PostgrestError) : Outcome (list Credential) :=
  match fault with
  | Some e => Failed (ServiceError "getCredentials" e)
  | None => Done (map to_credential users)
  end.

(** The failures of the three remote calls of an operation, where they fail:
    the check (or the delete), the insert, and the final listing. *)
Record Faults := {
  check_fault : option PostgrestError;
  write_fault : option PostgrestError;
  list_fault : option PostgrestError
}.

Definition no_faults : Faults :=
  {| check_fault := None; write_fault := None; list_fault := None |}.

(** [addCredential(credential)]. [new_id] is the key the store gives to the
    inserted row. *)
Definition addCredential (users : list SupabaseUser) (f : Faults) (new_id : Z)
    (credential : Credential) : Outcome (list Credential) * list SupabaseUser :=
  let r := select_single (has_username (cred_username credential)) users
             (check_fault f) in
  match
    match error r with
    | Some e => if negb (str_eqb (code e) PGRST116) then Some e else None
    | None => None
    end
  with
  | Some e => (Failed (ServiceError "addCredential_check" e), users)
  | None =>
      match data r with
      | Some existing => (Failed AlreadyRegistered, users)
      | None =>
          match write_fault f with
          | Some e => (Failed (ServiceError "addCredential_insert" e), users)
          | None =>
              let inserted :=
                users ++ [ {| id := new_id;
                              username := cred_username credential;
                              password := cred_password credential;
                              allowed_device_id := or_null (allowedDeviceId credential) |} ] in
              (getCredentials inserted (list_fault f), inserted)
          end
      end
  end.

(** [deleteCredential(username)]. *)
Definition deleteCredential (users : list SupabaseUser) (f : Faults)
    (u : jsstring) : Outcome (list Credential) * list SupabaseUser :=
  match write_fault f with
  | Some e => (Failed (ServiceError "deleteCredential" e), users)
  | None =>
      let remaining := List.filter (λ r, negb (has_username u r)) users in
      (getCredentials remaining (list_fault f), remaining)
  end.

(** *** The forms of the admin screen *)

(** What a submit handler did: it refused the form, or it called the
    service. *)
Inductive Submission (A : Type) :=
| Refused                    (* [setError(..); return] *)
| Called (result : A).
Arguments Refused {A}.
Arguments Called {A} result.

(** The fields of the "add user" dialog. *)
Record AddForm := {
  newUsername : jsstring;
  newPassword : jsstring;
  newDeviceId : jsstring;
  isNewDeviceUnrestricted : bool
}.

(** [handleAddUser]. *)
Definition handleAddUser (users : list SupabaseUser) (f : Faults) (new_id : Z)
    (form : AddForm)
    : Submission (Outcome (list Credential)) * list SupabaseUser :=
  match trim (newUsername form), trim (newPassword form) with
  | _ :: _, _ :: _ =>
      let deviceIdPayload :=
        if isNewDeviceUnrestricted form then ANY_DEVICE else trim (newDeviceId form) in
      let out :=
        addCredential users f new_id
          {| cred_username := trim (newUsername form);
             cred_password := trim (newPassword form);
             allowedDeviceId := Some deviceIdPayload |} in
      (Called out.1, out.2)
  | _, _ => (Refused, users)
  end.

(** The fields of the "edit user" dialog. *)
Record EditForm := {
  form_username : jsstring;
  form_password : jsstring;
  form_allowedDeviceId : jsstring;
  isUnrestricted : bool
}.

(** [handleOpenEditModal(user)]. *)
Definition handleOpenEditModal (user : Credential) : EditForm :=
  let isAny := bool_decide (allowedDeviceId user = Some ANY_DEVICE) in
  {| form_username := cred_username user;
     form_password := cred_password user;
     form_allowedDeviceId := if isAny then [] else or_empty (allowedDeviceId user);
     isUnrestricted := isAny |}.

(** [handleUpdateUser] for the user being edited. *)
Definition handleUpdateUser (users : list SupabaseUser)
    (fault : option PostgrestError) (editingUser : Credential) (editForm : EditForm)
    : Submission (Result unit) * list SupabaseUser :=
  let finalUsername := trim (form_username editForm) in
  let finalPassword := trim (form_password editForm) in
  match finalUsername, finalPassword with
  | _ :: _, _ :: _ =>
      let deviceIdPayload :=
        if isUnrestricted editForm then ANY_DEVICE
        else trim (form_allowedDeviceId editForm) in
      let out :=
        updateCredential users fault (cred_username editingUser)
          {| cred_username := finalUsername;
             cred_password := finalPassword;
             allowedDeviceId := Some deviceIdPayload |} in
      (Called out.1, out.2)
  | _, _ => (Refused, users)
  end.

(** *** Unique usernames *)

(** In a table with unique usernames a row is the credential of its name. *)
Lemma unique_credential (users : list SupabaseUser) (r : SupabaseUser) :
  NoDup (map username users) → r ∈ users →
  credential_of users (username r) r.
Proof.
  unfold credential_of. induction users as [|x users IH]; intros Hnd Hin.
  - inversion Hin.
  - cbn [map] in Hnd. apply NoDup_cons in Hnd as [Hx Hnd].
    cbn [List.filter]. apply elem_of_cons in Hin as [->|Hin].
    + unfold has_username at 1. rewrite str_eqb_refl. f_equal.
      apply filter_no_match. intros r' Hr' He. apply Hx.
      rewrite <- He. apply list_elem_of_In, in_map, list_elem_of_In, Hr'.
    + assert (Hne : username x ≠ username r).
      { intros He. apply Hx. rewrite He.
        apply list_elem_of_In, in_map, list_elem_of_In, Hin. }
      unfold has_username at 1. rewrite (proj2 (str_eqb_false _ _) Hne).
      by apply IH.
Qed.

Lemma no_credential (users : list SupabaseUser) (u : jsstring) :
  (∀ r, r ∈ users → username r ≠ u) ↔ u ∉ map username users.
Proof.
  split.
  - intros Hno Hin. apply list_elem_of_In, in_map_iff in Hin as (r & He & Hr).
    apply (Hno r); [by apply list_elem_of_In | done].
  - intros Hno r Hr He. apply Hno. rewrite <- He.
    apply list_elem_of_In, in_map, list_elem_of_In, Hr.
Qed.

(** The outcome of a login depends on the table only through the rows that
    carry the username. *)
Lemma login_by_selection (users users' : list SupabaseUser)
    (qf uf : option PostgrestError) (u p d : jsstring) :
  List.filter (has_username u) users = List.filter (has_username u) users' →
  (authenticateUser users qf uf u p d).1 = (authenticateUser users' qf uf u p d).1.
Proof.
  intros Hsel. unfold authenticateUser, select_single. rewrite Hsel.
  destruct qf as [e|]; cbn [error data].
  { by destruct (str_eqb (code e) PGRST116). }
  destruct (List.filter (has_username u) users') as [|r [|r' rest]];
    cbn [error data]; try reflexivity.
  destruct (negb (str_eqb (password r) p)); [done|].
  destruct (bool_decide (allowed_device_id r = Some ANY_DEVICE)); [done|].
  destruct (truthy (allowed_device_id r)
            && negb (bool_decide (allowed_device_id r = Some d))); [done|].
  destruct (negb (truthy (allowed_device_id r)) && truthy (Some d)); [|done].
  by destruct uf.
Qed.

(** X2. [addCredential] keeps the usernames unique: a name that is taken is
    refused and the table is left alone; a free name is appended as one new
    row, whose device is [null] when the form gave none, and the listing
    returned is that of the new table. *)
Theorem addCredential_keeps_usernames_unique (users : list SupabaseUser)
    (new_id : Z) (c : Credential) :
  NoDup (map username users) →
  let out := addCredential users no_faults new_id c in
  NoDup (map username out.2) ∧
  (cred_username c ∈ map username users →
     out = (Failed AlreadyRegistered, users)) ∧
  (cred_username c ∉ map username users →
     out.2 = users ++ [ {| id := new_id; username := cred_username c;
                           password := cred_password c;
                           allowed_device_id := or_null (allowedDeviceId c) |} ] ∧
     out.1 = Done (map to_credential out.2)).
Proof.
  intros Hnd. cbv zeta.
  destruct (decide (cred_username c ∈ map username users)) as [Hin|Hout].
  - assert (Hout : addCredential users no_faults new_id c
                   = (Failed AlreadyRegistered, users)).
    { apply list_elem_of_In, in_map_iff in Hin as (r & He & Hr).
      apply list_elem_of_In in Hr.
      pose proof (unique_credential users r Hnd Hr) as Hcred.
      unfold credential_of in Hcred. rewrite He in Hcred.
      unfold addCredential, select_single. cbn [check_fault no_faults].
      by rewrite Hcred. }
    rewrite Hout. cbn [snd]. split; [done|]. split; [done|]. by intros [].
  - pose proof (filter_no_match users (cred_username c)
                  (proj2 (no_credential _ _) Hout)) as Hnone.
    assert (Hadd : addCredential users no_faults new_id c
              = (Done (map to_credential
                         (users ++ [ {| id := new_id; username := cred_username c;
                                        password := cred_password c;
                                        allowed_device_id := or_null (allowedDeviceId c) |} ])),
                 users ++ [ {| id := new_id; username := cred_username c;
                               password := cred_password c;
                               allowed_device_id := or_null (allowedDeviceId c) |} ])).
    { unfold addCredential, select_single. cbn [check_fault no_faults].
      by rewrite Hnone. }
    rewrite Hadd. cbn [fst snd]. split; [|split; [by intros ?|done]].
    rewrite map_app. cbn [map username]. apply NoDup_app. repeat split.
    + done.
    + intros x Hx Hx'. apply list_elem_of_singleton in Hx' as ->. done.
    + apply NoDup_singleton.
Qed.

(** Adding the user 1004 to [staff], and trying to add 1002 again. *)
Lemma addCredential_keeps_usernames_unique_witness :
  (addCredential staff no_faults 4
     {| cred_username := js "1004"; cred_password := js "pw4";
        allowedDeviceId := Some [] |}).2
  = staff ++ [ {| id := 4; username := js "1004"; password := js "pw4";
                  allowed_device_id := None |} ] ∧
  addCredential staff no_faults 4
    {| cred_username := js "1002"; cred_password := js "x";
       allowedDeviceId := None |}
  = (Failed AlreadyRegistered, staff).
Proof.
  assert (Hnd : NoDup (map username staff)).
  { apply (bool_decide_unpack _). vm_compute. exact I. }
  split.
  - destruct (addCredential_keeps_usernames_unique staff 4
                {| cred_username := js "1004"; cred_password := js "pw4";
                   allowedDeviceId := Some [] |} Hnd) as (_ & _ & Hnew).
    apply Hnew. apply (bool_decide_unpack _). vm_compute. exact I.
  - destruct (addCredential_keeps_usernames_unique staff 4
                {| cred_username := js "1002"; cred_password := js "x";
                   allowedDeviceId := None |} Hnd) as (_ & Htaken & _).
    apply Htaken. apply (bool_decide_unpack _). vm_compute. exact I.
Defined.

(** *** Deleting an account *)

Lemma filter_deleted (users : list SupabaseUser) (u : jsstring) :
  List.filter (has_username u) (List.filter (λ r, negb (has_username u r)) users) = [].
Proof.
  induction users as [|r users IH]; [done|]. cbn [List.filter].
  destruct (has_username u r) eqn:Hu; cbn [negb List.filter]; [done|].
  by rewrite Hu.
Qed.

Lemma filter_not_deleted (users : list SupabaseUser) (u v : jsstring) :
  v ≠ u →
  List.filter (has_username v) (List.filter (λ r, negb (has_username u r)) users)
  = List.filter (has_username v) users.
Proof.
  intros Hne. induction users as [|r users IH]; [done|]. cbn [List.filter].
  destruct (has_username u r) eqn:Hu; cbn [negb List.filter].
  - apply str_eqb_true in Hu.
    assert (Hv : has_username v r = false)
      by (apply str_eqb_false; congruence).
    by rewrite Hv.
  - destruct (has_username v r); by rewrite IH.
Qed.

(** X3. Once [deleteCredential] has gone through, no password and no device logs
    the deleted user in, and the logins of all other users end as they did
    before; when the delete call fails the table is untouched. *)
Theorem deleted_user_is_locked_out (users : list SupabaseUser)
    (cf lf : option PostgrestError) (u : jsstring) :
  let remaining :=
    (deleteCredential users
       {| check_fault := cf; write_fault := None; list_fault := lf |} u).2 in
  (∀ uf p d,
     authenticateUser remaining None uf u p d = (Throw InvalidCredentials, remaining)) ∧
  (∀ v qf uf p d, v ≠ u →
     (authenticateUser remaining qf uf v p d).1 = (authenticateUser users qf uf v p d).1) ∧
  (∀ e, (deleteCredential users
           {| check_fault := cf; write_fault := Some e; list_fault := lf |} u).2 = users).
Proof.
  cbv zeta. cbn [deleteCredential write_fault snd]. repeat split.
  - intros uf p d. unfold authenticateUser, select_single.
    by rewrite filter_deleted.
  - intros v qf uf p d Hne. apply login_by_selection. by apply filter_not_deleted.
Qed.

(** *** From the forms to the login *)

Lemma credential_of_appended (users : list SupabaseUser) (r : SupabaseUser) :
  username r ∉ map username users →
  credential_of (users ++ [r]) (username r) r.
Proof.
  intros Hfree. unfold credential_of. rewrite List.filter_app.
  rewrite (filter_no_match users (username r) (proj2 (no_credential _ _) Hfree)).
  cbn [List.filter app]. unfold has_username. by rewrite str_eqb_refl.
Qed.

Lemma handleAddUser_table (users : list SupabaseUser) (new_id : Z) (form : AddForm) :
  trim (newUsername form) ≠ [] → trim (newPassword form) ≠ [] →
  trim (newUsername form) ∉ map username users →
  (handleAddUser users no_faults new_id form).2
  = users ++ [ {| id := new_id; username := trim (newUsername form);
                  password := trim (newPassword form);
                  allowed_device_id :=
                    or_null (Some (if isNewDeviceUnrestricted form then ANY_DEVICE
                                   else trim (newDeviceId form))) |} ].
Proof.
  intros Hu Hp Hfree. unfold handleAddUser.
  destruct (trim (newUsername form)) as [|c1 u] eqn:Htu; [done|].
  destruct (trim (newPassword form)) as [|c2 p] eqn:Htp; [done|].
  cbv zeta. cbn [snd]. unfold addCredential, select_single.
  cbn [check_fault no_faults cred_username].
  rewrite (filter_no_match users (c1 :: u) (proj2 (no_credential _ _) Hfree)).
  reflexivity.
Qed.

(** X4. What the ways of filling the "add user" dialog mean for the logins
    of the new user, the name and the password not being blank and the name
    being free. With the unrestricted box ticked, or with the text ANY_DEVICE
    typed as the device, every device logs in, unrestricted. With the box
    unticked and another device id typed in (not blank), that device logs in,
    restricted, and every other one is turned away. With the box unticked and
    the device left blank, a login with the empty device id gets in and
    leaves the account as it is, and a login with any other device id gets in
    and, the update going through, stores that id as the device of the
    account (the text ANY_DEVICE included). *)
Theorem added_user_logs_in (users : list SupabaseUser) (new_id : Z)
    (form : AddForm) :
  trim (newUsername form) ≠ [] → trim (newPassword form) ≠ [] →
  trim (newUsername form) ∉ map username users →
  let u := trim (newUsername form) in
  let p := trim (newPassword form) in
  let table := (handleAddUser users no_faults new_id form).2 in
  (isNewDeviceUnrestricted form = true ∨ trim (newDeviceId form) = ANY_DEVICE →
     ∀ uf d, authenticateUser table None uf u p d = (Return true, table)) ∧
  (isNewDeviceUnrestricted form = false →
     trim (newDeviceId form) ≠ [] → trim (newDeviceId form) ≠ ANY_DEVICE →
     (∀ uf, authenticateUser table None uf u p (trim (newDeviceId form))
            = (Return false, table)) ∧
     (∀ uf d, d ≠ trim (newDeviceId form) →
        authenticateUser table None uf u p d = (Throw DeviceNotAuthorized, table))) ∧
  (isNewDeviceUnrestricted form = false → trim (newDeviceId form) = [] →
     (∀ uf, authenticateUser table None uf u p [] = (Return false, table)) ∧
     (∀ d, d ≠ [] →
        authenticateUser table None None u p d
        = (Return false, update_device table u d))).
Proof.
  intros Hu Hp Hfree. cbv zeta.
  rewrite (handleAddUser_table users new_id form Hu Hp Hfree).
  set (payload := if isNewDeviceUnrestricted form then ANY_DEVICE
                  else trim (newDeviceId form)).
  set (row := {| id := new_id; username := trim (newUsername form);
                 password := trim (newPassword form);
                 allowed_device_id := or_null (Some payload) |}).
  pose proof (credential_of_appended users row Hfree) as Hrow.
  cbn [username row] in Hrow.
  assert (Hfound := λ uf d, authenticateUser_found (users ++ [row]) uf
                              (trim (newUsername form)) (trim (newPassword form)) d row Hrow).
  cbn [password row] in Hfound. rewrite str_eqb_refl in Hfound.
  cbn [negb allowed_device_id row] in Hfound.
  clearbody row. split; [|split].
  - intros Hany uf d.
    assert (Hpay : payload = ANY_DEVICE).
    { unfold payload. destruct Hany as [-> | ->]; [done|].
      by destruct (isNewDeviceUnrestricted form). }
    rewrite Hfound, Hpay. reflexivity.
  - intros Hbox Hd Hs.
    assert (Hpay : payload = trim (newDeviceId form))
      by (unfold payload; by rewrite Hbox).
    rewrite Hpay in Hfound.
    assert (Hnull : or_null (Some (trim (newDeviceId form)))
                    = Some (trim (newDeviceId form))).
    { unfold or_null. by destruct (trim (newDeviceId form)). }
    rewrite Hnull in Hfound.
    assert (Ht : truthy (Some (trim (newDeviceId form))) = true)
      by (by destruct (trim (newDeviceId form))).
    rewrite Ht in Hfound. cbn [negb andb] in Hfound.
    rewrite bool_decide_eq_false_2 in Hfound by congruence.
    split.
    + intros uf. rewrite Hfound. by rewrite bool_decide_eq_true_2.
    + intros uf d Hne. rewrite Hfound.
      by rewrite bool_decide_eq_false_2 by congruence.
  - intros Hbox Hblank.
    assert (Hpay : payload = [])
      by (unfold payload; by rewrite Hbox).
    rewrite Hpay in Hfound.
    cbn [allowed_device_id or_null truthy negb andb] in Hfound.
    rewrite bool_decide_eq_false_2 in Hfound by done.
    split.
    + intros uf. by rewrite Hfound.
    + intros d Hd. rewrite Hfound. by destruct d.
Qed.

Definition unrestricted_form : AddForm :=
  {| newUsername := js " 1004 "; newPassword := js "pw4";
     newDeviceId := js "ignored"; isNewDeviceUnrestricted := true |}.

Definition sentinel_form : AddForm :=
  {| newUsername := js "1004"; newPassword := js "pw4";
     newDeviceId := js " ANY_DEVICE "; isNewDeviceUnrestricted := false |}.

(** The user 1004 is added to [staff] with the unrestricted box ticked, or
    with the box unticked and ANY_DEVICE typed as the device, and logs in
    from some device. *)
Lemma added_user_logs_in_witness :
  authenticateUser (handleAddUser staff no_faults 4 unrestricted_form).2
    None None (js "1004") (js "pw4") (js "dev-Z")
  = (Return true, (handleAddUser staff no_faults 4 unrestricted_form).2) ∧
  authenticateUser (handleAddUser staff no_faults 4 sentinel_form).2
    None None (js "1004") (js "pw4") (js "dev-Z")
  = (Return true, (handleAddUser staff no_faults 4 sentinel_form).2).
Proof.
  split.
  - destruct (added_user_logs_in staff 4 unrestricted_form) as (Hany & _ & _).
    + discriminate.
    + discriminate.
    + apply (bool_decide_unpack _). vm_compute. exact I.
    + exact (Hany (or_introl eq_refl) None (js "dev-Z")).
  - destruct (added_user_logs_in staff 4 sentinel_form) as (Hany & _ & _).
    + discriminate.
    + discriminate.
    + apply (bool_decide_unpack _). vm_compute. exact I.
    + exact (Hany (or_intror eq_refl) None (js "dev-Z")).
Defined.

(** *** The edit dialog *)

Lemma row_eta (r : SupabaseUser) :
  {| id := id r; username := username r; password := password r;
     allowed_device_id := allowed_device_id r |} = r.
Proof. by destruct r. Qed.

Lemma filter_keep {A} (f : A → bool) (x : A) (l : list A) :
  f x = true → List.filter f (x :: l) = x :: List.filter f l.
Proof. intros Hx. cbn [List.filter]. by rewrite Hx. Qed.

Lemma filter_skip {A} (f : A → bool) (x : A) (l : list A) :
  f x = false → List.filter f (x :: l) = List.filter f l.
Proof. intros Hx. cbn [List.filter]. by rewrite Hx. Qed.

(** The rows named [u] after an edit that keeps the name: the old ones,
    edited. *)
Lemma filter_updated (users : list SupabaseUser) (u : jsstring) (c : Credential) :
  cred_username c = u →
  List.filter (has_username u) (updateCredential users None u c).2
  = map (λ r, {| id := id r; username := cred_username c;
                 password := cred_password c;
                 allowed_device_id := or_null (allowedDeviceId c) |})
        (List.filter (has_username u) users).
Proof.
  intros Hc. cbn [updateCredential snd].
  induction users as [|r users IH]; [done|].
  rewrite map_cons. destruct (has_username u r) eqn:Hu.
  - rewrite (filter_keep (has_username u) r users Hu), map_cons, <- IH.
    apply filter_keep.
    unfold has_username. cbn [username]. by rewrite Hc, str_eqb_refl.
  - rewrite (filter_skip (has_username u) r users Hu), <- IH.
    by apply filter_skip.
Qed.

(** X5. Opening the edit dialog on a user and saving it as it is leaves the table
    exactly as it was, provided that the username and the password are not
    empty, that neither they nor the device carry white space at their ends,
    and that the device is not the empty text. *)
Theorem edit_without_change (users : list SupabaseUser) (r : SupabaseUser) :
  NoDup (map username users) → r ∈ users →
  username r ≠ [] → trim (username r) = username r →
  password r ≠ [] → trim (password r) = password r →
  (∀ d, allowed_device_id r = Some d → d ≠ [] ∧ trim d = d) →
  handleUpdateUser users None (to_credential r)
    (handleOpenEditModal (to_credential r))
  = (Called (Return tt), users).
Proof.
  intros Hnd Hr Hu Htu Hp Htp Hd.
  unfold handleUpdateUser, handleOpenEditModal, to_credential.
  cbn [form_username form_password form_allowedDeviceId isUnrestricted
       cred_username cred_password allowedDeviceId].
  rewrite Htu, Htp.
  destruct (username r) as [|c1 u] eqn:Eu; [done|].
  destruct (password r) as [|c2 p] eqn:Ep; [done|].
  cbn [updateCredential fst snd cred_username cred_password allowedDeviceId].
  f_equal. rewrite <- Eu, <- Ep.
  assert (Hdev : or_null
            (Some (if bool_decide (allowed_device_id r = Some ANY_DEVICE)
                   then ANY_DEVICE
                   else trim (if bool_decide (allowed_device_id r = Some ANY_DEVICE)
                              then [] else or_empty (allowed_device_id r))))
          = allowed_device_id r).
  { case_bool_decide as Hany; [by rewrite Hany|].
    destruct (allowed_device_id r) as [d|] eqn:Ed; [|reflexivity].
    destruct (Hd d eq_refl) as [Hne Htd]. cbn [or_empty]. rewrite Htd.
    unfold or_null. by destruct d. }
  rewrite Hdev.
  transitivity (map (λ x, if has_username (username r) x then r else x) users).
  - apply map_ext_in. intros x Hx. apply list_elem_of_In in Hx.
    destruct (has_username (username r) x) eqn:Hux; [|done].
    apply str_eqb_true in Hux.
    pose proof (unique_credential users x Hnd Hx) as Hcx.
    pose proof (unique_credential users r Hnd Hr) as Hcr.
    unfold credential_of in *. rewrite Hux, Hcr in Hcx. injection Hcx as ->.
    apply row_eta.
  - rewrite <- (map_id users) at 2. apply map_ext_in. intros x Hx.
    apply list_elem_of_In in Hx.
    destruct (has_username (username r) x) eqn:Hux; [|done].
    apply str_eqb_true in Hux.
    pose proof (unique_credential users x Hnd Hx) as Hcx.
    pose proof (unique_credential users r Hnd Hr) as Hcr.
    unfold credential_of in *. rewrite Hux, Hcr in Hcx. by injection Hcx as ->.
Qed.

(** The three users of [staff], each opened and saved unchanged. *)
Lemma edit_without_change_witness :
  Forall (λ r, handleUpdateUser staff None (to_credential r)
                 (handleOpenEditModal (to_credential r))
               = (Called (Return tt), staff)) staff.
Proof.
  assert (Hnd : NoDup (map username staff)).
  { apply (bool_decide_unpack _). vm_compute. exact I. }
  apply Forall_forall. intros r Hr.
  apply (edit_without_change staff r Hnd Hr);
    unfold staff in Hr;
    repeat (apply elem_of_cons in Hr as [->|Hr];
            [first [ discriminate | reflexivity
                   | intros d [= <-]; split; [discriminate | reflexivity] | by intros d ]|]);
    inversion Hr.
Defined.

(** X6. Releasing an account. In a table with unique usernames, the admin
    opens a user whose name and password are not empty and carry no white
    space at their ends, empties the device field (or leaves only blanks in
    it), leaves the unrestricted box unticked and saves. Whatever device the
    account was bound to, a login with the password then gets in from every
    device. With the empty device id it leaves the account released. With
    any other device id it stores, the update going through, that id as the
    device of the account: when the id is not the text ANY_DEVICE, that
    device logs in again from then on and every other device is turned away;
    when it is the text ANY_DEVICE, every device logs in from then on,
    unrestricted. *)
Theorem cleared_device_is_rebound (users : list SupabaseUser) (r : SupabaseUser)
    (blank : jsstring) :
  NoDup (map username users) → r ∈ users →
  username r ≠ [] → trim (username r) = username r →
  password r ≠ [] → trim (password r) = password r →
  trim blank = [] →
  let form := {| form_username := username r; form_password := password r;
                 form_allowedDeviceId := blank; isUnrestricted := false |} in
  let released := (handleUpdateUser users None (to_credential r) form).2 in
  (∀ uf, authenticateUser released None uf (username r) (password r) []
         = (Return false, released)) ∧
  ∀ d, d ≠ [] →
    let bound := update_device released (username r) d in
    authenticateUser released None None (username r) (password r) d
      = (Return false, bound) ∧
    (d ≠ ANY_DEVICE →
       (∀ uf, authenticateUser bound None uf (username r) (password r) d
              = (Return false, bound)) ∧
       (∀ uf d', d' ≠ d →
          authenticateUser bound None uf (username r) (password r) d'
          = (Throw DeviceNotAuthorized, bound))) ∧
    (d = ANY_DEVICE →
       ∀ uf d', authenticateUser bound None uf (username r) (password r) d'
                = (Return true, bound)).
Proof.
  intros Hnd Hr Hu Htu Hp Htp Hblank. cbv zeta.
  unfold handleUpdateUser, to_credential.
  cbn [form_username form_password form_allowedDeviceId isUnrestricted
       cred_username].
  rewrite Htu, Htp, Hblank.
  destruct (username r) as [|c1 u] eqn:Eu; [done|].
  destruct (password r) as [|c2 p] eqn:Ep; [done|].
  cbn [snd]. rewrite <- Eu, <- Ep.
  set (c := {| cred_username := username r; cred_password := password r;
               allowedDeviceId := Some [] |}).
  set (released := (updateCredential users None (username r) c).2).
  assert (Hrow : credential_of released (username r)
            {| id := id r; username := username r; password := password r;
               allowed_device_id := None |}).
  { unfold credential_of, released. rewrite (filter_updated users (username r) c eq_refl).
    rewrite (unique_credential users r Hnd Hr). reflexivity. }
  split.
  { intros uf. rewrite (authenticateUser_found released uf _ _ [] _ Hrow).
    cbn [password allowed_device_id truthy negb andb].
    rewrite str_eqb_refl. cbn [negb].
    by rewrite bool_decide_eq_false_2 by done. }
  intros d Hd.
  pose proof (credential_of_update_device released (username r) d _ Hrow) as Hbound.
  cbn [id username password] in Hbound.
  split; [|split].
  - rewrite (authenticateUser_found released None _ _ d _ Hrow).
    cbn [password allowed_device_id truthy negb andb].
    rewrite str_eqb_refl. cbn [negb].
    rewrite bool_decide_eq_false_2 by done. by destruct d.
  - intros Hs. split.
    + intros uf. rewrite (authenticateUser_found _ uf _ _ d _ Hbound).
      cbn [password allowed_device_id]. rewrite str_eqb_refl. cbn [negb].
      rewrite bool_decide_eq_false_2 by congruence.
      rewrite bool_decide_eq_true_2 by done.
      destruct d; [done|]. reflexivity.
    + intros uf d' Hne. rewrite (authenticateUser_found _ uf _ _ d' _ Hbound).
      cbn [password allowed_device_id]. rewrite str_eqb_refl. cbn [negb].
      rewrite bool_decide_eq_false_2 by congruence.
      rewrite bool_decide_eq_false_2 by congruence.
      destruct d; [done|]. reflexivity.
  - intros Hs uf d'. rewrite (authenticateUser_found _ uf _ _ d' _ Hbound).
    cbn [password allowed_device_id]. rewrite str_eqb_refl. cbn [negb].
    by rewrite bool_decide_eq_true_2 by congruence.
Qed.

(** The account 1002 of [staff], bound to dev-A, is released and then taken
    by dev-B. *)
Lemma cleared_device_is_rebound_witness :
  let released := (handleUpdateUser staff None
                     {| cred_username := js "1002"; cred_password := js "pw2";
                        allowedDeviceId := Some (js "dev-A") |}
                     {| form_username := js "1002"; form_password := js "pw2";
                        form_allowedDeviceId := js "  "; isUnrestricted := false |}).2 in
  let bound := update_device released (js "1002") (js "dev-B") in
  authenticateUser released None None (js "1002") (js "pw2") (js "dev-B")
    = (Return false, bound) ∧
  (∀ uf, authenticateUser bound None uf (js "1002") (js "pw2") (js "dev-B")
         = (Return false, bound)) ∧
  (∀ uf d', d' ≠ js "dev-B" →
     authenticateUser bound None uf (js "1002") (js "pw2") d'
     = (Throw DeviceNotAuthorized, bound)).
Proof.
  assert (Hnd : NoDup (map username staff)).
  { apply (bool_decide_unpack _). vm_compute. exact I. }
  assert (Hr : {| id := 2; username := js "1002"; password := js "pw2";
                  allowed_device_id := Some (js "dev-A") |} ∈ staff).
  { apply list_elem_of_In. right. left. reflexivity. }
  destruct (cleared_device_is_rebound staff _ (js "  ") Hnd Hr) as [_ Hany];
    [discriminate | reflexivity | discriminate | reflexivity | reflexivity |].
  destruct (Hany (js "dev-B")) as (Hfirst & Hagain & _); [discriminate|].
  split; [exact Hfirst|]. apply Hagain. discriminate.
Defined.

End Accounts.

(** ** The error and the progress reports of the import

    Source: [src/services/supabaseClient.ts], lines 337-402. *)

Module BulkReport.

Import Bulk.

Section WithNumbers.

Context {number : Type} `{JsNumber number}.

Implicit Types (dbRows : list (SupabaseCustomer number)) (st : @LoopState number).
Implicit Types (respond : nat → UpsertOutcome).

(** The text kept in [lastError] for a failed upsert: [error.message] or
    [e.message]. *)
Definition failure_message (o : UpsertOutcome) : jsstring :=
  match o with
  | Upserted => []
  | UpsertError e => message e
  | UpsertThrows m => m
  end.

(** What [onProgress] is told after chunk [k], when the loop gets there. *)
Definition progress_after dbRows respond (k : nat) : Z * Z * Z :=
  (Z.of_nat (Nat.min (S k * CHUNK_SIZE) (length dbRows)),
   Z.of_nat (length dbRows),
   tally failed dbRows respond 0 (S k)).

Ltac loop_state :=
  cbn [report chunk_succeeded chunk_failed aborted finished
       totalSuccess totalErrors lastError sent progress
       success errorCount error fst snd].

Lemma chunk_at_length dbRows k :
  length (chunk_at dbRows k) = Nat.min CHUNK_SIZE (length dbRows - k * CHUNK_SIZE).
Proof. apply slice_length. Qed.

Lemma chunk_at_nonempty dbRows k :
  (k < n_chunks (length dbRows))%nat → (0 < length (chunk_at dbRows k))%nat.
Proof.
  intros Hk. apply before_n_chunks in Hk. rewrite chunk_at_length.
  unfold CHUNK_SIZE in *. lia.
Qed.

Lemma tally_nonneg P dbRows respond k m : 0 ≤ tally P dbRows respond k m.
Proof.
  revert k. induction m as [|m IH]; intros k; cbn [tally]; [done|].
  specialize (IH (S k)). destruct (P (respond k)); lia.
Qed.

Lemma tally_snoc P dbRows respond k m :
  tally P dbRows respond k (S m)
  = tally P dbRows respond k m
    + (if P (respond (k + m)%nat) then Z.of_nat (length (chunk_at dbRows (k + m))) else 0).
Proof.
  revert k. induction m as [|m IH]; intros k.
  - cbn [tally]. replace (k + 0)%nat with k by lia. lia.
  - change (tally P dbRows respond k (S (S m)))
      with ((if P (respond k) then Z.of_nat (length (chunk_at dbRows k)) else 0)
            + tally P dbRows respond (S k) (S m)).
    rewrite IH. cbn [tally]. replace (S k + m)%nat with (k + S m)%nat by lia. lia.
Qed.

(** One iteration, in terms of the chunk index. *)
Lemma chunk_loop_at dbRows respond k st :
  (k < n_chunks (length dbRows))%nat →
  chunk_loop dbRows respond (k * CHUNK_SIZE) st =
    match respond k with
    | Upserted =>
        chunk_loop dbRows respond (S k * CHUNK_SIZE)
          (report dbRows (k * CHUNK_SIZE) (chunk_at dbRows k)
             (chunk_succeeded (chunk_at dbRows k) st))
    | UpsertError e =>
        if is_permission e
        then aborted dbRows (chunk_failed (chunk_at dbRows k) (message e) st)
        else chunk_loop dbRows respond (S k * CHUNK_SIZE)
               (report dbRows (k * CHUNK_SIZE) (chunk_at dbRows k)
                  (chunk_failed (chunk_at dbRows k) (message e) st))
    | UpsertThrows m =>
        chunk_loop dbRows respond (S k * CHUNK_SIZE)
          (report dbRows (k * CHUNK_SIZE) (chunk_at dbRows k)
             (chunk_failed (chunk_at dbRows k) m st))
    end.
Proof.
  intros Hk. apply before_n_chunks in Hk.
  rewrite chunk_loop_step by done. cbv zeta. rewrite chunk_index.
  fold (chunk_at dbRows k).
  replace (k * CHUNK_SIZE + CHUNK_SIZE)%nat with (S k * CHUNK_SIZE)%nat by lia.
  reflexivity.
Qed.

Lemma chunk_loop_end dbRows respond st :
  chunk_loop dbRows respond (n_chunks (length dbRows) * CHUNK_SIZE) st = finished st.
Proof. apply chunk_loop_done, n_chunks_covers. Qed.

(** The import as the loop over the rows, the empty input included. *)
Lemma bulkUpsertCustomers_loop (customers : list Customer) respond :
  bulkUpsertCustomers customers respond
  = chunk_loop (map to_db_row customers) respond (0 * CHUNK_SIZE) initial.
Proof.
  unfold bulkUpsertCustomers. destruct customers as [|c customers]; [|done].
  cbn [length Nat.eqb map]. by rewrite chunk_loop_done.
Qed.

(** *** The error that is reported *)

Lemma chunk_loop_error dbRows respond m : ∀ k st,
  (k + m = n_chunks (length dbRows))%nat →
  0 ≤ totalErrors st →
  totalSuccess st + totalErrors st
    = Z.of_nat (Nat.min (k * CHUNK_SIZE) (length dbRows)) →
  let out := chunk_loop dbRows respond (k * CHUNK_SIZE) st in
  (error out.1 = NoError ↔
     lastError st = NoError ∧ ∀ j, (k ≤ j < k + m)%nat → respond j = Upserted) ∧
  (errorCount out.1 = 0 ↔
     totalErrors st = 0 ∧ ∀ j, (k ≤ j < k + m)%nat → respond j = Upserted).
Proof.
  induction m as [|m IH]; intros k st Hk Hnn Hsum; cbv zeta.
  - replace k with (n_chunks (length dbRows)) by lia.
    rewrite chunk_loop_end. loop_state.
    split; (split; [intros He; split; [done | intros j Hj; lia] | by intros [He _]]).
  - assert (Hin : (k < n_chunks (length dbRows))%nat) by lia.
    pose proof (chunk_at_nonempty dbRows k Hin) as Hpos.
    pose proof (chunk_at_length dbRows k) as Hlen.
    pose proof (before_n_chunks _ _ Hin) as Hlt.
    rewrite chunk_loop_at by done.
    assert (Hfail : ∀ msg,
      let out := chunk_loop dbRows respond (S k * CHUNK_SIZE)
                   (report dbRows (k * CHUNK_SIZE) (chunk_at dbRows k)
                      (chunk_failed (chunk_at dbRows k) msg st)) in
      error out.1 ≠ NoError ∧ errorCount out.1 ≠ 0).
    { intros msg. cbv zeta.
      destruct (IH (S k) (report dbRows (k * CHUNK_SIZE) (chunk_at dbRows k)
                            (chunk_failed (chunk_at dbRows k) msg st)))
        as [He Hc]; [lia | loop_state; lia | loop_state; rewrite Hlen; lia |].
      revert He Hc. loop_state. intros He Hc. split.
      - intros Hno. apply He in Hno as [? _]. discriminate.
      - intros Hno. apply Hc in Hno as [? _]. lia. }
    destruct (respond k) as [|e|msg] eqn:Hr.
    + destruct (IH (S k) (report dbRows (k * CHUNK_SIZE) (chunk_at dbRows k)
                            (chunk_succeeded (chunk_at dbRows k) st)))
        as [He Hc]; [lia | loop_state; lia | loop_state; rewrite Hlen; lia |].
      revert He Hc. loop_state. intros He Hc.
      assert (Hall : (∀ j, (S k ≤ j < S k + m)%nat → respond j = Upserted)
                     ↔ (∀ j, (k ≤ j < k + S m)%nat → respond j = Upserted)).
      { split; intros Hj j Hrange.
        - destruct (decide (j = k)) as [->|]; [done|]. apply Hj. lia.
        - apply Hj. lia. }
      rewrite He, Hc, Hall. done.
    + assert (Hnot : ¬ ∀ j, (k ≤ j < k + S m)%nat → respond j = Upserted).
      { intros Hj. specialize (Hj k ltac:(lia)). congruence. }
      destruct (is_permission e).
      * loop_state. split; (split; [|tauto]); [discriminate|]. lia.
      * destruct (Hfail (message e)) as [He Hc]. tauto.
    + assert (Hnot : ¬ ∀ j, (k ≤ j < k + S m)%nat → respond j = Upserted).
      { intros Hj. specialize (Hj k ltac:(lia)). congruence. }
      destruct (Hfail msg) as [He Hc]. tauto.
Qed.

(** Without a permission failure, the error reported is the message of the
    last chunk that failed. *)
Lemma chunk_loop_last_error dbRows respond m : ∀ k st,
  (k + m = n_chunks (length dbRows))%nat →
  (∀ j, (k ≤ j < k + m)%nat → permission_failure (respond j) = false) →
  let out := chunk_loop dbRows respond (k * CHUNK_SIZE) st in
  ((∀ j, (k ≤ j < k + m)%nat → respond j = Upserted) → error out.1 = lastError st) ∧
  (∀ l, (k ≤ l < k + m)%nat → failed (respond l) = true →
     (∀ j, (l < j < k + m)%nat → respond j = Upserted) →
     error out.1 = LastMessage (failure_message (respond l))).
Proof.
  induction m as [|m IH]; intros k st Hk Hperm; cbv zeta.
  - replace k with (n_chunks (length dbRows)) by lia.
    rewrite chunk_loop_end. loop_state. split; [done|]. intros l Hl. lia.
  - assert (Hin : (k < n_chunks (length dbRows))%nat) by lia.
    rewrite chunk_loop_at by done.
    pose proof (Hperm k ltac:(lia)) as Hk0.
    assert (Hrest : ∀ j, (S k ≤ j < S k + m)%nat →
                         permission_failure (respond j) = false)
      by (intros j Hj; apply Hperm; lia).
    assert (Hfail : ∀ msg, failed (respond k) = true → failure_message (respond k) = msg →
      let out := chunk_loop dbRows respond (S k * CHUNK_SIZE)
                   (report dbRows (k * CHUNK_SIZE) (chunk_at dbRows k)
                      (chunk_failed (chunk_at dbRows k) msg st)) in
      ((∀ j, (k ≤ j < k + S m)%nat → respond j = Upserted) → error out.1 = lastError st) ∧
      (∀ l, (k ≤ l < k + S m)%nat → failed (respond l) = true →
         (∀ j, (l < j < k + S m)%nat → respond j = Upserted) →
         error out.1 = LastMessage (failure_message (respond l)))).
    { intros msg Hf Hmsg. cbv zeta.
      destruct (IH (S k) (report dbRows (k * CHUNK_SIZE) (chunk_at dbRows k)
                            (chunk_failed (chunk_at dbRows k) msg st))
                  ltac:(lia) Hrest) as [Hclean Hlast].
      revert Hclean Hlast. loop_state. intros Hclean Hlast. split.
      - intros Hall. specialize (Hall k ltac:(lia)). rewrite Hall in Hf. discriminate.
      - intros l Hl Hfl Hafter. destruct (decide (l = k)) as [->|Hne].
        + rewrite Hmsg. apply Hclean. intros j Hj. apply Hafter. lia.
        + apply Hlast; [lia | done |]. intros j Hj. apply Hafter. lia. }
    destruct (respond k) as [|e|msg] eqn:Hr.
    + destruct (IH (S k) (report dbRows (k * CHUNK_SIZE) (chunk_at dbRows k)
                            (chunk_succeeded (chunk_at dbRows k) st))
                  ltac:(lia) Hrest) as [Hclean Hlast].
      revert Hclean Hlast. loop_state. intros Hclean Hlast. split.
      * intros Hall. apply Hclean. intros j Hj. apply Hall. lia.
      * intros l Hl Hfl Hafter. destruct (decide (l = k)) as [->|Hne].
        { rewrite Hr in Hfl. discriminate. }
        apply Hlast; [lia | done |]. intros j Hj. apply Hafter. lia.
    + cbn [permission_failure] in Hk0. rewrite Hk0.
      apply (Hfail (message e)); reflexivity.
    + apply (Hfail msg); reflexivity.
Qed.

(** X7. The result of an import carries no error exactly when every chunk was
    accepted, which is also when the error count is zero and when the
    success count is the size of the input. When chunks failed, none of them
    for lack of permission, the error is the message of the last one that
    failed. *)
Theorem bulkUpsert_error_report (customers : list Customer) respond :
  let dbRows := map to_db_row customers in
  let N := Z.of_nat (length customers) in
  let n := n_chunks (length customers) in
  let out := bulkUpsertCustomers customers respond in
  (error out.1 = NoError ↔ ∀ j, (j < n)%nat → respond j = Upserted) ∧
  (errorCount out.1 = 0 ↔ error out.1 = NoError) ∧
  (success out.1 = N ↔ error out.1 = NoError) ∧
  (∀ l, (l < n)%nat → failed (respond l) = true →
     (∀ j, (j < n)%nat → permission_failure (respond j) = false) →
     (∀ j, (l < j < n)%nat → respond j = Upserted) →
     error out.1 = LastMessage (failure_message (respond l))).
Proof.
  cbv zeta. rewrite bulkUpsertCustomers_loop.
  assert (Hlen : length (map to_db_row customers) = length customers)
    by apply length_map.
  destruct (chunk_loop_error (map to_db_row customers) respond
              (n_chunks (length customers)) 0 initial) as [He Hc];
    [by rewrite Hlen | done | cbn; lia |].
  pose proof (chunk_loop_total (map to_db_row customers) respond
                (n_chunks (length customers)) 0 initial
                ltac:(by rewrite Hlen) ltac:(cbn; lia)) as Hsum.
  cbv zeta in Hsum. rewrite Hlen in Hsum.
  cbn [initial lastError totalErrors] in He, Hc.
  assert (Hall : (∀ j, (0 ≤ j < 0 + n_chunks (length customers))%nat → respond j = Upserted)
                 ↔ (∀ j, (j < n_chunks (length customers))%nat → respond j = Upserted)).
  { split; intros Hj j Hrange; apply Hj; lia. }
  rewrite Hall in He, Hc.
  split; [tauto|]. split; [tauto|]. split.
  - split; intros Hs.
    + apply He. split; [done|]. apply Hc. lia.
    + apply He in Hs as [_ Hs]. assert (Hzero := proj2 Hc (conj eq_refl Hs)). lia.
  - intros l Hl Hfl Hperm Hafter.
    destruct (chunk_loop_last_error (map to_db_row customers) respond
                (n_chunks (length customers)) 0 initial) as [_ Hlast].
    + by rewrite Hlen.
    + intros j Hj. apply Hperm. lia.
    + apply Hlast; [lia | done |]. intros j Hj. apply Hafter. lia.
Qed.

(** *** The progress that is reported *)

Lemma chunk_loop_progress dbRows respond m : ∀ k st,
  (k + m ≤ n_chunks (length dbRows))%nat →
  (∀ j, (k ≤ j < k + m)%nat → permission_failure (respond j) = false) →
  totalErrors st = tally failed dbRows respond 0 k →
  (k + m = n_chunks (length dbRows) ∨
   permission_failure (respond (k + m)%nat) = true)%nat →
  let out := chunk_loop dbRows respond (k * CHUNK_SIZE) st in
  progress out.2 = progress st ++ map (progress_after dbRows respond) (seq k m).
Proof.
  induction m as [|m IH]; intros k st Hk Hperm Herr Hend; cbv zeta.
  - cbn [seq map]. rewrite app_nil_r. replace (k + 0)%nat with k in Hend by lia.
    destruct Hend as [Hend|Hend].
    + rewrite Hend, chunk_loop_end. reflexivity.
    + destruct (decide (k < n_chunks (length dbRows))%nat) as [Hin|Hge].
      * rewrite chunk_loop_at by done.
        destruct (respond k) as [|e|msg]; try discriminate.
        cbn [permission_failure] in Hend. rewrite Hend. reflexivity.
      * replace k with (n_chunks (length dbRows)) by lia.
        rewrite chunk_loop_end. reflexivity.
  - assert (Hin : (k < n_chunks (length dbRows))%nat) by lia.
    rewrite chunk_loop_at by done.
    pose proof (Hperm k ltac:(lia)) as Hk0.
    assert (Hrest : ∀ j, (S k ≤ j < S k + m)%nat →
                         permission_failure (respond j) = false)
      by (intros j Hj; apply Hperm; lia).
    assert (Hend' : (S k + m = n_chunks (length dbRows) ∨
                     permission_failure (respond (S k + m)%nat) = true)%nat).
    { replace (S k + m)%nat with (k + S m)%nat by lia. exact Hend. }
    pose proof (before_n_chunks _ _ Hin) as Hlt.
    pose proof (chunk_at_length dbRows k) as Hlen.
    assert (Hprocessed :
      (if (length dbRows <? k * CHUNK_SIZE + length (chunk_at dbRows k))%nat
       then Z.of_nat (length dbRows)
       else Z.of_nat (k * CHUNK_SIZE + length (chunk_at dbRows k)))
      = Z.of_nat (Nat.min (S k * CHUNK_SIZE) (length dbRows))).
    { destruct (Nat.ltb_spec (length dbRows) (k * CHUNK_SIZE + length (chunk_at dbRows k))); lia. }
    pose proof (tally_snoc failed dbRows respond 0 k) as Hsnoc.
    cbn [Nat.add] in Hsnoc.
    change (seq k (S m)) with (k :: seq (S k) m). cbn [map].
    destruct (respond k) as [|e|msg] eqn:Hr.
    + rewrite (IH (S k)); [| lia | exact Hrest | | exact Hend'].
      * loop_state. rewrite <- app_assoc. cbn [app]. do 2 f_equal.
        unfold progress_after. rewrite Hprocessed, Hsnoc, <- Herr.
        cbn [failed accepted negb]. do 2 f_equal. lia.
      * loop_state. rewrite Hsnoc, <- Herr. cbn [failed accepted negb]. lia.
    + cbn [permission_failure] in Hk0. rewrite Hk0.
      rewrite (IH (S k)); [| lia | exact Hrest | | exact Hend'].
      * loop_state. rewrite <- app_assoc. cbn [app]. do 2 f_equal.
        unfold progress_after. rewrite Hprocessed, Hsnoc, <- Herr.
        cbn [failed accepted negb]. reflexivity.
      * loop_state. rewrite Hsnoc, <- Herr. cbn [failed accepted negb]. lia.
    + rewrite (IH (S k)); [| lia | exact Hrest | | exact Hend'].
      * loop_state. rewrite <- app_assoc. cbn [app]. do 2 f_equal.
        unfold progress_after. rewrite Hprocessed, Hsnoc, <- Herr.
        cbn [failed accepted negb]. reflexivity.
      * loop_state. rewrite Hsnoc, <- Herr. cbn [failed accepted negb]. lia.
Qed.

(** X8. [onProgress] is called once after every chunk that did not end the
    import, in order, with the number of records gone through so far (never
    more than the size of the input), the size of the input, and the errors
    counted so far. Without a permission failure that is one call per chunk,
    and the last call reports the whole input and the error count of the
    result. With the first permission failure at chunk k, the calls are those
    for the chunks before k: the failure itself is not reported. *)
Theorem bulkUpsert_progress (customers : list Customer) respond :
  let dbRows := map to_db_row customers in
  let N := Z.of_nat (length customers) in
  let n := n_chunks (length customers) in
  let out := bulkUpsertCustomers customers respond in
  ((∀ j, (j < n)%nat → permission_failure (respond j) = false) →
     progress out.2 = map (progress_after dbRows respond) (seq 0 n) ∧
     (customers ≠ [] → last (progress out.2) = Some (N, N, errorCount out.1))) ∧
  (∀ k, (k < n)%nat → permission_failure (respond k) = true →
     (∀ j, (j < k)%nat → permission_failure (respond j) = false) →
     progress out.2 = map (progress_after dbRows respond) (seq 0 k)).
Proof.
  cbv zeta. rewrite bulkUpsertCustomers_loop.
  assert (Hlen : length (map to_db_row customers) = length customers)
    by apply length_map.
  split.
  - intros Hperm.
    assert (Hp : progress (chunk_loop (map to_db_row customers) respond
                             (0 * CHUNK_SIZE) initial).2
                 = map (progress_after (map to_db_row customers) respond)
                       (seq 0 (n_chunks (length customers)))).
    { rewrite (chunk_loop_progress (map to_db_row customers) respond
                 (n_chunks (length customers)) 0 initial); [done | | | done |].
      - rewrite Hlen. lia.
      - intros j Hj. apply Hperm. lia.
      - left. by rewrite Hlen. }
    split; [exact Hp|]. intros Hne. rewrite Hp.
    destruct (chunk_loop_runs (map to_db_row customers) respond
                (n_chunks (length customers)) 0 initial) as (_ & _ & Herr).
    { by rewrite Hlen. }
    { intros j Hj. apply Hperm. lia. }
    rewrite Herr. cbn [initial totalErrors].
    assert (Hpos : (0 < n_chunks (length customers))%nat).
    { destruct customers as [|c customers]; [done|].
      pose proof (n_chunks_covers (length (c :: customers))). cbn [length] in *. lia. }
    destruct (n_chunks (length customers)) as [|n'] eqn:Hn; [lia|].
    rewrite seq_S, map_app. cbn [map Nat.add]. rewrite last_snoc.
    unfold progress_after. rewrite Hlen, <- Hn.
    pose proof (n_chunks_covers (length customers)).
    do 3 f_equal; lia.
  - intros k Hk Hab Hperm.
    rewrite (chunk_loop_progress (map to_db_row customers) respond k 0 initial);
      [done | | | done |].
    + rewrite Hlen. lia.
    + intros j Hj. apply Hperm. lia.
    + right. exact Hab.
Qed.

End WithNumbers.

(** The import of [sample_customers] with a time-out on the second chunk:
    three progress calls. With the second chunk refused for lack of
    permission: one. *)
Example progress_of_sample_imports :
  progress (bulkUpsertCustomers (H := text_number) sample_customers stumbles_on_second).2
  = [(200, 450, 0); (400, 450, 200); (450, 450, 200)] ∧
  progress (bulkUpsertCustomers (H := text_number) sample_customers refuses_second).2
  = [(200, 450, 0)].
Proof. vm_compute. done. Qed.

End BulkReport.

(** ** What a lookup leaves behind

    Source: [src/services/supabaseClient.ts], lines 40-63 and 157-186. *)

Module LookupEffects.

Import Lookup.

Section WithNumbers.

Context {number : Type} `{JsNumber number}.

Implicit Types (customers : list (SupabaseCustomer number)) (dev : Device).
Implicit Types (storage : gmap jsstring Stored).

(** Every entry of the cache holds the customer of the installation number
    it is filed under. *)
Definition cache_consistent storage : Prop :=
  ∀ key cached timestamp,
    storage !! (CACHE_PREFIX ++ key) = Some (CacheRecord cached timestamp) →
    installationNumber cached = key.

(** The same circumstances, with the storage refusing the write or not. *)
Definition with_storage_full (full : bool) (c : Circumstances) : Circumstances :=
  {| read_at := read_at c; saved_at := saved_at c; fault := fault c;
     storage_full := full |}.

Lemma cache_key_inj (key key' : jsstring) :
  CACHE_PREFIX ++ key = CACHE_PREFIX ++ key' → key = key'.
Proof. apply app_inv_head. Qed.

(** *** The storage slots a call touches *)

Lemma getFromCache_frame now storage key slot :
  slot ≠ CACHE_PREFIX ++ key →
  (getFromCache now storage key).2 !! slot = storage !! slot.
Proof.
  intros Hne. unfold getFromCache.
  destruct (storage !! (CACHE_PREFIX ++ key)) as [[d ts|[ts|]|t]|]; try done;
    (destruct (now - ts >? CACHE_DURATION_MS); [|done]);
    cbn [snd]; by apply lookup_delete_ne.
Qed.

Lemma saveToCache_frame now full storage key customer slot :
  slot ≠ CACHE_PREFIX ++ key →
  saveToCache now full storage key customer !! slot = storage !! slot.
Proof.
  intros Hne. unfold saveToCache. destruct full; [done|].
  by apply lookup_insert_ne.
Qed.

(** The storage after a lookup: what the read left, with the customer
    written when one was fetched. *)
Lemma find_storage c customers dev key :
  let out := findCustomerByInstallationNumber c customers dev key in
  let read := getFromCache (read_at c) (localStorage dev) key in
  localStorage out.2 = read.2 ∨
  ∃ customer, read.1 = None ∧ out.1 = Return customer ∧
              installationNumber customer = key ∧
              localStorage out.2
              = saveToCache (saved_at c) (storage_full c) read.2 key customer.
Proof.
  cbv zeta. unfold findCustomerByInstallationNumber.
  destruct (getFromCache (read_at c) (localStorage dev) key) as [[cached|] storage];
    [by left|].
  unfold select_single.
  destruct (fault c) as [e|]; cbn [error data].
  { left. by destruct (str_eqb (code e) PGRST116). }
  destruct (List.filter (has_installation_number key) customers)
    as [|row [|row' rest]] eqn:Hrows; cbn [error data];
    [left; reflexivity | | left; reflexivity].
  right. exists (mapSupabaseCustomerToApp row). repeat split.
  assert (Hin : In row (List.filter (has_installation_number key) customers))
    by (rewrite Hrows; by left).
  apply filter_In in Hin as [_ Hkey]. by apply str_eqb_true in Hkey.
Qed.

(** X9. A lookup touches one slot of the storage at most, the one of its key:
    the entries of the other installation numbers and everything else kept
    in the storage stay as they are. And whether the storage accepts the write
    changes neither the answer nor the queries sent. *)
Theorem lookup_touches_own_slot c customers dev key :
  let out := findCustomerByInstallationNumber c customers dev key in
  (∀ slot, slot ≠ CACHE_PREFIX ++ key →
     localStorage out.2 !! slot = localStorage dev !! slot) ∧
  (∀ key', key' ≠ key →
     localStorage out.2 !! (CACHE_PREFIX ++ key')
     = localStorage dev !! (CACHE_PREFIX ++ key')) ∧
  (∀ full,
     let out' := findCustomerByInstallationNumber (with_storage_full full c)
                   customers dev key in
     out'.1 = out.1 ∧ queries out'.2 = queries out.2).
Proof.
  cbv zeta.
  assert (Hframe : ∀ slot, slot ≠ CACHE_PREFIX ++ key →
            localStorage (findCustomerByInstallationNumber c customers dev key).2 !! slot
            = localStorage dev !! slot).
  { intros slot Hne.
    destruct (find_storage c customers dev key) as [Hs|(customer & _ & _ & _ & Hs)];
      rewrite Hs.
    - by apply getFromCache_frame.
    - rewrite saveToCache_frame by done. by apply getFromCache_frame. }
  split; [exact Hframe|]. split.
  - intros key' Hne. apply Hframe. intros He. by apply cache_key_inj in He.
  - intros full. unfold findCustomerByInstallationNumber.
    cbn [with_storage_full read_at saved_at fault storage_full].
    destruct (getFromCache (read_at c) (localStorage dev) key) as [[cached|] storage];
      [done|].
    destruct (select_single _ customers (fault c)) as [[row|] [e|]];
      cbn [error data]; try done;
      by destruct (str_eqb (code e) PGRST116).
Qed.

(** *** Failures are not cached *)

Lemma read_leaves_no_entry now storage key :
  (getFromCache now storage key).1 = None →
  ∀ later, no_fresh_entry later (getFromCache now storage key).2 key.
Proof.
  unfold getFromCache, no_fresh_entry.
  destruct (storage !! (CACHE_PREFIX ++ key)) as [[d ts|[ts|]|t]|] eqn:Hl;
    cbn [fst snd]; intros Hnone later.
  - destruct (now - ts >? CACHE_DURATION_MS); [|discriminate].
    cbn [snd]. by rewrite lookup_delete_eq.
  - destruct (now - ts >? CACHE_DURATION_MS); cbn [snd].
    + by rewrite lookup_delete_eq.
    + by rewrite Hl.
  - by rewrite Hl.
  - by rewrite Hl.
  - by rewrite Hl.
Qed.

(** X10. A lookup that fails, for whatever reason (no such record, several
    records, the store out of reach), writes nothing to the cache: whenever
    the same number is looked up again, the remote store is asked again. *)
Theorem failed_lookup_is_not_cached c customers dev key (e : AppError) :
  (findCustomerByInstallationNumber c customers dev key).1 = Throw e →
  let out := findCustomerByInstallationNumber c customers dev key in
  queries out.2 = queries dev ++ [key] ∧
  (∀ later, no_fresh_entry later (localStorage out.2) key) ∧
  (∀ c' customers',
     queries (findCustomerByInstallationNumber c' customers' out.2 key).2
     = queries dev ++ [key; key]).
Proof.
  intros Hthrow. cbv zeta.
  assert (Hread : (getFromCache (read_at c) (localStorage dev) key).1 = None).
  { revert Hthrow. unfold findCustomerByInstallationNumber.
    destruct (getFromCache (read_at c) (localStorage dev) key) as [[cached|] storage];
      [discriminate | done]. }
  assert (Hstore : localStorage (findCustomerByInstallationNumber c customers dev key).2
                   = (getFromCache (read_at c) (localStorage dev) key).2).
  { destruct (find_storage c customers dev key) as [Hs|(customer & _ & Hret & _)];
      [exact Hs | congruence]. }
  assert (Hq : queries (findCustomerByInstallationNumber c customers dev key).2
               = queries dev ++ [key]).
  { revert Hread. unfold findCustomerByInstallationNumber.
    destruct (getFromCache (read_at c) (localStorage dev) key) as [[cached|] storage];
      [discriminate|]. intros _.
    destruct (select_single _ customers (fault c)) as [[row|] [e'|]];
      cbn [error data]; try reflexivity;
      destruct (str_eqb (code e') PGRST116); reflexivity. }
  assert (Hnone : ∀ later,
            no_fresh_entry later
              (localStorage (findCustomerByInstallationNumber c customers dev key).2) key).
  { intros later. rewrite Hstore. by apply read_leaves_no_entry. }
  split; [exact Hq|]. split; [exact Hnone|].
  intros c' customers'. rewrite find_miss_asks by apply Hnone.
  rewrite Hq, <- app_assoc. reflexivity.
Qed.

(** *** The entries of the cache *)

(** X11. In a cache whose entries are filed under their own installation number,
    as in an empty one, a lookup that returns a customer returns one with the
    number asked for, from the cache or from the store, and the cache stays
    that way. *)
Theorem lookup_returns_the_number_asked c customers dev key :
  cache_consistent (localStorage dev) →
  let out := findCustomerByInstallationNumber c customers dev key in
  cache_consistent (localStorage out.2) ∧
  (∀ customer, out.1 = Return customer → installationNumber customer = key).
Proof.
  intros Hcons. cbv zeta.
  assert (Hread : cache_consistent (getFromCache (read_at c) (localStorage dev) key).2).
  { intros key' cached ts. unfold getFromCache.
    destruct (localStorage dev !! (CACHE_PREFIX ++ key)) as [[d ts0|[ts0|]|t]|];
      try apply Hcons;
      (destruct (read_at c - ts0 >? CACHE_DURATION_MS); [|apply Hcons]);
      cbn [snd]; intros Hl; apply lookup_delete_Some in Hl as [_ Hl];
      by apply Hcons in Hl. }
  split.
  - destruct (find_storage c customers dev key)
      as [Hs|(customer & _ & _ & Hnum & Hs)]; rewrite Hs; [exact Hread|].
    unfold saveToCache. destruct (storage_full c); [exact Hread|].
    intros key' cached ts Hl.
    apply lookup_insert_Some in Hl as [[Hk [= <- _]]|[_ Hl]].
    + apply cache_key_inj in Hk. congruence.
    + by apply Hread in Hl.
  - intros customer. unfold findCustomerByInstallationNumber.
    destruct (getFromCache (read_at c) (localStorage dev) key)
      as [[cached|] storage] eqn:Hget.
    + intros [= <-]. revert Hget. unfold getFromCache.
      destruct (localStorage dev !! (CACHE_PREFIX ++ key)) as [[d ts0|[ts0|]|t]|] eqn:Hl;
        try discriminate;
        (destruct (read_at c - ts0 >? CACHE_DURATION_MS); try discriminate).
      intros [= <- _]. by apply Hcons in Hl.
    + unfold select_single.
      destruct (fault c) as [e|]; cbn [error data];
        [ destruct (str_eqb (code e) PGRST116); discriminate |].
      destruct (List.filter (has_installation_number key) customers)
        as [|row [|row' rest]] eqn:Hrows; cbn [error data]; try discriminate.
      intros [= <-].
      assert (Hin : In row (List.filter (has_installation_number key) customers))
        by (rewrite Hrows; by left).
      apply filter_In in Hin as [_ Hkey]. by apply str_eqb_true in Hkey.
Qed.

End WithNumbers.

(** The number 49999 is not in the registry, and is asked for twice. *)
Lemma failed_lookup_is_not_cached_witness :
  queries (findCustomerByInstallationNumber (H := text_number) (at_time 2000) registry
             (findCustomerByInstallationNumber (H := text_number) (at_time 1000)
                registry new_device (js "49999")).2 (js "49999")).2
  = [js "49999"; js "49999"].
Proof.
  destruct (failed_lookup_is_not_cached (H := text_number) (at_time 1000) registry
              new_device (js "49999") NotFound eq_refl) as (_ & _ & Hagain).
  exact (Hagain (at_time 2000) registry).
Defined.

(** On a new device, whose cache is empty. *)
Lemma lookup_returns_the_number_asked_witness :
  ∃ customer,
    (findCustomerByInstallationNumber (H := text_number) (at_time 1000) registry
       new_device (js "40002")).1 = Return customer ∧
    installationNumber customer = js "40002".
Proof.
  destruct (lookup_returns_the_number_asked (H := text_number) (at_time 1000) registry
              new_device (js "40002")) as [_ Hnumber].
  - intros key cached ts Hl. cbn [new_device localStorage] in Hl.
    by rewrite lookup_empty in Hl.
  - eexists. split; [reflexivity|]. by apply Hnumber.
Defined.

End LookupEffects.

(** ** The activity of the users: reset and the table of the admin screen

    Source: [src/services/supabaseClient.ts], lines 250-333 and 489-496;
    [src/unnamed/part_001] (the admin screen), lines 44-77. *)

Module Activity.

Import Auth Search Stats Accounts.

(** [resetUserStats(username)] on the rows of [search_logs]:
    [.delete().eq('username', username)]. *)
Definition resetUserStats (logs : list SearchLog) (fault : option PostgrestError)
    (u : jsstring) : Result unit * list SearchLog :=
  match fault with
  | Some e => (handleSupabaseError e "resetUserStats", logs)
  | None =>
      (Return tt,
       List.filter (λ log, negb (bool_decide (log_username log = Some u))) logs)
  end.

(** [AdminUserData]: a credential with the two fields of its statistics. *)
Record AdminUserData := {
  credential : Credential;
  user_queryCount : Z;
  user_lastLogin : jsstring
}.

(** [statsMap], a [Map] filled by [stats.forEach(stat => statsMap.set(..))]. *)
Definition statsMap (stats : list UserActivityStat) : gmap jsstring (Z * jsstring) :=
  fold_left (λ m stat, <[stat_username stat := (queryCount stat, lastLogin stat)]> m)
    stats ∅.

(** [mergedData]. *)
Definition mergedData (creds : list Credential) (stats : list UserActivityStat)
    : list AdminUserData :=
  map (λ cred,
         {| credential := cred;
            user_queryCount :=
              match statsMap stats !! cred_username cred with
              | Some stat => stat.1
              | None => 0
              end;
            user_lastLogin :=
              match statsMap stats !! cred_username cred with
              | Some stat => stat.2
              | None => never_logged_in
              end |}) creds.

Section WithLocale.

Variables toLocaleDateString toLocaleTimeString : Z → jsstring.

Local Abbreviation format := (Stats.format toLocaleDateString toLocaleTimeString).
Local Abbreviation fallback := (Stats.fallback toLocaleDateString toLocaleTimeString).
Local Abbreviation item_stat := (Stats.item_stat toLocaleDateString toLocaleTimeString).
Local Abbreviation getUserActivityStats :=
  (Stats.getUserActivityStats toLocaleDateString toLocaleTimeString).

(** [fetchData] of the admin screen: the rows it shows afterwards, [shown]
    being the rows it showed before. *)
Definition fetchData (users : list SupabaseUser) (fault : option PostgrestError)
    (view : Response (list ViewRow)) (logs : Response (list SearchLog))
    (shown : list AdminUserData) : list AdminUserData :=
  match getCredentials users fault with
  | Failed _ => shown
  | Done creds => mergedData creds (getUserActivityStats view logs)
  end.

(** [s] is what the log says about the user [u]. *)
Definition stat_from_logs (logs : list SearchLog) (u : jsstring)
    (s : UserActivityStat) : Prop :=
  stat_username s = u ∧
  queryCount s = Z.of_nat (length (entries u logs)) ∧
  ∃ t, latest (map created_at (entries u logs)) t ∧ lastLogin s = format t.

(** The row of the admin screen agrees with the log. *)
Definition shows_the_log (logs : list SearchLog) (row : AdminUserData) : Prop :=
  let u := cred_username (credential row) in
  user_queryCount row = Z.of_nat (length (entries u logs)) ∧
  (entries u logs = [] → user_lastLogin row = never_logged_in) ∧
  (entries u logs ≠ [] →
     ∃ t, latest (map created_at (entries u logs)) t ∧ user_lastLogin row = format t).

(** *** The fallback, entry by entry *)

Lemma latest_unique ts t t' : latest ts t → latest ts t' → t = t'.
Proof.
  intros [Hin Hmax] [Hin' Hmax'].
  specialize (Hmax _ Hin'). specialize (Hmax' _ Hin). lia.
Qed.

Lemma fallback_usernames (logs : list SearchLog) :
  plain_usernames logs → NoDup (map stat_username (fallback logs)).
Proof.
  intros Hplain.
  destruct (grouped_fold logs [] empty_object grouped_empty Hplain) as (_ & Hnd & _).
  unfold Stats.fallback. cbv zeta. rewrite stat_usernames, Object_keys_Permutation.
  exact Hnd.
Qed.

(** The users of the result: those of the log, the empty name apart. *)
Lemma fallback_keys (logs : list SearchLog) (u : jsstring) :
  plain_usernames logs →
  u ∈ Object_keys (own (fold_left record_log logs empty_object))
  ↔ u ≠ [] ∧ entries u logs ≠ [].
Proof.
  intros Hplain.
  destruct (grouped_fold logs [] empty_object grouped_empty Hplain)
    as (_ & _ & Hnone & _).
  cbn [app] in Hnone. rewrite Object_keys_Permutation. split.
  - intros Hin. destruct (decide (u = [])) as [->|Hu].
    + exfalso.
      assert (Hn : get_own [] (own (fold_left record_log logs empty_object)) = None)
        by (apply Hnone; by left).
      by apply get_own_None in Hn.
    + split; [done|]. intros He.
      assert (Hn : get_own u (own (fold_left record_log logs empty_object)) = None)
        by (apply Hnone; by right).
      by apply get_own_None in Hn.
  - intros [Hu He].
    destruct (decide (u ∈ map fst (own (fold_left record_log logs empty_object))))
      as [|Hn]; [done|].
    apply get_own_None, Hnone in Hn as [?|?]; done.
Qed.

Lemma fallback_item (logs : list SearchLog) (u : jsstring) :
  plain_usernames logs → u ≠ [] → entries u logs ≠ [] →
  stat_from_logs logs u (item_stat (fold_left record_log logs empty_object) u).
Proof.
  intros Hplain Hu He.
  destruct (grouped_fold logs [] empty_object grouped_empty Hplain)
    as (_ & _ & Hnone & Hsome).
  cbn [app] in Hnone, Hsome.
  unfold stat_from_logs, Stats.item_stat. cbn [stat_username queryCount lastLogin].
  destruct (get_own u (own (fold_left record_log logs empty_object)))
    as [item|] eqn:Hg.
  - destruct (Hsome u item Hg) as (Hc & t & Ht & Hl).
    cbn [default from_option Datatypes.id]. split; [done|]. split; [done|].
    exists t. by rewrite Ht.
  - apply Hnone in Hg as [?|?]; done.
Qed.

Lemma fallback_entry (logs : list SearchLog) (s : UserActivityStat) :
  plain_usernames logs →
  s ∈ fallback logs
  ↔ stat_username s ≠ [] ∧ entries (stat_username s) logs ≠ []
    ∧ stat_from_logs logs (stat_username s) s.
Proof.
  intros Hplain. unfold Stats.fallback. cbv zeta. split.
  - intros Hs. apply list_elem_of_In, in_map_iff in Hs as (u & <- & Hu).
    apply list_elem_of_In, (fallback_keys logs u Hplain) in Hu as [Hu He].
    change (stat_username (item_stat (fold_left record_log logs empty_object) u))
      with u.
    split; [done|]. split; [done|]. by apply fallback_item.
  - intros (Hu & He & Hs). apply list_elem_of_In, in_map_iff.
    exists (stat_username s).
    split; [|by apply list_elem_of_In, (fallback_keys logs _ Hplain)].
    destruct (fallback_item logs _ Hplain Hu He) as (_ & Hq & t & Ht & Hl).
    destruct Hs as (_ & Hq' & t' & Ht' & Hl').
    rewrite (latest_unique _ _ _ Ht' Ht) in Hl'.
    destruct s as [su sq sl]. cbn [stat_username queryCount lastLogin] in *.
    revert Hq Hl. unfold Stats.item_stat. cbn [stat_username queryCount lastLogin].
    intros Hq Hl. congruence.
Qed.

Lemma fallback_has_user (logs : list SearchLog) (u : jsstring) :
  plain_usernames logs → u ≠ [] → entries u logs ≠ [] →
  ∃ s, s ∈ fallback logs ∧ stat_username s = u.
Proof.
  intros Hplain Hu He.
  exists (item_stat (fold_left record_log logs empty_object) u). split; [|done].
  unfold Stats.fallback. cbv zeta. apply list_elem_of_In, in_map_iff.
  exists u. split; [done|]. by apply list_elem_of_In, fallback_keys.
Qed.

(** *** Resetting a user *)

Lemma entries_after_reset (logs : list SearchLog) (u v : jsstring) :
  entries v (resetUserStats logs None u).2
  = if bool_decide (v = u) then [] else entries v logs.
Proof.
  cbn [resetUserStats snd]. unfold entries.
  induction logs as [|log logs IH]; [by case_bool_decide|].
  cbn [List.filter].
  destruct (decide (log_username log = Some u)) as [Hu|Hu].
  - rewrite (bool_decide_eq_true_2 _ Hu). cbn [negb]. rewrite IH.
    case_bool_decide as Hv; [done|].
    rewrite bool_decide_eq_false_2; [done|]. rewrite Hu. congruence.
  - rewrite (bool_decide_eq_false_2 _ Hu). cbn [negb List.filter]. rewrite IH.
    case_bool_decide as Hv; [|done].
    subst v. by rewrite (bool_decide_eq_false_2 _ Hu).
Qed.

Lemma plain_after_reset (logs : list SearchLog) (u : jsstring) :
  plain_usernames logs → plain_usernames (resetUserStats logs None u).2.
Proof.
  intros Hplain log v Hin. apply (Hplain log v).
  cbn [resetUserStats snd] in Hin.
  apply list_elem_of_In, filter_In in Hin as [Hin _]. by apply list_elem_of_In.
Qed.

(** X12. Resetting the statistics of a user removes the rows of that user from the
    log and no other row. In the statistics computed from the log the user
    is then gone, and the entry of every other user is what it was. A reset
    that fails leaves the log as it is. *)
Theorem reset_clears_one_user (logs : list SearchLog) (u : jsstring) :
  plain_usernames logs →
  let remaining := (resetUserStats logs None u).2 in
  (∀ log, log ∈ remaining ↔ log ∈ logs ∧ log_username log ≠ Some u) ∧
  (∀ s, s ∈ fallback remaining ↔ s ∈ fallback logs ∧ stat_username s ≠ u) ∧
  (∀ e, (resetUserStats logs (Some e) u).2 = logs).
Proof.
  intros Hplain. cbv zeta. split; [|split; [|done]].
  - intros log. cbn [resetUserStats snd].
    rewrite list_elem_of_In, filter_In, <- list_elem_of_In.
    rewrite negb_true_iff, bool_decide_eq_false. done.
  - intros s.
    rewrite (fallback_entry _ s (plain_after_reset logs u Hplain)).
    rewrite (fallback_entry _ s Hplain).
    unfold stat_from_logs. rewrite entries_after_reset.
    case_bool_decide as Hu.
    + split; [intros (_ & He & _); done | intros [_ Hne]; done].
    + tauto.
Qed.

(** *** The table of the admin screen *)

Lemma statsMap_fold_other (stats : list UserActivityStat) (u : jsstring) :
  ∀ m : gmap jsstring (Z * jsstring),
  u ∉ map stat_username stats →
  fold_left (λ m stat, <[stat_username stat := (queryCount stat, lastLogin stat)]> m)
    stats m !! u = m !! u.
Proof.
  induction stats as [|s stats IH]; intros m Hu; [done|].
  cbn [fold_left]. rewrite IH.
  - apply lookup_insert_ne. intros He. apply Hu. rewrite <- He. left.
  - intros Hin. apply Hu. by right.
Qed.

Lemma statsMap_fold_elem (stats : list UserActivityStat) (s : UserActivityStat) :
  ∀ m : gmap jsstring (Z * jsstring),
  NoDup (map stat_username stats) → s ∈ stats →
  fold_left (λ m stat, <[stat_username stat := (queryCount stat, lastLogin stat)]> m)
    stats m !! stat_username s = Some (queryCount s, lastLogin s).
Proof.
  induction stats as [|s0 stats IH]; intros m Hnd Hin; [inversion Hin|].
  cbn [map] in Hnd. apply NoDup_cons in Hnd as [Hs0 Hnd].
  cbn [fold_left]. apply elem_of_cons in Hin as [->|Hin].
  - rewrite statsMap_fold_other by done. apply lookup_insert_eq.
  - by apply IH.
Qed.

(** X13. With the view out of use, the log read, and in it no username
    that is the name of a property of [Object.prototype] (such as
    constructor), the admin screen shows one row for every credential, in
    the order of the table, carrying the credential as stored and, under a
    username that is not empty, the number of log rows of that user and the
    time of the latest one, or zero and "Giriş Yapmadı" for a user without
    log rows. Users of the log that have no credential are not shown. When
    the credentials cannot be read the rows shown stay as they were. *)
Theorem admin_table_shows_the_log (users : list SupabaseUser)
    (view : Response (list ViewRow)) (logs : list SearchLog)
    (shown : list AdminUserData) :
  plain_usernames logs →
  Supabase.error view ≠ None ∨ data view = None →
  let rows := fetchData users None view
                {| data := Some logs; Supabase.error := None |} shown in
  map credential rows = map to_credential users ∧
  (∀ row, row ∈ rows → cred_username (credential row) ≠ [] → shows_the_log logs row) ∧
  (∀ e logs', fetchData users (Some e) view logs' shown = shown).
Proof.
  intros Hplain Hview. cbv zeta. unfold fetchData. cbn [getCredentials].
  assert (Hstats : getUserActivityStats view {| data := Some logs; Supabase.error := None |}
                   = fallback logs).
  { unfold Stats.getUserActivityStats. cbn [data Supabase.error].
    destruct (Supabase.error view) as [e|]; [done|].
    destruct Hview as [?|Hd]; [done|]. by rewrite Hd. }
  rewrite Hstats. split; [|split; [|done]].
  - unfold mergedData. rewrite map_map. cbn [credential]. apply map_id.
  - intros row Hrow Hu. unfold mergedData in Hrow.
    apply list_elem_of_In, in_map_iff in Hrow as (cred & <- & _).
    unfold shows_the_log. cbv zeta. cbn [credential user_queryCount user_lastLogin].
    cbn [credential] in Hu. set (u := cred_username cred) in *.
    pose proof (fallback_usernames logs Hplain) as Hnd.
    destruct (decide (entries u logs = [])) as [He|He].
    + assert (Hout : u ∉ map stat_username (fallback logs)).
      { intros Hin. apply list_elem_of_In, in_map_iff in Hin as (s & Hs & Hin).
        apply list_elem_of_In, (fallback_entry _ _ Hplain) in Hin as (_ & Hne & _).
        rewrite Hs in Hne. done. }
      unfold statsMap. rewrite statsMap_fold_other by done. rewrite lookup_empty.
      rewrite He. by repeat split.
    + destruct (fallback_has_user logs u Hplain Hu He) as (s & Hin & Hs).
      pose proof (statsMap_fold_elem _ s ∅ Hnd Hin) as Hlook. rewrite Hs in Hlook.
      unfold statsMap. rewrite Hlook. cbn [fst snd].
      apply (fallback_entry _ _ Hplain) in Hin as (_ & _ & (_ & Hq & Hl)).
      rewrite Hs in Hq, Hl. by repeat split.
Qed.

End WithLocale.

(** The log of [sample_logs], from which the user 1002 is removed: the
    entry of the user 1001 stays. *)
Lemma reset_clears_one_user_witness :
  {| stat_username := js "1001"; queryCount := 1; lastLogin := js "10.06.2025 09:30" |}
    ∈ fallback tr_date tr_time (resetUserStats sample_logs None (js "1002")).2.
Proof.
  destruct (reset_clears_one_user tr_date tr_time sample_logs (js "1002")
              sample_logs_plain) as (_ & Hstats & _).
  apply Hstats. split; [|discriminate].
  apply list_elem_of_In. left. vm_compute. reflexivity.
Defined.

(** The table [staff] beside [sample_logs], the view being absent. *)
Lemma admin_table_shows_the_log_witness :
  map credential
    (fetchData tr_date tr_time staff None
       {| data := None; Supabase.error := Some {| code := js "42P01"; message := js "" |} |}
       {| data := Some sample_logs; Supabase.error := None |} [])
  = map to_credential staff.
Proof.
  destruct (admin_table_shows_the_log tr_date tr_time staff
              {| data := None;
                 Supabase.error := Some {| code := js "42P01"; message := js "" |} |}
              sample_logs [] sample_logs_plain) as (Hrows & _ & _).
  - left. discriminate.
  - exact Hrows.
Defined.

Example admin_table_of_staff :
  map (λ row, (cred_username (credential row), user_queryCount row, user_lastLogin row))
    (fetchData tr_date tr_time staff None
       {| data := None; Supabase.error := Some {| code := js "42P01"; message := js "" |} |}
       {| data := Some sample_logs; Supabase.error := None |} [])
  = [ (js "1001", 1, js "10.06.2025 09:30");
      (js "1002", 3, js "11.06.2025 16:05");
      (js "1003", 0, never_logged_in) ].
Proof. vm_compute. reflexivity. Qed.

(** A user named constructor: the log row is counted on the function that
    [stats] inherits under that name, and the table shows no log for the
    user. *)
Example prototype_name_shows_no_log :
  map (λ row, (cred_username (credential row), user_queryCount row, user_lastLogin row))
    (fetchData tr_date tr_time
       [ {| id := 9; username := js "constructor"; password := js "pw";
            allowed_device_id := None |} ]
       None
       {| data := None; Supabase.error := Some {| code := js "42P01"; message := js "" |} |}
       {| data := Some [searched (Some (js "constructor"))
                          (Time.local_time 2025 6 10 9 15)];
          Supabase.error := None |} [])
  = [ (js "constructor", 0, never_logged_in) ].
Proof. vm_compute. reflexivity. Qed.

End Activity.

(** ** What a login does to the table of the users

    Source: [src/services/supabaseClient.ts], lines 189-236. *)

Module Logins.

Import Auth.

(** The fields of a credential that no login writes. *)
Definition identity (r : SupabaseUser) : Z * jsstring * jsstring :=
  (id r, username r, password r).

Lemma update_device_identity (users : list SupabaseUser) (u d : jsstring) :
  map identity (update_device users u d) = map identity users.
Proof.
  unfold update_device. rewrite map_map. apply map_ext. intros r.
  by destruct (has_username u r).
Qed.

Lemma update_device_length (users : list SupabaseUser) (u d : jsstring) :
  length (update_device users u d) = length users.
Proof. unfold update_device. apply length_map. Qed.

(** X14. A login that is rejected, for whatever reason, writes nothing; neither
    does an unrestricted login. Whatever the outcome, a login leaves the
    number of rows and the id, username and password of every row as they
    were, and does not touch the rows of the other usernames. *)
Theorem login_writes_the_device_only (users : list SupabaseUser)
    (qfault ufault : option PostgrestError) (u p d : jsstring) :
  let out := authenticateUser users qfault ufault u p d in
  (∀ e, out.1 = Throw e → out.2 = users) ∧
  (out.1 = Return true → out.2 = users) ∧
  length out.2 = length users ∧
  map identity out.2 = map identity users ∧
  (∀ i r, users !! i = Some r → username r ≠ u → out.2 !! i = Some r).
Proof.
  cbv zeta.
  assert (Hquiet : (∀ e, (authenticateUser users qfault ufault u p d).1 = Throw e →
                         (authenticateUser users qfault ufault u p d).2 = users) ∧
                   ((authenticateUser users qfault ufault u p d).1 = Return true →
                    (authenticateUser users qfault ufault u p d).2 = users)).
  { unfold authenticateUser, select_single.
    destruct qfault as [e0|]; cbn [error data].
    { by destruct (str_eqb (code e0) PGRST116). }
    destruct (List.filter (has_username u) users) as [|r [|r' rest]];
      cbn [error data]; try done.
    destruct (negb (str_eqb (password r) p)); [done|].
    destruct (bool_decide (allowed_device_id r = Some ANY_DEVICE)); [done|].
    destruct (truthy (allowed_device_id r)
              && negb (bool_decide (allowed_device_id r = Some d))); [done|].
    destruct (negb (truthy (allowed_device_id r)) && truthy (Some d)); [|done].
    destruct ufault; [done|]. cbn [fst snd]. split; [intros e|]; discriminate. }
  destruct Hquiet as [Hthrow Hany]. split; [exact Hthrow|]. split; [exact Hany|].
  destruct (authenticateUser_table users qfault ufault u p d)
    as [-> | (r0 & _ & _ & ->)]; [done|].
  split; [apply update_device_length|]. split; [apply update_device_identity|].
  intros i r Hi Hne. apply update_device_lookup_other; [done|].
  by apply str_eqb_false.
Qed.



(** With ANY_DEVICE as the device, the first login of a fresh account is a
    restricted one and the second an unrestricted one. *)
Example login_with_the_sentinel_is_not_repeatable :
  let first := authenticateUser staff None None (js "1003") (js "pw3") ANY_DEVICE in
  first.1 = Return false ∧
  (authenticateUser first.2 None None (js "1003") (js "pw3") ANY_DEVICE).1 = Return true.
Proof. split; reflexivity. Qed.

End Logins.

(** ** The identity of the device ([getPersistentDeviceId], [saveDeviceId])

    Source: [src/components/LoginScreen.tsx], lines 9-70 and 119-132. *)

Module DeviceId.

Definition STORAGE_KEY : jsstring := js "device_uuid_v2".

(** The browser as these functions use it: the local storage, whether the
    access to it throws, whether the access to [document.cookie] throws, and
    the assignments made to [document.cookie], oldest first. *)
Record Browser := {
  localStorage : gmap jsstring jsstring;
  storage_blocked : bool;
  cookie_blocked : bool;
  cookies_set : list jsstring
}.

(** What one call of [getPersistentDeviceId] reads besides the storage:
    [match[2]] when the regular expression finds the key in
    [document.cookie]; the result of [crypto.randomUUID()] when there is
    one; and the text of
    [Math.random().toString(36).substring(2, 10) + Date.now().toString(36)]. *)
Record Reads := {
  cookie_match : option jsstring;
  randomUUID : option jsstring;
  random_text : jsstring
}.

(** Step 1: [localStorage.getItem(STORAGE_KEY) || ''] under [try]. *)
Definition stored_id (b : Browser) : jsstring :=
  if storage_blocked b then [] else or_empty (localStorage b !! STORAGE_KEY).

(** Step 2: the id of the cookie, [''] when there is no match. *)
Definition cookie_id (b : Browser) (r : Reads) : jsstring :=
  if cookie_blocked b then [] else or_empty (cookie_match r).

(** Step 3: a new id, from [crypto.randomUUID] or made of random text. *)
Definition new_id (r : Reads) : jsstring :=
  match or_empty (randomUUID r) with
  | [] => js "dev-" ++ random_text r
  | c :: id => c :: id
  end.

(** [try { localStorage.setItem(STORAGE_KEY, id); } catch (e) {}]. *)
Definition store_id (id : jsstring) (b : Browser) : Browser :=
  if storage_blocked b then b
  else {| localStorage := <[STORAGE_KEY := id]> (localStorage b);
          storage_blocked := storage_blocked b;
          cookie_blocked := cookie_blocked b;
          cookies_set := cookies_set b |}.

(** [try { document.cookie = `${STORAGE_KEY}=${id}; path=/; ...` } catch (e) {}]. *)
Definition set_cookie (id : jsstring) (b : Browser) : Browser :=
  if cookie_blocked b then b
  else {| localStorage := localStorage b;
          storage_blocked := storage_blocked b;
          cookie_blocked := cookie_blocked b;
          cookies_set :=
            cookies_set b
            ++ [STORAGE_KEY ++ js "=" ++ id
                ++ js "; path=/; max-age=315360000; SameSite=Strict"] |}.

(** [getPersistentDeviceId()]. *)
Definition getPersistentDeviceId (b : Browser) (r : Reads) : jsstring * Browser :=
  match stored_id b with
  | c :: id => (c :: id, b)
  | [] =>
      match cookie_id b r with
      | c :: id => (c :: id, b)
      | [] => (new_id r, set_cookie (new_id r) (store_id (new_id r) b))
      end
  end.

(** The state of the login screen that concerns the device: the module
    variable [GLOBAL_DEVICE_ID] and the component state. *)
Record IdState := {
  GLOBAL_DEVICE_ID : jsstring;
  deviceId : jsstring;
  tempId : jsstring;
  isEditingId : bool
}.

(** The initialiser of [useState] for [deviceId], when the component is
    mounted with the module variable at [global]; after a reload of the page
    that is the empty text. *)
Definition mount (global : jsstring) (b : Browser) (r : Reads) : IdState * Browser :=
  match global with
  | [] =>
      let out := getPersistentDeviceId b r in
      ({| GLOBAL_DEVICE_ID := out.1; deviceId := out.1; tempId := [];
          isEditingId := false |}, out.2)
  | _ :: _ =>
      ({| GLOBAL_DEVICE_ID := global; deviceId := global; tempId := [];
          isEditingId := false |}, b)
  end.

(** [saveDeviceId()]. *)
Definition saveDeviceId (st : IdState) (b : Browser) : IdState * Browser :=
  match trim (tempId st) with
  | [] =>
      ({| GLOBAL_DEVICE_ID := GLOBAL_DEVICE_ID st; deviceId := deviceId st;
          tempId := tempId st; isEditingId := false |}, b)
  | _ :: _ =>
      let newId := trim (tempId st) in
      ({| GLOBAL_DEVICE_ID := newId; deviceId := newId; tempId := tempId st;
          isEditingId := false |},
       set_cookie newId (store_id newId b))
  end.

(** *** The three sources of the id *)

Lemma getPersistentDeviceId_stored (b : Browser) (r : Reads) :
  stored_id b ≠ [] → getPersistentDeviceId b r = (stored_id b, b).
Proof.
  intros Hid. unfold getPersistentDeviceId. by destruct (stored_id b).
Qed.

Lemma getPersistentDeviceId_cookie (b : Browser) (r : Reads) :
  stored_id b = [] → cookie_id b r ≠ [] →
  getPersistentDeviceId b r = (cookie_id b r, b).
Proof.
  intros Hs Hc. unfold getPersistentDeviceId. rewrite Hs.
  by destruct (cookie_id b r).
Qed.

Lemma getPersistentDeviceId_new (b : Browser) (r : Reads) :
  stored_id b = [] → cookie_id b r = [] →
  getPersistentDeviceId b r
  = (new_id r, set_cookie (new_id r) (store_id (new_id r) b)).
Proof. intros Hs Hc. unfold getPersistentDeviceId. by rewrite Hs, Hc. Qed.

Lemma new_id_nonempty (r : Reads) : new_id r ≠ [].
Proof. unfold new_id. by destruct (or_empty (randomUUID r)). Qed.

Lemma stored_id_after_store (id : jsstring) (b : Browser) :
  storage_blocked b = false → stored_id (set_cookie id (store_id id b)) = id.
Proof.
  intros Hb. unfold store_id. rewrite Hb. unfold set_cookie.
  cbn [cookie_blocked].
  destruct (cookie_blocked b); unfold stored_id;
    cbn [storage_blocked localStorage]; rewrite lookup_insert_eq; reflexivity.
Qed.

Lemma writes_keep_other_keys (id : jsstring) (b : Browser) (key : jsstring) :
  key ≠ STORAGE_KEY →
  localStorage (set_cookie id (store_id id b)) !! key = localStorage b !! key.
Proof.
  intros Hk. unfold store_id.
  destruct (storage_blocked b); unfold set_cookie; cbn [cookie_blocked];
    destruct (cookie_blocked b); cbn [localStorage];
    try reflexivity; by apply lookup_insert_ne.
Qed.

(** X16. The device id is never empty, and the call touches no other key of the
    storage. An id found in the storage is returned and nothing is written.
    An id found in the cookie only is returned as well, and is not written
    back to the storage. With a storage that can be used, an id that came
    from the storage or was made anew is the one every later call returns,
    whatever the cookies and the random sources are by then. *)
Theorem device_id_is_persistent (b : Browser) (r : Reads) :
  let out := getPersistentDeviceId b r in
  out.1 ≠ [] ∧
  (∀ key, key ≠ STORAGE_KEY → localStorage out.2 !! key = localStorage b !! key) ∧
  (stored_id b ≠ [] → out = (stored_id b, b)) ∧
  (stored_id b = [] → cookie_id b r ≠ [] → out = (cookie_id b r, b)) ∧
  (storage_blocked b = false → stored_id b ≠ [] ∨ cookie_id b r = [] →
     ∀ r', getPersistentDeviceId out.2 r' = out).
Proof.
  cbv zeta.
  destruct (decide (stored_id b = [])) as [Hs|Hs].
  - destruct (decide (cookie_id b r = [])) as [Hc|Hc].
    + rewrite (getPersistentDeviceId_new b r Hs Hc). cbn [fst snd].
      split; [apply new_id_nonempty|].
      split; [intros key Hk; by apply writes_keep_other_keys|].
      split; [done|]. split; [done|].
      intros Hb _ r'.
      pose proof (stored_id_after_store (new_id r) b Hb) as Hafter.
      rewrite getPersistentDeviceId_stored; rewrite Hafter;
        [done | apply new_id_nonempty].
    + rewrite (getPersistentDeviceId_cookie b r Hs Hc). cbn [fst snd].
      split; [done|]. split; [done|]. split; [done|]. split; [done|].
      intros _ [Hstored|Hnone]; done.
  - rewrite (getPersistentDeviceId_stored b r Hs). cbn [fst snd].
    split; [done|]. split; [done|]. split; [done|]. split; [done|].
    intros _ _ r'. by apply getPersistentDeviceId_stored.
Qed.

(** X17. Saving an id typed by the user: a blank text changes nothing but closes
    the editor; otherwise the id of the screen is the text without the white
    space around it. The id of the screen is never made empty; and with a
    storage that can be used, the saved id is the one the login screen comes
    up with after a reload. *)
Theorem edited_device_id_survives_reload (st : IdState) (b : Browser) :
  let out := saveDeviceId st b in
  (trim (tempId st) = [] →
     out.2 = b ∧ deviceId out.1 = deviceId st ∧
     GLOBAL_DEVICE_ID out.1 = GLOBAL_DEVICE_ID st) ∧
  (trim (tempId st) ≠ [] →
     deviceId out.1 = trim (tempId st) ∧
     GLOBAL_DEVICE_ID out.1 = trim (tempId st) ∧
     (storage_blocked b = false →
        ∀ r, deviceId (mount [] out.2 r).1 = trim (tempId st) ∧
             (mount [] out.2 r).2 = out.2)) ∧
  (deviceId st ≠ [] → deviceId out.1 ≠ []) ∧
  isEditingId out.1 = false.
Proof.
  cbv zeta. unfold saveDeviceId.
  destruct (trim (tempId st)) as [|c rest] eqn:Ht.
  - cbn [fst snd deviceId GLOBAL_DEVICE_ID isEditingId]. by repeat split.
  - cbn [fst snd deviceId GLOBAL_DEVICE_ID isEditingId].
    split; [done|]. split; [|by split].
    intros _. split; [done|]. split; [done|].
    intros Hb r. cbn [mount].
    pose proof (stored_id_after_store (c :: rest) b Hb) as Hafter.
    rewrite getPersistentDeviceId_stored; rewrite Hafter; done.
Qed.

(** *** A run *)

Definition new_browser : Browser :=
  {| localStorage := ∅; storage_blocked := false; cookie_blocked := false;
     cookies_set := [] |}.

Definition first_reads : Reads :=
  {| cookie_match := None;
     randomUUID := Some (js "3b241101-e2bb-4255-8caf-4136c566a962");
     random_text := js "k3j9x0q1lw2m4n5p" |}.

Example first_visit :
  getPersistentDeviceId new_browser first_reads
  = (js "3b241101-e2bb-4255-8caf-4136c566a962",
     {| localStorage :=
          {[ STORAGE_KEY := js "3b241101-e2bb-4255-8caf-4136c566a962" ]};
        storage_blocked := false; cookie_blocked := false;
        cookies_set :=
          [js "device_uuid_v2=3b241101-e2bb-4255-8caf-4136c566a962; path=/; max-age=315360000; SameSite=Strict"] |}).
Proof. reflexivity. Qed.

(** Without [crypto.randomUUID] and with everything blocked, the id is made
    of random text, and nothing is kept. *)
Example locked_down_browser :
  getPersistentDeviceId
    {| localStorage := ∅; storage_blocked := true; cookie_blocked := true;
       cookies_set := [] |}
    {| cookie_match := None; randomUUID := None; random_text := js "k3j9x0q1lw2m4n5p" |}
  = (js "dev-k3j9x0q1lw2m4n5p",
     {| localStorage := ∅; storage_blocked := true; cookie_blocked := true;
        cookies_set := [] |}).
Proof. reflexivity. Qed.

End DeviceId.

(** ** The session ([App]: [handleLogin], [handleLogout], the legal screen,
    the working hours, [renderContent])

    Source: [src/components/LoginScreen.tsx], lines 475-631 (the [App]
    component). *)

Module Session.

Import Auth.

Inductive ServerStatus := checking | online | offline.

(** The state of [App]. *)
Record App := {
  isAuthenticated : bool;
  isAdmin : bool;
  currentUser : option jsstring;
  isUnrestrictedUser : bool;
  legalAccepted : bool;
  isWorkingTime : bool;
  appError : option jsstring;
  serverStatus : ServerStatus
}.

(** The test of the effect on the configuration. *)
Definition configured (SUPABASE_URL SUPABASE_KEY : jsstring) : bool :=
  negb (bool_decide (SUPABASE_URL = []))
  && negb (includes SUPABASE_URL (js "PROJECT_ID"))
  && negb (bool_decide (SUPABASE_KEY = [])).

(** "Yapılandırma Eksik: Lütfen config.ts dosyasına Supabase URL ve Key
    bilgilerinizi girin." *)
Definition configuration_missing : jsstring :=
  js "Yap" ++ [305%N] ++ js "land" ++ [305%N] ++ js "rma Eksik: L" ++ [252%N]
  ++ js "tfen config.ts dosyas" ++ [305%N]
  ++ js "na Supabase URL ve Key bilgilerinizi girin.".

(** The state once the component is mounted at the clock reading [now]: the
    initial values of [useState], and the configuration error when the
    effect finds the configuration missing. *)
Definition start (SUPABASE_URL SUPABASE_KEY : jsstring) (now : Z) : App :=
  {| isAuthenticated := false; isAdmin := false; currentUser := None;
     isUnrestrictedUser := false; legalAccepted := false;
     isWorkingTime := Time.isWithinWorkingHours now;
     appError := if configured SUPABASE_URL SUPABASE_KEY then None
                 else Some configuration_missing;
     serverStatus := checking |}.

(** [username === 'admin' && password === 'admin123']. *)
Definition is_admin_login (u p : jsstring) : bool :=
  str_eqb u (js "admin") && str_eqb p (js "admin123").

Definition admin_session (app : App) : App :=
  {| isAuthenticated := true; isAdmin := true; currentUser := Some (js "admin");
     isUnrestrictedUser := true; legalAccepted := true;
     isWorkingTime := isWorkingTime app; appError := appError app;
     serverStatus := serverStatus app |}.

Definition user_session (app : App) (u : jsstring) (isUnrestricted : bool) : App :=
  {| isAuthenticated := true; isAdmin := false; currentUser := Some u;
     isUnrestrictedUser := isUnrestricted; legalAccepted := false;
     isWorkingTime := isWorkingTime app; appError := appError app;
     serverStatus := serverStatus app |}.

(** [handleLogin(username, password, deviceId)] against the table [users]:
    the error the promise rejects with, if it does, the state and the table
    afterwards. *)
Definition handleLogin (app : App) (users : list SupabaseUser)
    (qfault ufault : option PostgrestError) (u p d : jsstring)
    : option AppError * App * list SupabaseUser :=
  if is_admin_login u p then (None, admin_session app, users)
  else
    match authenticateUser users qfault ufault u p d with
    | (Return isUnrestricted, users') => (None, user_session app u isUnrestricted, users')
    | (Throw e, users') => (Some e, app, users')
    end.

(** [handleLogout()]. *)
Definition handleLogout (app : App) : App :=
  {| isAuthenticated := false; isAdmin := false; currentUser := None;
     isUnrestrictedUser := false; legalAccepted := false;
     isWorkingTime := isWorkingTime app; appError := appError app;
     serverStatus := serverStatus app |}.

(** [handleAcceptLegal()]. *)
Definition handleAcceptLegal (app : App) : App :=
  {| isAuthenticated := isAuthenticated app; isAdmin := isAdmin app;
     currentUser := currentUser app; isUnrestrictedUser := isUnrestrictedUser app;
     legalAccepted := true;
     isWorkingTime := isWorkingTime app; appError := appError app;
     serverStatus := serverStatus app |}.

(** [handleDeclineLegal()]. *)
Definition handleDeclineLegal (app : App) : App := handleLogout app.

(** The callback of the interval: [setIsWorkingTime(isWithinWorkingHours())]. *)
Definition tick (now : Z) (app : App) : App :=
  {| isAuthenticated := isAuthenticated app; isAdmin := isAdmin app;
     currentUser := currentUser app; isUnrestrictedUser := isUnrestrictedUser app;
     legalAccepted := legalAccepted app;
     isWorkingTime := Time.isWithinWorkingHours now; appError := appError app;
     serverStatus := serverStatus app |}.

(** [setServerStatus(..)]. *)
Definition setServerStatus (s : ServerStatus) (app : App) : App :=
  {| isAuthenticated := isAuthenticated app; isAdmin := isAdmin app;
     currentUser := currentUser app; isUnrestrictedUser := isUnrestrictedUser app;
     legalAccepted := legalAccepted app;
     isWorkingTime := isWorkingTime app; appError := appError app;
     serverStatus := s |}.

(** What [renderContent] shows. *)
Inductive Screen :=
| SetupRequired (message : jsstring)
| LoginScreen (status : ServerStatus)
| AdminScreen
| LegalScreen
| OfflineScreen
| MainScreen (username : option jsstring) (isUnrestricted : bool).

(** [renderContent()]. *)
Definition renderContent (app : App) : Screen :=
  match appError app with
  | Some message => SetupRequired message
  | None =>
      if negb (isAuthenticated app) then LoginScreen (serverStatus app)
      else if isAdmin app then AdminScreen
      else if negb (legalAccepted app) then LegalScreen
      else if negb (isWorkingTime app) then OfflineScreen
      else MainScreen (currentUser app) (isUnrestrictedUser app)
  end.

(** What happens to the component, one thing at a time. *)
Inductive Event :=
| Login (u p d : jsstring) (qfault ufault : option PostgrestError)
| Logout
| AcceptLegal
| DeclineLegal
| Tick (now : Z)
| CheckStarted
| CheckFinished (isOnline : bool).

Definition step (ev : Event) (w : App * list SupabaseUser) : App * list SupabaseUser :=
  match ev with
  | Login u p d qfault ufault =>
      let out := handleLogin w.1 w.2 qfault ufault u p d in (out.1.2, out.2)
  | Logout => (handleLogout w.1, w.2)
  | AcceptLegal => (handleAcceptLegal w.1, w.2)
  | DeclineLegal => (handleDeclineLegal w.1, w.2)
  | Tick now => (tick now w.1, w.2)
  | CheckStarted => (setServerStatus checking w.1, w.2)
  | CheckFinished isOnline =>
      (setServerStatus (if isOnline then online else offline) w.1, w.2)
  end.

Definition run (evs : list Event) (w : App * list SupabaseUser)
    : App * list SupabaseUser :=
  fold_left (λ w ev, step ev w) evs w.

(** *** The session and the events that made it *)

(** A session of a user that is open in [w] goes back to a login of that
    user among the events [evs], which [authenticateUser] let through; and
    when the legal text counts as accepted, it was accepted after that
    login. *)
Definition opened_by_login (w0 : App * list SupabaseUser) (evs : list Event)
    (w : App * list SupabaseUser) : Prop :=
  isAuthenticated w.1 = true → isAdmin w.1 = false →
  ∃ before after u p d qfault ufault,
    evs = before ++ Login u p d qfault ufault :: after ∧
    is_admin_login u p = false ∧
    (authenticateUser (run before w0).2 qfault ufault u p d).1
      = Return (isUnrestrictedUser w.1) ∧
    currentUser w.1 = Some u ∧
    (legalAccepted w.1 = true → AcceptLegal ∈ after).

(** An admin session goes back to a login with the admin password. *)
Definition opened_by_admin (evs : list Event) (w : App * list SupabaseUser) : Prop :=
  isAdmin w.1 = true →
  isAuthenticated w.1 = true ∧
  ∃ before after u p d qfault ufault,
    evs = before ++ Login u p d qfault ufault :: after ∧ is_admin_login u p = true.

Lemma run_snoc (evs : list Event) (ev : Event) (w : App * list SupabaseUser) :
  run (evs ++ [ev]) w = step ev (run evs w).
Proof. unfold run. by rewrite fold_left_app. Qed.

Lemma session_goes_on (w0 w w' : App * list SupabaseUser) (evs : list Event)
    (ev : Event) :
  opened_by_login w0 evs w →
  isAuthenticated w'.1 = isAuthenticated w.1 →
  isAdmin w'.1 = isAdmin w.1 →
  isUnrestrictedUser w'.1 = isUnrestrictedUser w.1 →
  currentUser w'.1 = currentUser w.1 →
  (legalAccepted w'.1 = true → legalAccepted w.1 = true ∨ ev = AcceptLegal) →
  opened_by_login w0 (evs ++ [ev]) w'.
Proof.
  intros Hopen Ha Hadm Hun Hu Hlegal Hauth Hnot.
  rewrite Ha in Hauth. rewrite Hadm in Hnot.
  destruct (Hopen Hauth Hnot)
    as (before & after & u & p & d & qf & uf & Hevs & Hlogin & Hret & Hcur & Hacc).
  exists before, (after ++ [ev]), u, p, d, qf, uf.
  split; [by rewrite Hevs, <- app_assoc|]. split; [done|].
  split; [by rewrite Hun|]. split; [by rewrite Hu|].
  intros Hl. apply elem_of_app. destruct (Hlegal Hl) as [Hold| ->].
  - left. by apply Hacc.
  - right. left.
Qed.

Lemma admin_goes_on (w w' : App * list SupabaseUser) (evs : list Event) (ev : Event) :
  opened_by_admin evs w →
  isAuthenticated w'.1 = isAuthenticated w.1 →
  isAdmin w'.1 = isAdmin w.1 →
  opened_by_admin (evs ++ [ev]) w'.
Proof.
  intros Hopen Ha Hadm Hyes. rewrite Hadm in Hyes.
  destruct (Hopen Hyes) as (Hauth & before & after & u & p & d & qf & uf & Hevs & Hlogin).
  split; [by rewrite Ha|].
  exists before, (after ++ [ev]), u, p, d, qf, uf.
  split; [by rewrite Hevs, <- app_assoc | done].
Qed.

Lemma sessions_are_opened_by_logins (w0 : App * list SupabaseUser)
    (evs : list Event) :
  isAuthenticated w0.1 = false → isAdmin w0.1 = false →
  opened_by_login w0 evs (run evs w0) ∧ opened_by_admin evs (run evs w0).
Proof.
  intros Hout Hnot. induction evs as [|ev evs [IHu IHa]] using rev_ind.
  - split.
    + intros Hauth. cbn in Hauth. congruence.
    + intros Hadm. cbn in Hadm. congruence.
  - rewrite run_snoc. set (w := run evs w0) in *.
    destruct ev as [u p d qf uf| | | |now| |isOnline]; cbn [step].
    + unfold handleLogin. destruct (is_admin_login u p) eqn:Hl; cbn [fst snd].
      * split.
        { intros _ Hadm. cbn in Hadm. discriminate. }
        { intros _. split; [reflexivity|].
          exists evs, [], u, p, d, qf, uf. by split. }
      * destruct (authenticateUser w.2 qf uf u p d) as [[b|e] users'] eqn:Hret;
          cbn [fst snd].
        { split.
          - intros _ _. exists evs, [], u, p, d, qf, uf.
            split; [done|]. split; [done|].
            split; [fold w; by rewrite Hret|]. split; [done|].
            cbn. discriminate.
          - intros Hadm. cbn in Hadm. discriminate. }
        { split.
          - by apply (session_goes_on w0 w); [done| | | | |left].
          - by apply (admin_goes_on w). }
    + split.
      * intros Hauth. cbn in Hauth. discriminate.
      * intros Hadm. cbn in Hadm. discriminate.
    + split.
      * apply (session_goes_on w0 w); [done|done|done|done|done|]. by right.
      * by apply (admin_goes_on w).
    + split.
      * intros Hauth. cbn in Hauth. discriminate.
      * intros Hadm. cbn in Hadm. discriminate.
    + split.
      * apply (session_goes_on w0 w); [done|done|done|done|done|]. by left.
      * by apply (admin_goes_on w).
    + split.
      * apply (session_goes_on w0 w); [done|done|done|done|done|]. by left.
      * by apply (admin_goes_on w).
    + split.
      * apply (session_goes_on w0 w); [done|done|done|done|done|]. by left.
      * by apply (admin_goes_on w).
Qed.

Lemma main_screen_state (app : App) (o : option jsstring) (b : bool) :
  renderContent app = MainScreen o b →
  appError app = None ∧ isAuthenticated app = true ∧ isAdmin app = false ∧
  legalAccepted app = true ∧ isWorkingTime app = true ∧
  o = currentUser app ∧ b = isUnrestrictedUser app.
Proof.
  unfold renderContent.
  destruct (appError app); [discriminate|].
  destruct (isAuthenticated app); [|discriminate].
  destruct (isAdmin app); [discriminate|].
  destruct (legalAccepted app); [|discriminate].
  destruct (isWorkingTime app); [|discriminate].
  cbn. intros [= <- <-]. done.
Qed.

(** The clock reading from which the working hours were last computed: the
    one at the start, or the one of the latest tick of the interval. *)
Definition last_reading (now0 : Z) (evs : list Event) : Z :=
  fold_left (λ t ev, match ev with Tick now => now | _ => t end) evs now0.

Lemma working_time_of_last_reading (evs : list Event) :
  ∀ (w : App * list SupabaseUser) (t : Z),
    isWorkingTime w.1 = Time.isWithinWorkingHours t →
    isWorkingTime (run evs w).1 = Time.isWithinWorkingHours (last_reading t evs).
Proof.
  induction evs as [|ev evs IH]; intros w t Hw; [exact Hw|].
  unfold run, last_reading. cbn [fold_left]. apply IH.
  destruct ev as [u p d qf uf| | | |now| |isOnline]; cbn [step fst]; try exact Hw.
  - unfold handleLogin. destruct (is_admin_login u p); [exact Hw|].
    by destruct (authenticateUser w.2 qf uf u p d) as [[b|e] users'].
  - reflexivity.
Qed.

(** X18. Whatever happened since the application was started, when the main
    screen is shown it is shown for a user: the events contain a login of
    that user which [authenticateUser] let through against the table of that
    moment, whose answer is the unrestricted flag passed to the screen; that
    login was not the admin login; and the legal text was accepted after it.
    The screen is shown in working hours only, as the clock was last read:
    at the reading taken when the application started, or at the one of the
    latest tick of the interval if there was one, the day of the month was at
    most 20, the day was Monday to Friday, the hour was from 8 to 17, and the
    date was no public holiday. *)
Theorem main_screen_needs_login_and_consent (SUPABASE_URL SUPABASE_KEY : jsstring)
    (now0 : Z) (users : list SupabaseUser) (evs : list Event)
    (o : option jsstring) (isUnrestricted : bool) :
  let w0 := (start SUPABASE_URL SUPABASE_KEY now0, users) in
  let t := last_reading now0 evs in
  renderContent (run evs w0).1 = MainScreen o isUnrestricted →
  isWorkingTime (run evs w0).1 = true ∧
  Time.isWithinWorkingHours t = true ∧
  (Time.getDate t ≤ 20 ∧ 1 ≤ Time.getDay t ≤ 5 ∧ 8 ≤ Time.getHours t < 18 ∧
   ¬ Time.holiday (Time.getFullYear t) (Time.getMonth t + 1) (Time.getDate t)) ∧
  ∃ before after u p d qfault ufault,
    evs = before ++ Login u p d qfault ufault :: after ∧
    o = Some u ∧
    is_admin_login u p = false ∧
    (authenticateUser (run before w0).2 qfault ufault u p d).1 = Return isUnrestricted ∧
    AcceptLegal ∈ after.
Proof.
  cbv zeta. intros Hmain.
  apply main_screen_state in Hmain as (_ & Hauth & Hnot & Hlegal & Hwork & -> & ->).
  split; [exact Hwork|].
  assert (Hread : Time.isWithinWorkingHours (last_reading now0 evs) = true).
  { rewrite <- Hwork. symmetry.
    by apply (working_time_of_last_reading evs
                (start SUPABASE_URL SUPABASE_KEY now0, users) now0). }
  split; [exact Hread|]. split.
  { apply Time.isWithinWorkingHours_rules in Hread as (Hdate & Hday & Hhour & Hholiday).
    repeat split; try lia. by rewrite <- Time.holiday_rule. }
  destruct (sessions_are_opened_by_logins (start SUPABASE_URL SUPABASE_KEY now0, users)
              evs eq_refl eq_refl) as [Hopen _].
  destruct (Hopen Hauth Hnot)
    as (before & after & u & p & d & qf & uf & Hevs & Hlogin & Hret & Hcur & Hacc).
  exists before, after, u, p, d, qf, uf.
  split; [done|]. split; [done|]. split; [done|]. split; [done|]. by apply Hacc.
Qed.

(** The account 1002 of [staff] logs in from its device on a Tuesday
    morning and accepts the legal text. *)
Lemma main_screen_needs_login_and_consent_witness :
  let w0 := (start (js "https://abc.supabase.co") (js "key")
               (Time.local_time 2025 6 10 9 0), staff) in
  let evs := [Login (js "1002") (js "pw2") (js "dev-A") None None; AcceptLegal] in
  renderContent (run evs w0).1 = MainScreen (Some (js "1002")) false ∧
  Time.isWithinWorkingHours (last_reading (Time.local_time 2025 6 10 9 0) evs) = true ∧
  ∃ before after u p d qfault ufault,
    evs = before ++ Login u p d qfault ufault :: after ∧
    Some (js "1002") = Some u ∧
    is_admin_login u p = false ∧
    (authenticateUser (run before w0).2 qfault ufault u p d).1 = Return false ∧
    AcceptLegal ∈ after.
Proof.
  cbv zeta.
  assert (Hmain : renderContent
            (run [Login (js "1002") (js "pw2") (js "dev-A") None None; AcceptLegal]
               (start (js "https://abc.supabase.co") (js "key")
                  (Time.local_time 2025 6 10 9 0), staff)).1
          = MainScreen (Some (js "1002")) false) by (vm_compute; reflexivity).
  split; [exact Hmain|].
  destruct (main_screen_needs_login_and_consent _ _ _ _ _ _ _ Hmain)
    as (_ & Hread & _ & Hlogin).
  split; [exact Hread | exact Hlogin].
Defined.

(** The screen stays on what the last reading gave: opened at 17:59, it is
    still shown until the next tick, and closed by a tick at 18:00. *)
Example main_screen_follows_the_ticks :
  let w0 := (start (js "https://abc.supabase.co") (js "key")
               (Time.local_time 2025 6 10 17 59), staff) in
  let evs := [Login (js "1002") (js "pw2") (js "dev-A") None None; AcceptLegal] in
  renderContent (run evs w0).1 = MainScreen (Some (js "1002")) false ∧
  last_reading (Time.local_time 2025 6 10 17 59) evs = Time.local_time 2025 6 10 17 59 ∧
  renderContent (run (evs ++ [Tick (Time.local_time 2025 6 10 18 0)]) w0).1
  = OfflineScreen.
Proof. vm_compute. done. Qed.

(** X19. The login with the name admin and the password admin123 is settled in
    the application: it opens the admin session whatever the table holds and
    whether or not the store answers, without reading or writing the table,
    and the admin screen then shows outside the working hours too. The admin
    screen is shown after such a login only. *)
Theorem admin_login_is_local (SUPABASE_URL SUPABASE_KEY : jsstring)
    (now0 : Z) (users : list SupabaseUser) :
  let w0 := (start SUPABASE_URL SUPABASE_KEY now0, users) in
  (∀ app table qfault ufault d,
     handleLogin app table qfault ufault (js "admin") (js "admin123") d
       = (None, admin_session app, table) ∧
     (appError app = None → ∀ now, renderContent (tick now (admin_session app)) = AdminScreen)) ∧
  (∀ evs, renderContent (run evs w0).1 = AdminScreen →
     ∃ before after d qfault ufault,
       evs = before ++ Login (js "admin") (js "admin123") d qfault ufault :: after).
Proof.
  cbv zeta. split.
  - intros app table qf uf d. split; [reflexivity|].
    intros Herr now. unfold renderContent. cbn [tick admin_session appError].
    by rewrite Herr.
  - intros evs Hadmin.
    assert (Hyes : isAdmin (run evs (start SUPABASE_URL SUPABASE_KEY now0, users)).1 = true).
    { revert Hadmin. unfold renderContent.
      destruct (appError _); [discriminate|].
      destruct (isAuthenticated _); [|discriminate].
      destruct (isAdmin _); [done|].
      destruct (legalAccepted _); [|discriminate].
      destruct (isWorkingTime _); discriminate. }
    destruct (sessions_are_opened_by_logins (start SUPABASE_URL SUPABASE_KEY now0, users)
                evs eq_refl eq_refl) as [_ Hopen].
    destruct (Hopen Hyes) as (_ & before & after & u & p & d & qf & uf & Hevs & Hlogin).
    unfold is_admin_login in Hlogin. apply andb_true_iff in Hlogin as [Hu Hp].
    apply str_eqb_true in Hu, Hp. subst u p.
    by exists before, after, d, qf, uf.
Qed.

(** *** A run *)

Example session_of_a_user :
  let w0 := (start (js "https://abc.supabase.co") (js "key")
               (Time.local_time 2025 6 10 9 0), staff) in
  map (λ evs, renderContent (run evs w0).1)
    [ [];
      [CheckFinished true];
      [Login (js "1002") (js "pw2") (js "dev-B") None None];
      [Login (js "1002") (js "pw2") (js "dev-A") None None];
      [Login (js "1002") (js "pw2") (js "dev-A") None None; AcceptLegal];
      [Login (js "1002") (js "pw2") (js "dev-A") None None; AcceptLegal;
       Tick (Time.local_time 2025 6 10 18 0)];
      [Login (js "1002") (js "pw2") (js "dev-A") None None; DeclineLegal] ]
  = [ LoginScreen checking; LoginScreen online; LoginScreen checking;
      LegalScreen; MainScreen (Some (js "1002")) false; OfflineScreen;
      LoginScreen checking ].
Proof. vm_compute. reflexivity. Qed.

End Session.

(** ** Restoring a backup ([processCSV] on the text of [exportCustomersAsCSV])

    Source: [src/unnamed/part_001] (the admin screen), lines 276-351;
    [src/services/supabaseClient.ts], lines 337-431. *)

Module Restore.

Import Bulk Csv.

(** [result.error] as a condition: [null] and the empty text are false. *)
Definition error_truthy (e : BulkError) : bool :=
  match e with
  | NoError => false
  | LastMessage m => negb (bool_decide (m = []))
  | WritePermission => true
  end.

(** What [processCSV] writes to the log of the import once it is through. *)
Inductive ImportReport :=
| NoData                             (* "HATA: İşlenecek veri bulunamadı. ..." *)
| Critical (e : BulkError)           (* "KRİTİK HATA: ${result.error}" *)
| Completed (success errorCount : Z) (lastError : option BulkError).
                                     (* "İŞLEM TAMAMLANDI.", "Başarılı: ..",
                                        "Hatalı: ..", and "Son Hata Mesajı: .."
                                        when there are errors *)

Section WithRuntime.

Context {number : Type} `{JsNumber number}.

Variable toLowerCase : jsstring → jsstring.

(** [processCSV(csvText)]: the report, and the chunks handed to the store. *)
Definition processCSV (csvText : jsstring) (respond : nat → UpsertOutcome)
    : ImportReport * list (list (SupabaseCustomer number)) :=
  let customers := parsed_customers toLowerCase csvText in
  if (length customers =? 0)%nat then (NoData, [])
  else
    let result := bulkUpsertCustomers customers respond in
    if error_truthy (Bulk.error result.1) && (success result.1 =? 0)
    then (Critical (Bulk.error result.1), sent result.2)
    else (Completed (success result.1) (errorCount result.1)
            (if errorCount result.1 >? 0 then Some (Bulk.error result.1) else None),
          sent result.2).

(** A coordinate as it comes back: zero and [NaN] were printed as the empty
    text and are read as [null]. *)
Definition kept (x : option number) : option number :=
  match x with
  | Some n => if num_truthy n then Some n else None
  | None => None
  end.

(** A row as it comes back. *)
Definition restored (row : SupabaseCustomer number) : SupabaseCustomer number :=
  {| id := None;
     installation_number := installation_number row;
     row_name := row_name row;
     row_phone := row_phone row;
     row_address := row_address row;
     row_latitude := kept (row_latitude row);
     row_longitude := kept (row_longitude row) |}.

(** The runtime: [toLowerCase] on ASCII text, and numbers whose printed form
    is made of the characters of a number, is not empty, and, for the
    numbers that are printed at all (not zero, not [NaN]), is read back by
    [parseFloat] as the number. *)
Hypothesis toLowerCase_ascii :
  ∀ s, Forall is_ascii s → toLowerCase s = lower_ascii s.

Hypothesis printed_numbers :
  ∀ n : number, Forall (λ c, c ∈ number_chars) (num_toString n).

Hypothesis printed_not_empty : ∀ n : number, num_toString n ≠ [].

Hypothesis printed_is_parsed :
  ∀ n : number, num_truthy n = true → parseFloat (num_toString n) = n.

Lemma replace_first_absent (a b : N) (s : jsstring) :
  a ∉ s → replace_first a b s = s.
Proof.
  induction s as [|c s IH]; intros Ha; [done|]. cbn [replace_first].
  rewrite bool_decide_eq_false_2.
  - rewrite IH; [done|]. intros Hin. apply Ha. by right.
  - intros ->. apply Ha. left.
Qed.

Lemma comma_not_printed (n : number) : Bulk.comma ∉ num_toString n.
Proof.
  intros Hin.
  pose proof (proj1 (Forall_forall _ _) (printed_numbers n) _ Hin) as Hc.
  revert Hc. apply (bool_decide_unpack _). vm_compute. exact I.
Qed.

Lemma coordinate_restored (x : option number) :
  Bulk.coordinate (Some (coordinate_text x)) = kept x.
Proof.
  destruct x as [n|]; cbn [coordinate_text kept]; [|reflexivity].
  destruct (num_truthy n) eqn:Hn; [|reflexivity].
  unfold Bulk.coordinate. pose proof (printed_not_empty n) as Hne.
  destruct (num_toString n) as [|c s] eqn:Hs; [done|].
  cbn [truthy or_empty]. rewrite <- Hs.
  rewrite replace_first_absent by apply comma_not_printed.
  by rewrite printed_is_parsed.
Qed.

Lemma to_db_row_customer_of (row : SupabaseCustomer number) :
  to_db_row (customer_of row) = restored row.
Proof.
  unfold to_db_row, customer_of, restored.
  cbn [installationNumber name phone address latitude longitude].
  by rewrite !coordinate_restored.
Qed.

Lemma rows_restored (rows : list (SupabaseCustomer number)) :
  map to_db_row (map customer_of rows) = map restored rows.
Proof.
  rewrite map_map. apply map_ext. intros row. apply to_db_row_customer_of.
Qed.

(** X20. A backup written by the export, read back by the import. For rows that
    the export writes faithfully, the rows handed to the store are the rows
    of the backup, in the same order, cut into chunks of 200: without their
    id, and with the coordinates that are zero read as [null]; this as long
    as no chunk meets a permission failure. When the store accepts every
    chunk, the report is "completed" with all rows as successes and no
    error. A backup of no rows is reported as holding no data and nothing is
    sent. *)
Theorem backup_is_restored (rows : list (SupabaseCustomer number))
    (respond : nat → UpsertOutcome) :
  Forall exportable rows →
  let out := processCSV (csv_of rows) respond in
  let n := n_chunks (length rows) in
  (rows = [] → out = (NoData, [])) ∧
  (rows ≠ [] → (∀ j, (j < n)%nat → permission_failure (respond j) = false) →
     out.2 = chunks (map restored rows) ∧ concat out.2 = map restored rows) ∧
  (rows ≠ [] → (∀ j, (j < n)%nat → respond j = Upserted) →
     out.1 = Completed (Z.of_nat (length rows)) 0 None).
Proof.
  intros Hall. cbv zeta. unfold processCSV.
  rewrite (parsed_csv_of toLowerCase toLowerCase_ascii printed_numbers rows Hall).
  rewrite length_map.
  destruct rows as [|row rows']; [by repeat split|].
  set (rows := row :: rows') in *.
  change (length rows =? 0)%nat with false. cbv iota.
  rewrite BulkReport.bulkUpsertCustomers_loop, rows_restored.
  assert (Hlen : length (map restored rows) = length rows) by apply length_map.
  split; [done|]. split.
  - intros _ Hperm.
    destruct (chunk_loop_runs (map restored rows) respond
                (n_chunks (length rows)) 0 initial) as (Hsent & _ & _).
    { by rewrite Hlen. }
    { intros j Hj. apply Hperm. lia. }
    assert (Hchunks : sent (chunk_loop (map restored rows) respond
                              (0 * CHUNK_SIZE) initial).2
                      = chunks (map restored rows)).
    { rewrite Hsent. unfold chunks. by rewrite Hlen. }
    destruct (error_truthy _ && _); cbn [snd]; rewrite Hchunks;
      (split; [reflexivity | apply chunks_partition]).
  - intros _ Hok.
    destruct (BulkReport.chunk_loop_error (map restored rows) respond
                (n_chunks (length rows)) 0 initial) as [Herr Hcount];
      [by rewrite Hlen | done | cbn; lia |].
    pose proof (chunk_loop_total (map restored rows) respond
                  (n_chunks (length rows)) 0 initial
                  ltac:(by rewrite Hlen) ltac:(cbn; lia)) as Hsum.
    cbv zeta in Hsum. rewrite Hlen in Hsum.
    assert (Hall' : ∀ j, (0 ≤ j < 0 + n_chunks (length rows))%nat → respond j = Upserted)
      by (intros j Hj; apply Hok; lia).
    assert (He : Bulk.error (chunk_loop (map restored rows) respond
                               (0 * CHUNK_SIZE) initial).1 = NoError)
      by (apply Herr; by split).
    assert (Hc : errorCount (chunk_loop (map restored rows) respond
                               (0 * CHUNK_SIZE) initial).1 = 0)
      by (apply Hcount; by split).
    rewrite He, Hc. cbn [error_truthy andb fst]. rewrite Hc in Hsum.
    replace (success (chunk_loop (map restored rows) respond
                        (0 * CHUNK_SIZE) initial).1)
      with (Z.of_nat (length rows)) by lia.
    reflexivity.
Qed.

End WithRuntime.

(** The store takes everything. *)
Definition accepts_all (k : nat) : UpsertOutcome := Upserted.

(** The backup of [sample_table] restored: two rows, of which the second
    comes back without its latitude of zero. *)
Lemma backup_is_restored_witness :
  let rows := take EXPORT_LIMIT sample_table in
  let out := processCSV (H := coordinates) lower_ascii
               (csv_of (H := coordinates) rows) accepts_all in
  out.1 = Completed 2 0 None ∧
  concat out.2
  = [ {| id := None; installation_number := js "40001";
         row_name := js " Kaya, Ayse "; row_phone := js "0555 111";
         row_address := js "Izmir " ++ [quote] ++ js "Merkez";
         row_latitude := Some lat_izmir; row_longitude := Some lon_izmir |};
      {| id := None; installation_number := js "40002";
         row_name := js "Ali Can"; row_phone := js "";
         row_address := js ""; row_latitude := None; row_longitude := None |} ].
Proof.
  cbv zeta.
  destruct (backup_is_restored (H := coordinates) lower_ascii (λ s _, eq_refl)
              coordinates_printed
              ltac:(intros n; destruct n; discriminate)
              ltac:(intros n _; destruct n; reflexivity)
              (take EXPORT_LIMIT sample_table) accepts_all sample_table_exportable)
    as (_ & Hsent & Hreport).
  split.
  - apply Hreport; [discriminate | reflexivity].
  - destruct Hsent as [_ Hrows]; [discriminate | reflexivity |].
    rewrite Hrows. reflexivity.
Defined.

End Restore.

(** ** What a search leaves behind ([performSearch])

    Source: [src/components/MainScreen.tsx], lines 63-114. *)

Module Searches.

Import Search.

Section WithNumbers.

Context {number : Type} `{JsNumber number}.

Variable map_urls : Customer → MapUrls.

(** X21. A blank term does nothing at all. Any other term is looked up
    without the white space around it, and the search is written to the log,
    the insert going through, whether the lookup succeeds or fails, whether
    or not it was answered from the cache, and whether or not the rest of the
    search throws. A lookup that fails shows its error and no customer, and
    the recent searches stay as they were. One that succeeds sets the
    customer and puts the term at the head of the recent searches; then no
    error is shown when the storage takes the list of recent searches and the
    map addresses are made, and otherwise the exception is shown as the
    error: the one of the storage when it refuses the list, else the one of
    the encoding of the address. A lookup answered from the cache sends no
    query to the store. *)
Theorem every_search_is_logged (c : Lookup.Circumstances)
    (recents_refused : option jsstring)
    (customers : list (SupabaseCustomer number)) (u : jsstring)
    (screen : Screen) (dev : Lookup.Device) (search_logs : list SearchLog)
    (term : jsstring) (log : InsertOutcome) :
  let after :=
    performSearch map_urls c recents_refused log customers u screen dev search_logs
      term in
  let found := Lookup.findCustomerByInstallationNumber c customers dev (trim term) in
  (trim term = [] → after = (screen, dev, search_logs)) ∧
  (trim term ≠ [] →
     after.1.2 = found.2 ∧
     (∀ now, log = Inserted now →
        after.2 = search_logs ++ [ {| log_username := Some u;
                                      log_installation_number := trim term;
                                      created_at := now |} ]) ∧
     (∀ err, found.1 = Throw err →
        error after.1.1 = Some (LookupError err) ∧ foundCustomer after.1.1 = None ∧
        recentSearches after.1.1 = recentSearches screen) ∧
     (∀ customer, found.1 = Return customer →
        foundCustomer after.1.1 = Some customer ∧
        recentSearches after.1.1 = saveToRecents (recentSearches screen) (trim term) ∧
        error after.1.1
        = match recents_refused, map_urls customer with
          | Some message, _ => Some (StorageError message)
          | None, UriThrows message => Some (UriError message)
          | None, Urls _ _ => None
          end) ∧
     (∀ cached,
        Lookup.fresh_entry (Lookup.read_at c) (Lookup.localStorage dev) (trim term) cached →
        foundCustomer after.1.1 = Some cached ∧
        Lookup.queries after.1.2 = Lookup.queries dev)).
Proof.
  cbv zeta. unfold performSearch.
  destruct (trim term) as [|ch rest] eqn:Ht; [by split|].
  split; [done|]. intros _.
  pose proof (Lookup.find_hit c customers dev (ch :: rest)) as Hhit.
  destruct (Lookup.findCustomerByInstallationNumber c customers dev (ch :: rest))
    as [[customer|err] dev'] eqn:Hfound; cbn [fst snd].
  - destruct recents_refused as [message|];
      [|destruct (map_urls customer) as [embed external|message] eqn:Hm];
      cbn [fst snd];
      (split; [done|]); (split; [by intros now ->|]);
      (split; [intros err' [=]|]);
      (split; [intros customer' [= <-]; try rewrite Hm; done|]);
      intros cached Hfresh; specialize (Hhit cached Hfresh);
      injection Hhit as -> ->; done.
  - split; [done|]. split; [by intros now ->|].
    split; [intros err' [= <-]; done|]. split.
    + intros customer' [=].
    + intros cached Hfresh. specialize (Hhit cached Hfresh). discriminate.
Qed.

End WithNumbers.

(** The number 49999 is not in the registry: the search fails, and is in
    the log all the same. *)
Example failed_search_is_logged :
  let after :=
    performSearch (H := text_number) no_map (Lookup.at_time 1000) None (Inserted 1100)
      Lookup.registry (js "1002") blank_screen Lookup.new_device []
      (js " 49999 ") in
  error after.1.1 = Some (LookupError NotFound) ∧
  recentSearches after.1.1 = [js "40002"; js "40001"] ∧
  after.2 = [ {| log_username := Some (js "1002");
                 log_installation_number := js "49999"; created_at := 1100 |} ].
Proof. vm_compute. done. Qed.

End Searches.

(** ** The columns of an imported line ([processCSV])

    Source: [src/unnamed/part_001] (the admin screen), lines 296-316. *)

Module Columns.

Import Csv.

(** *** Joined fields *)

Lemma elem_of_join (sep c : N) (fields : list jsstring) :
  c ∈ join_with [sep] fields → c = sep ∨ ∃ f, f ∈ fields ∧ c ∈ f.
Proof.
  induction fields as [|f [|g fields] IH]; intros Hin.
  - inversion Hin.
  - right. exists f. split; [left | done].
  - rewrite join_with_cons in Hin. cbn [app] in Hin.
    apply elem_of_app in Hin as [Hin|Hin].
    + right. exists f. split; [left | done].
    + apply elem_of_cons in Hin as [->|Hin]; [by left|].
      destruct (IH Hin) as [->|(f' & Hf' & Hc)]; [by left|].
      right. exists f'. split; [by right | done].
Qed.

Lemma sep_in_join (sep : N) (fields : list jsstring) :
  (2 ≤ length fields)%nat → sep ∈ join_with [sep] fields.
Proof.
  destruct fields as [|f [|g fields]]; cbn [length]; try lia. intros _.
  rewrite join_with_cons. cbn [app]. apply elem_of_app. right. left.
Qed.

Lemma head_of_join (sep c : N) (fields : list jsstring) :
  head (join_with [sep] fields) = Some c →
  c = sep ∨ ∃ f, f ∈ fields ∧ head f = Some c.
Proof.
  destruct fields as [|f [|g fields]]; intros Hh.
  - discriminate.
  - right. exists f. split; [left | done].
  - rewrite join_with_cons in Hh. cbn [app] in Hh.
    destruct f as [|c0 f]; cbn [app head] in Hh.
    + left. congruence.
    + right. exists (c0 :: f). split; [left | done].
Qed.

Lemma last_of_join (sep c : N) (fields : list jsstring) :
  last (join_with [sep] fields) = Some c →
  c = sep ∨ ∃ f, f ∈ fields ∧ last f = Some c.
Proof.
  induction fields as [|f [|g fields] IH]; intros Hl.
  - discriminate.
  - right. exists f. split; [left | done].
  - rewrite join_with_cons in Hl. rewrite last_app in Hl. cbn [app] in Hl.
    rewrite last_cons in Hl.
    destruct (last (join_with [sep] (g :: fields))) as [y|] eqn:Hrest.
    + injection Hl as ->.
      destruct (IH eq_refl) as [->|(f' & Hf' & Hc)]; [by left|].
      right. exists f'. split; [by right | done].
    + left. congruence.
Qed.

Lemma includes_absent (c : N) (s : jsstring) : c ∉ s → includes s [c] = false.
Proof.
  induction s as [|d s IH]; intros Hc; [reflexivity|].
  cbn [includes starts_with].
  rewrite bool_decide_eq_false_2 by (intros ->; apply Hc; left).
  cbn [andb orb]. apply IH. intros Hin. apply Hc. by right.
Qed.

Lemma bare_columns (fields : list jsstring) :
  Forall bare fields → map (λ c, strip_quotes (trim c)) fields = fields.
Proof.
  induction fields as [|f fields IH]; intros Hall; [done|].
  inversion Hall as [|? ? Hf Hrest]; subst. cbn [map].
  by rewrite trim_bare, IH.
Qed.

(** The customer made of the columns of a line. *)
Definition customer_of_columns (cols : list jsstring) : Customer :=
  {| installationNumber := nth 0 cols [];
     name := nth 1 cols [];
     phone := nth 2 cols [];
     address := nth 3 cols [];
     latitude := Some (nth 4 cols []);
     longitude := Some (nth 5 cols []) |}.

(** X22. A line is cut at its semicolons, or at its commas when it has no
    semicolon. With at least two fields, none of which holds the separator
    or begins or ends with white space or a double quote, the customer read
    is made of the first six fields in order: the fields that are missing are
    empty, and the fields after the sixth are dropped. In a line cut at
    semicolons the fields may hold commas. *)
Theorem import_reads_both_separators (sep : N) (fields : list jsstring) :
  sep = semicolon ∨ (sep = comma ∧ Forall (λ f, semicolon ∉ f) fields) →
  (2 ≤ length fields)%nat →
  Forall (λ f, sep ∉ f) fields → Forall bare fields →
  parse_line (join_with [sep] fields) = Some (customer_of_columns fields).
Proof.
  intros Hsep Hlen Hfree Hbare.
  assert (Hws : is_ws sep = false) by (by destruct Hsep as [->|[-> _]]).
  assert (Htrim : trim (join_with [sep] fields) = join_with [sep] fields).
  { apply trim_keep; intros c Hc.
    - apply head_of_join in Hc as [->|(f & Hf & Hc)]; [done|].
      by destruct (proj1 (Forall_forall _ _) Hbare f Hf c (or_introl Hc)).
    - apply last_of_join in Hc as [->|(f & Hf & Hc)]; [done|].
      by destruct (proj1 (Forall_forall _ _) Hbare f Hf c (or_intror Hc)). }
  pose proof (sep_in_join sep fields Hlen) as Hin.
  rewrite parse_line_unfold; rewrite Htrim;
    [|intros He; rewrite He in Hin; inversion Hin].
  cbv zeta.
  assert (Hseparator : (if includes (join_with [sep] fields) [semicolon]
                        then semicolon else comma) = sep).
  { destruct Hsep as [->|[-> Hno]].
    - by rewrite includes_elem.
    - rewrite includes_absent; [done|]. intros Hs.
      apply elem_of_join in Hs as [Hs|(f & Hf & Hs)]; [discriminate|].
      by apply (proj1 (Forall_forall _ _) Hno f Hf). }
  rewrite Hseparator.
  rewrite split_char_join; [|intros ->; cbn [length] in Hlen; lia|done].
  rewrite bare_columns by done.
  destruct (Nat.ltb_spec (length fields) 2); [lia|].
  unfold customer_of_columns. by rewrite !or_blank_id.
Qed.

(** A line of commas, and a line of semicolons with decimal commas. *)
Lemma import_reads_both_separators_witness :
  parse_line (js "40001,Ali Can,0555")
  = Some {| installationNumber := js "40001"; name := js "Ali Can";
            phone := js "0555"; address := js "";
            latitude := Some (js ""); longitude := Some (js "") |} ∧
  parse_line (js "40001;Ali Can;0555;Izmir;38,42;27,14;more")
  = Some {| installationNumber := js "40001"; name := js "Ali Can";
            phone := js "0555"; address := js "Izmir";
            latitude := Some (js "38,42"); longitude := Some (js "27,14") |}.
Proof.
  split.
  - apply (import_reads_both_separators comma [js "40001"; js "Ali Can"; js "0555"]).
    + right. split; [reflexivity|].
      apply (bool_decide_unpack _). vm_compute. exact I.
    + cbn [length]. lia.
    + apply (bool_decide_unpack _). vm_compute. exact I.
    + repeat (constructor;
              [intros c [Hc|Hc]; vm_compute in Hc; injection Hc as <-;
               (split; [reflexivity | discriminate])|]).
      constructor.
  - apply (import_reads_both_separators semicolon
             [js "40001"; js "Ali Can"; js "0555"; js "Izmir"; js "38,42";
              js "27,14"; js "more"]).
    + by left.
    + cbn [length]. lia.
    + apply (bool_decide_unpack _). vm_compute. exact I.
    + repeat (constructor;
              [intros c [Hc|Hc]; vm_compute in Hc; injection Hc as <-;
               (split; [reflexivity | discriminate])|]).
      constructor.
Defined.

(** A line without a separator is passed over, and so is a blank line. *)
Example lines_passed_over :
  parse_line (js "40001") = None ∧ parse_line (js "   ") = None.
Proof. split; reflexivity. Qed.

End Columns.

(** ** What a masked name shows ([maskName])

    Source: [src/components/MainScreen.tsx], lines 126-136. *)

Module Masking.

Import Mask.

(** What is used of a part: its first two code units, and whether there are
    more. *)
Definition shown (part : jsstring) : jsstring * bool :=
  (take 2 part, (length part <=? 2)%nat).

Lemma mask_part_shown (part : jsstring) :
  mask_part part = if (shown part).2 then (shown part).1 else (shown part).1 ++ js "***".
Proof.
  unfold mask_part, shown. cbn [fst snd].
  destruct (Nat.leb_spec (length part) 2) as [Hle|Hgt]; [|done].
  by rewrite take_ge.
Qed.

Lemma mask_part_idemp (part : jsstring) : mask_part (mask_part part) = mask_part part.
Proof.
  destruct (Nat.leb_spec (length part) 2) as [Hle|Hgt].
  - rewrite (mask_part_short part) by done. by apply mask_part_short.
  - rewrite (mask_part_long part) by done.
    rewrite mask_part_long.
    + rewrite take_app_le by (rewrite length_take; lia).
      by rewrite take_take.
    + rewrite length_app, length_take.
      change (length (js "***")) with 3%nat. lia.
Qed.

Lemma mask_part_no_space (part : jsstring) : space ∉ part → space ∉ mask_part part.
Proof.
  intros Hp. unfold mask_part. destruct (length part <=? 2)%nat; [done|].
  intros Hin. apply elem_of_app in Hin as [Hin|Hin].
  - apply Hp. by apply elem_of_take in Hin as (i & Hi & _); apply list_elem_of_lookup_2 in Hi.
  - revert Hin. apply (bool_decide_unpack _). vm_compute. exact I.
Qed.

(** X23. The masked name of a restricted user is made of the first two code units
    of every part and of whether the part is longer: two names that agree on
    these have the same masked name, so nothing else of a name is shown.
    Every part of a masked name has five code units at most. And masking a
    masked name changes nothing. *)
Theorem masking_hides_the_rest :
  (∀ name1 name2,
     map shown (split_char space name1) = map shown (split_char space name2) →
     maskName false name1 = maskName false name2) ∧
  (∀ fullName part,
     part ∈ split_char space (maskName false fullName) → (length part ≤ 5)%nat) ∧
  (∀ fullName, maskName false (maskName false fullName) = maskName false fullName).
Proof.
  assert (Hsplit : ∀ fullName,
            split_char space (maskName false fullName)
            = map mask_part (split_char space fullName)).
  { intros fullName. unfold maskName. apply split_char_join.
    - pose proof (split_char_nonempty space fullName).
      by destruct (split_char space fullName).
    - apply Forall_forall. intros p Hp.
      apply list_elem_of_In, in_map_iff in Hp as (q & <- & Hq).
      apply mask_part_no_space.
      apply (proj1 (Forall_forall _ _) (split_char_parts space fullName)).
      by apply list_elem_of_In. }
  split; [|split].
  - intros name1 name2 Hshown. unfold maskName. f_equal.
    transitivity (map (λ s : jsstring * bool, if s.2 then s.1 else s.1 ++ js "***")
                    (map shown (split_char space name1))).
    + rewrite map_map. apply map_ext. intros p. apply mask_part_shown.
    + rewrite Hshown, map_map. apply map_ext. intros p. symmetry.
      apply mask_part_shown.
  - intros fullName part. rewrite Hsplit. intros Hin.
    apply list_elem_of_In, in_map_iff in Hin as (q & <- & _).
    unfold mask_part. destruct (Nat.leb_spec (length q) 2); [lia|].
    rewrite length_app, length_take.
    change (length (js "***")) with 3%nat. lia.
  - intros fullName. unfold maskName at 1. rewrite Hsplit.
    unfold maskName. f_equal. rewrite map_map. apply map_ext.
    intros p. apply mask_part_idemp.
Qed.

Example two_names_one_mask :
  maskName false (js "Mehmet Yilmaz") = js "Me*** Yi***" ∧
  maskName false (js "Melike Yildirim") = js "Me*** Yi***".
Proof. split; reflexivity. Qed.

End Masking.
